(** * SenegalVoiceNormalizer: a shallow embedding and its properties

    The development follows
    [src/transformers/models/whisper/orange_voice_normalizer.py].

    - Python [str] values are Rocq [string]s read as Latin-1: one [ascii]
      per code point, so the model covers exactly the texts whose code
      points are below U+0100.  Every word of the lexicon (with its ñ, ó,
      é, ë, è) lives there, and so do the three superscript digits on which
      [str.isdigit] and [int] disagree.
    - Python [int] is [Z].
    - Exceptions are explicit: a computation that may raise returns
      [res A], and list indexing, [int] and the regex callbacks are written
      with their failure branch.
    - [while] loops are fuelled fixpoints over a one-iteration step
      function; a loop that runs out of fuel answers [OutOfFuel], never a
      partial result.
    - [re.sub] is a small backtracking matcher for the constructs the source
      patterns use, with the priorities of Python's engine.

    The embedding comes first (the modules [Py], [Re] and
    [SenegalVoiceNormalizer]), then the vocabulary of the statements, then
    the properties: the scan and the combiner of [convert_to_number], the
    phone numbers, the grouping by three, the patterns and their matches,
    the texts on which nothing raises, and the pipeline. *)

From Stdlib Require Import String Ascii List ZArith NArith Lia Bool Arith.
From Stdlib Require Import Strings.Byte Numbers.DecimalString.
From Stdlib Require Import Sorting.Permutation.
From Stdlib Require Import Numbers.DecimalPos.
Import ListNotations.

(** ** Latin-1 literals

    String literals of this file are written in UTF-8 and denote the
    Latin-1 string with one character per code point. *)

Module Latin1.

Fixpoint decode (bs : list byte) : option string :=
  match bs with
  | [] => Some EmptyString
  | b :: bs' =>
      let n := Byte.to_N b in
      if (n <? 128)%N then option_map (String (ascii_of_N n)) (decode bs')
      else if ((n =? 194)%N || (n =? 195)%N)%bool then
        match bs' with
        | b2 :: bs'' =>
            let m := Byte.to_N b2 in
            if ((128 <=? m)%N && (m <? 192)%N)%bool then
              option_map (String (ascii_of_N ((n - 192) * 64 + (m - 128))))
                         (decode bs'')
            else None
        | [] => None
        end
      else None
  end.

Fixpoint encode (s : string) : list byte :=
  match s with
  | EmptyString => []
  | String c s' =>
      let n := N_of_ascii c in
      if (n <? 128)%N then byte_of_ascii c :: encode s'
      else byte_of_ascii (ascii_of_N (192 + n / 64))
             :: byte_of_ascii (ascii_of_N (128 + n mod 64)) :: encode s'
  end.

End Latin1.

String Notation string Latin1.decode Latin1.encode : string_scope.
Open Scope string_scope.

(** ** Exceptions *)

Inductive exn := IndexError | ValueError.

(** The outcome of a computation: a value, a raised exception, or
    [OutOfFuel] when a fuelled loop of the model was cut short.  No result
    below is [OutOfFuel]; the constructor keeps a cut loop from passing
    for a result. *)
Inductive res (A : Type) : Type :=
| Ok (a : A)
| Raise (e : exn)
| OutOfFuel.
Arguments Ok {A} a.
Arguments Raise {A} e.
Arguments OutOfFuel {A}.

Definition bind {A B : Type} (x : res A) (f : A -> res B) : res B :=
  match x with
  | Ok a => f a
  | Raise e => Raise e
  | OutOfFuel => OutOfFuel
  end.

Notation "x <- c ;; k" := (bind c (fun x => k))
  (at level 61, c at next level, right associativity).
Notation "' p <- c ;; k" := (bind c (fun x => let 'p := x in k))
  (at level 61, p pattern, c at next level, right associativity).

(** ** Python built-ins on [str], [int] and [list] *)

Module Py.

Definition code (c : ascii) : N := N_of_ascii c.

(** [str.isspace] on one character, also the regex class [\s]. *)
Definition isspace_c (c : ascii) : bool :=
  let n := code c in
  ((9 <=? n) && (n <=? 13) || (28 <=? n) && (n <=? 32)
   || (n =? 133) || (n =? 160))%N.

(** Decimal digits: [str.isdecimal], the characters [int] accepts, and the
    regex class [\d]. *)
Definition isdecimal_c (c : ascii) : bool :=
  let n := code c in ((48 <=? n) && (n <=? 57))%N.

(** [str.isdigit] on one character: the decimal digits and the
    superscripts ², ³ and ¹ (U+00B2, U+00B3, U+00B9). *)
Definition isdigit_c (c : ascii) : bool :=
  let n := code c in
  (isdecimal_c c || (n =? 178) || (n =? 179) || (n =? 185))%N.

Definition isalpha_c (c : ascii) : bool :=
  let n := code c in
  ((65 <=? n) && (n <=? 90) || (97 <=? n) && (n <=? 122)
   || (n =? 170) || (n =? 181) || (n =? 186)
   || (192 <=? n) && (n <=? 214) || (216 <=? n) && (n <=? 246)
   || (248 <=? n))%N.

(** The regex class [\w]: alphanumeric (letters, digits, and the numeric
    characters ¼ ½ ¾) or underscore. *)
Definition isword_c (c : ascii) : bool :=
  let n := code c in
  (isalpha_c c || isdigit_c c || (188 <=? n) && (n <=? 190) || (n =? 95))%N.

(** [str.lower] on one character. *)
Definition lower_c (c : ascii) : ascii :=
  let n := code c in
  if ((65 <=? n) && (n <=? 90)
      || (192 <=? n) && (n <=? 222) && negb (n =? 215))%N
  then ascii_of_N (n + 32) else c.

Fixpoint lower (s : string) : string :=
  match s with
  | EmptyString => EmptyString
  | String c s' => String (lower_c c) (lower s')
  end.

Fixpoint all_c (p : ascii -> bool) (s : string) : bool :=
  match s with
  | EmptyString => true
  | String c s' => p c && all_c p s'
  end.

Definition nonempty (s : string) : bool :=
  match s with EmptyString => false | _ => true end.

(** [s.isdigit()]: at least one character, all of them digits. *)
Definition isdigit (s : string) : bool := nonempty s && all_c isdigit_c s.

Definition isdecimal (s : string) : bool := nonempty s && all_c isdecimal_c s.

(** [s.split()]: the maximal runs of non-whitespace characters. [cur] is
    the run being read. *)
Fixpoint split_from (cur s : string) : list string :=
  match s with
  | EmptyString => if nonempty cur then [cur] else []
  | String c s' =>
      if isspace_c c
      then (if nonempty cur then cur :: split_from EmptyString s'
            else split_from EmptyString s')
      else split_from (cur ++ String c EmptyString) s'
  end.

Definition split (s : string) : list string := split_from EmptyString s.

(** [s.split(sep)] for a one-character separator: empty pieces are kept. *)
Fixpoint split_on_from (sep : ascii) (cur s : string) : list string :=
  match s with
  | EmptyString => [cur]
  | String c s' =>
      if Ascii.eqb c sep then cur :: split_on_from sep EmptyString s'
      else split_on_from sep (cur ++ String c EmptyString) s'
  end.

Definition split_on (sep : ascii) (s : string) : list string :=
  split_on_from sep EmptyString s.

(** [sep.join(l)]. *)
Definition join (sep : string) (l : list string) : string :=
  String.concat sep l.

Fixpoint lstrip (s : string) : string :=
  match s with
  | String c s' => if isspace_c c then lstrip s' else s
  | EmptyString => EmptyString
  end.

Fixpoint rev_str (acc s : string) : string :=
  match s with
  | EmptyString => acc
  | String c s' => rev_str (String c acc) s'
  end.

(** [s[::-1]]. *)
Definition reversed (s : string) : string := rev_str EmptyString s.

(** [s.strip()]. *)
Definition strip (s : string) : string :=
  reversed (lstrip (reversed (lstrip s))).

(** [sub in s] for strings. *)
Fixpoint contains (sub s : string) : bool :=
  String.prefix sub s
  || match s with
     | EmptyString => false
     | String _ s' => contains sub s'
     end.

(** [s[a:b]] for [0 <= a <= b]. *)
Definition slice (a b : nat) (s : string) : string :=
  String.substring a (b - a) s.

(** [x in l] for a list or set of strings. *)
Definition mem (x : string) (l : list string) : bool :=
  existsb (String.eqb x) l.

(** [d.get(k)]; the source's [k in d] followed by [d[k]] is a match on
    this lookup. *)
Fixpoint lookup {V : Type} (d : list (string * V)) (k : string) : option V :=
  match d with
  | [] => None
  | (k', v) :: d' => if String.eqb k k' then Some v else lookup d' k
  end.

(** [l[i]], raising [IndexError] out of range. *)
Definition index {A : Type} (l : list A) (i : nat) : res A :=
  match nth_error l i with
  | Some a => Ok a
  | None => Raise IndexError
  end.

(** [l[-1]]. *)
Definition last_item {A : Type} (l : list A) : res A :=
  match rev l with
  | a :: _ => Ok a
  | [] => Raise IndexError
  end.

(** [l[a:b]] for [0 <= a]. *)
Definition lslice {A : Type} (a b : nat) (l : list A) : list A :=
  firstn (b - a) (skipn a l).

(** [str(n)]. *)
Definition str (n : Z) : string := NilZero.string_of_int (Z.to_int n).

Definition digit_value (c : ascii) : Z := Z.of_N (code c - 48).

Fixpoint int_from (acc : Z) (s : string) : Z :=
  match s with
  | EmptyString => acc
  | String c s' => int_from (10 * acc + digit_value c) s'
  end.

(** [int(s)], on the strings the source hands to it: each call is guarded
    by [s.isdigit()], and on such a string [int] succeeds exactly when
    every character is a decimal digit (a superscript digit raises
    [ValueError]). *)
Definition int (s : string) : res Z :=
  if isdecimal s then Ok (int_from 0 s) else Raise ValueError.

(** [sum(l)]. *)
Definition sum (l : list Z) : Z := fold_left Z.add l 0%Z.

End Py.

(** ** Regular expressions: [re.sub]

    The patterns of the source use literals, [.], [\s], [\d], [\b],
    greedy and lazy repetition of a single-character item, optional
    letters, alternation, groups and one lookahead.  The matcher below is a
    backtracking matcher in continuation-passing style: alternatives are
    tried left to right, a greedy repetition tries the longest run first
    and a lazy one the shortest, which is the order of Python's engine, so
    the first success is the match Python reports. *)

Module Re.

Inductive atom :=
| AChar (c : ascii)   (* a literal character *)
| ADot                (* [.]: anything but a newline *)
| ASpace              (* [\s] *)
| ADigit.             (* [\d] *)

Inductive regex :=
| Eps
| One (a : atom)
| Many (greedy : bool) (a : atom)   (* [a*] and [a*?] *)
| Bnd                               (* [\b] *)
| Cat (r1 r2 : regex)
| Alt (r1 r2 : regex)
| Grp (n : nat) (r : regex)         (* capturing group number [n] *)
| Ahead (r : regex).                (* [(?=r)] *)

(** [a+], [r?] and a literal word. *)
Definition Plus (a : atom) : regex := Cat (One a) (Many true a).
Definition Opt (r : regex) : regex := Alt r Eps.
Fixpoint Lit (s : string) : regex :=
  match s with
  | EmptyString => Eps
  | String c EmptyString => One (AChar c)
  | String c s' => Cat (One (AChar c)) (Lit s')
  end.
Fixpoint Alts (l : list regex) : regex :=
  match l with
  | [] => Eps
  | [r] => r
  | r :: l' => Alt r (Alts l')
  end.
Fixpoint Seq (l : list regex) : regex :=
  match l with
  | [] => Eps
  | [r] => r
  | r :: l' => Cat r (Seq l')
  end.

(** A position in the subject: the character before it (for [\b]), its
    offset, the text after it, and the groups closed so far (latest
    first) as pairs of offsets. *)
Record cursor := Cursor {
  before : option ascii;
  pos : nat;
  rest : string;
  groups : list (nat * (nat * nat))
}.

Definition start_of (s : string) : cursor := Cursor None 0 s [].

Definition advance (c : ascii) (s' : string) (cur : cursor) : cursor :=
  Cursor (Some c) (S (pos cur)) s' (groups cur).

(** Does the item accept the character?  [icase] is [re.IGNORECASE]: on
    Latin-1 subjects a literal matches when the lowercased characters
    agree. *)
Definition accepts (icase : bool) (a : atom) (c : ascii) : bool :=
  match a with
  | AChar x =>
      if icase then Ascii.eqb (Py.lower_c c) (Py.lower_c x) else Ascii.eqb c x
  | ADot => negb (Ascii.eqb c "010"%char)
  | ASpace => Py.isspace_c c
  | ADigit => Py.isdecimal_c c
  end.

Definition is_word (o : option ascii) : bool :=
  match o with
  | Some c => Py.isword_c c
  | None => false
  end.

Definition next_char (s : string) : option ascii :=
  match s with
  | String c _ => Some c
  | EmptyString => None
  end.

(** [\b]: exactly one side of the position is a word character. *)
Definition at_boundary (cur : cursor) : bool :=
  xorb (is_word (before cur)) (is_word (next_char (rest cur))).

Definition orelse {A : Type} (x : option A) (y : option A) : option A :=
  match x with
  | Some a => Some a
  | None => y
  end.

(** Repetition of one item from the position [(b, p, s)]. *)
Fixpoint many (icase greedy : bool) (a : atom) (k : cursor -> option cursor)
         (g : list (nat * (nat * nat))) (b : option ascii) (p : nat)
         (s : string) : option cursor :=
  let stop := k (Cursor b p s g) in
  match s with
  | EmptyString => stop
  | String c s' =>
      if accepts icase a c then
        if greedy
        then orelse (many icase greedy a k g (Some c) (S p) s') stop
        else orelse stop (many icase greedy a k g (Some c) (S p) s')
      else stop
  end.

Fixpoint run (icase : bool) (r : regex) (cur : cursor)
         (k : cursor -> option cursor) : option cursor :=
  match r with
  | Eps => k cur
  | One a =>
      match rest cur with
      | String c s' =>
          if accepts icase a c then k (advance c s' cur) else None
      | EmptyString => None
      end
  | Many greedy a =>
      many icase greedy a k (groups cur) (before cur) (pos cur) (rest cur)
  | Bnd => if at_boundary cur then k cur else None
  | Cat r1 r2 => run icase r1 cur (fun c1 => run icase r2 c1 k)
  | Alt r1 r2 => orelse (run icase r1 cur k) (run icase r2 cur k)
  | Grp n r1 =>
      run icase r1 cur
          (fun c1 => k (Cursor (before c1) (pos c1) (rest c1)
                               ((n, (pos cur, pos c1)) :: groups c1)))
  | Ahead r1 =>
      match run icase r1 cur Some with
      | Some c1 =>
          k (Cursor (before cur) (pos cur) (rest cur) (groups c1))
      | None => None
      end
  end.

(** A match anchored at [cur].  After an empty match [re.sub] asks the
    next match not to be empty at the same place ([must_advance]). *)
Definition match_at (icase : bool) (r : regex) (must_advance : bool)
           (cur : cursor) : option cursor :=
  run icase r cur
      (fun e => if must_advance && Nat.eqb (pos e) (pos cur) then None
                else Some e).

(** [search]: the leftmost match at or after [cur].  Returns the text
    skipped before the match, the cursor where the match starts and the
    one where it ends. *)
Fixpoint search_in (icase : bool) (r : regex) (must_advance : bool)
         (skipped : string) (g : list (nat * (nat * nat)))
         (b : option ascii) (p : nat) (s : string)
  : option (string * cursor * cursor) :=
  let cur := Cursor b p s g in
  match match_at icase r must_advance cur with
  | Some e => Some (skipped, cur, e)
  | None =>
      match s with
      | EmptyString => None
      | String c s' =>
          search_in icase r false (skipped ++ String c EmptyString) g
                    (Some c) (S p) s'
      end
  end.

Definition search (icase : bool) (r : regex) (must_advance : bool)
           (cur : cursor) : option (string * cursor * cursor) :=
  search_in icase r must_advance EmptyString [] (before cur) (pos cur)
            (rest cur).

(** The match object handed to a replacement: [group text s e n] is
    [match.group(n)] of a match of [text] from [s] to [e]; group 0 is the
    whole match, a group that took no part is the empty string. *)
Definition group (text : string) (s e : cursor) (n : nat) : string :=
  match n with
  | 0 => Py.slice (pos s) (pos e) text
  | _ =>
      match find (fun g => Nat.eqb (fst g) n) (groups e) with
      | Some (_, (a, b)) => Py.slice a b text
      | None => EmptyString
      end
  end.

(** [re.sub(r, repl, text)]: every non-overlapping match, leftmost first,
    is replaced by what [repl] returns for it; an exception raised by
    [repl] propagates. *)
Fixpoint sub_from (fuel : nat) (icase : bool) (r : regex)
         (repl : (nat -> string) -> res string) (text : string)
         (must_advance : bool) (cur : cursor) : res string :=
  match fuel with
  | 0 => OutOfFuel
  | S fuel' =>
      match search icase r must_advance cur with
      | None => Ok (rest cur)
      | Some (skipped, s, e) =>
          out <- repl (group text s e) ;;
          tail <- sub_from fuel' icase r repl text (Nat.eqb (pos e) (pos s))
                           (Cursor (before e) (pos e) (rest e) []) ;;
          Ok (skipped ++ out ++ tail)
      end
  end.

Definition sub (icase : bool) (r : regex)
           (repl : (nat -> string) -> res string) (text : string)
  : res string :=
  sub_from (2 + 2 * String.length text) icase r repl text false
           (start_of text).

End Re.

(** ** The normalizer *)

Module SenegalVoiceNormalizer.

Import Py.
Open Scope Z_scope.

(** *** The lexicon ([__init__]) *)

Definition wolof_basic : list (string * Z) :=
  [("benn", 1); ("ñaar", 2); ("ñett", 3); ("ñent", 4); ("juróom", 5);
   ("ñaari", 2); ("ñetti", 3); ("ñenti", 4); ("juróomi", 5);
   ("benni", 1)].

Definition wolof_ten : list (string * Z) := [("fukk", 10)].

Definition wolof_hundred : list (string * Z) := [("téeméer", 100)].

Definition wolof_thousand : list (string * Z) := [("junni", 1000)].

Definition wolof_special : list (string * Z) := [("fanweer", 30)].

Definition wolof_large : list (string * Z) :=
  [("fukki junni", 10000); ("téeméeri junni", 100000);
   ("tamndareet", 1000000); ("million", 1000000);
   ("tamñareet", 1000000000); ("miliyard", 1000000000);
   ("milliard", 1000000000)].

Definition french_ones : list (string * Z) :=
  [("zéro", 0); ("zero", 0); ("un", 1); ("une", 1); ("deux", 2);
   ("trois", 3); ("quatre", 4); ("cinq", 5); ("six", 6); ("sept", 7);
   ("huit", 8); ("neuf", 9); ("dix", 10); ("onze", 11); ("douze", 12);
   ("treize", 13); ("quatorze", 14); ("quinze", 15); ("seize", 16);
   ("dix-sept", 17); ("dix-huit", 18); ("dix-neuf", 19)].

Definition french_tens : list (string * Z) :=
  [("vingt", 20); ("trente", 30); ("quarante", 40); ("cinquante", 50);
   ("soixante", 60); ("soixante-dix", 70); ("quatre-vingts", 80);
   ("quatre-vingt", 80); ("quatre-vingt-dix", 90)].

Definition french_multipliers : list (string * Z) :=
  [("cent", 100); ("cents", 100); ("mille", 1000);
   ("million", 1000000); ("millions", 1000000);
   ("milliard", 1000000000); ("milliards", 1000000000)].

Definition connectors : list string := ["ak"; "et"; "you"; "manqué"].

(** A Python [set]: its iteration order is not fixed, so [normalize_codes]
    below takes the order as an argument, any permutation of this list. *)
Definition service_words : list string :=
  ["tapez"; "composer"; "appuyez"; "sur"].

(** *** [convert_to_number]: the scan *)

(** What a block of the loop body does: [Continue i result] is the
    source's [continue] after updating [i] and [result]; [Fall i] falls
    through to the next block (some blocks move [i] before giving up). *)
Inductive flow :=
| Continue (i : nat) (result : list string)
| Fall (i : nat).

(** [b and e], where evaluating [e] may raise. *)
Definition and_then (b : bool) (e : res bool) : res bool :=
  if b then e else Ok false.

Definition word_is (words : list string) (i : nat) (w : string) : res bool :=
  x <- index words i ;; Ok (String.eqb x w).

(** Lines 119-152: a word containing a hyphen. *)
Definition hyphenated (words : list string) (i : nat) (result : list string)
  : res flow :=
  w <- index words i ;;
  if contains "-" w then
    match lookup french_tens w with
    | Some v => Ok (Continue (i + 1) (result ++ [str v]))
    | None =>
        match lookup french_ones w with
        | Some v => Ok (Continue (i + 1) (result ++ [str v]))
        | None =>
            let parts := split_on "-" w in
            qv <- and_then (length parts =? 3)%nat
                    (p0 <- index parts 0 ;;
                     and_then (String.eqb p0 "quatre")
                       (p1 <- index parts 1 ;;
                        Ok (String.eqb p1 "vingt"))) ;;
            if qv then
              p2 <- index parts 2 ;;
              let base := 80 in
              match lookup french_ones p2 with
              | Some v => Ok (Continue (i + 1) (result ++ [str (base + v)]))
              | None => Ok (Continue (i + 1) (result ++ [str base]))
              end
            else if (length parts =? 2)%nat then
              let total :=
                fold_left
                  (fun total part =>
                     match lookup french_ones part with
                     | Some v => total + v
                     | None =>
                         match lookup french_tens part with
                         | Some v => total + v
                         | None => total
                         end
                     end) parts 0 in
              if 0 <? total
              then Ok (Continue (i + 1) (result ++ [str total]))
              else Ok (Fall i)
            else Ok (Fall i)
        end
    end
  else Ok (Fall i).

(** Lines 163-170: [juróom X] is 5+X. *)
Definition juroom_unit (words : list string) (i : nat)
           (result : list string) : res flow :=
  c <- (j <- word_is words i "juróom" ;;
        Ok (j && (i + 1 <? length words)%nat)) ;;
  if c then
    w1 <- index words (i + 1) ;;
    match lookup wolof_basic w1 with
    | Some v => Ok (Continue (i + 2) (result ++ [str (5 + v)]))
    | None => Ok (Fall i)
    end
  else Ok (Fall i).

(** Lines 172-189 with [("fukk", 10)] and lines 191-208 with
    [("téeméer", 100)]: the two blocks differ in the word and the factor
    only.  The inner branch moves [i] past [juróom] before its last test,
    and keeps it moved when that test fails. *)
Definition unit_times (word : string) (factor : Z) (words : list string)
           (i : nat) (result : list string) : res flow :=
  c <- and_then (i + 1 <? length words)%nat (word_is words (i + 1) word) ;;
  if c then
    w <- index words i ;;
    match lookup wolof_basic w with
    | Some v => Ok (Continue (i + 2) (result ++ [str (v * factor)]))
    | None =>
        if String.eqb w "juróom" then
          c2 <- and_then (i + 2 <? length words)%nat
                  (word_is words (i + 2) word) ;;
          if c2 then
            let i := (i + 1)%nat in
            w' <- index words i ;;
            match lookup wolof_basic w' with
            | Some v =>
                Ok (Continue (i + 2) (result ++ [str ((5 + v) * factor)]))
            | None => Ok (Fall i)
            end
          else Ok (Fall i)
        else Ok (Fall i)
    end
  else Ok (Fall i).

(** Lines 210-219: [X junni], unless the last value emitted is ["20"]. *)
Definition unit_junni (words : list string) (i : nat)
           (result : list string) : res flow :=
  c <- and_then (i + 1 <? length words)%nat
         (word_is words (i + 1) "junni") ;;
  if c then
    w <- index words i ;;
    match lookup wolof_basic w with
    | Some v =>
        after20 <- and_then (0 <? i)%nat
                     (and_then (negb (length result =? 0)%nat)
                        (l <- last_item result ;; Ok (String.eqb l "20"))) ;;
        if negb after20
        then Ok (Continue (i + 2) (result ++ [str (v * 1000)]))
        else Ok (Fall i)
    | None => Ok (Fall i)
    end
  else Ok (Fall i).

(** Lines 224-246: the single-word conversions. *)
Definition single_word (w : string) : string :=
  match lookup wolof_basic w with
  | Some v => str v
  | None =>
  match lookup wolof_ten w with
  | Some v => str v
  | None =>
  match lookup wolof_hundred w with
  | Some v => str v
  | None =>
  match lookup wolof_thousand w with
  | Some v => str v
  | None =>
  match lookup wolof_special w with
  | Some v => str v
  | None =>
  match lookup french_ones w with
  | Some v => str v
  | None =>
  match lookup french_tens w with
  | Some v => str v
  | None =>
  match lookup french_multipliers w with
  | Some v => str v
  | None =>
      if String.eqb w "dërëm" then "dërëm"
      else if mem w connectors then w
      else w
  end end end end end end end end.

(** Run the rest of the body unless the block said [continue]. *)
Definition or_fall (f : res flow) (k : nat -> res (nat * list string))
  : res (nat * list string) :=
  x <- f ;;
  match x with
  | Continue i result => Ok (i, result)
  | Fall i => k i
  end.

(** One pass of the body of [while i < len(words)] (lines 118-248): the
    new [i] and [result].  The flag [matched] of the source is false
    whenever line 221 reads it, so it has no counterpart here. *)
Definition convert_step (words : list string) (i : nat)
           (result : list string) : res (nat * list string) :=
  or_fall (hyphenated words i result) (fun i =>
  w <- index words i ;;
  if isdigit w then Ok ((i + 1)%nat, (result ++ [w])%list) else
  or_fall (juroom_unit words i result) (fun i =>
  or_fall (unit_times "fukk" 10 words i result) (fun i =>
  or_fall (unit_times "téeméer" 100 words i result) (fun i =>
  or_fall (unit_junni words i result) (fun i =>
  w <- index words i ;;
  Ok ((i + 1)%nat, (result ++ [single_word w])%list)))))).

Fixpoint convert_loop (fuel : nat) (words : list string) (i : nat)
         (result : list string) : res (list string) :=
  if (i <? length words)%nat then
    match fuel with
    | O => OutOfFuel
    | S fuel' =>
        '(i', result') <- convert_step words i result ;;
        convert_loop fuel' words i' result'
    end
  else Ok result.

(** The token list handed to [calculate_from_parts] (lines 113-248). *)
Definition convert_words (text : string) : res (list string) :=
  let words := split (lower text) in
  convert_loop (length words) words 0 [].

(** *** [calculate_from_parts] *)

(** [l.index(x)] and [l.remove(x)]; both raise [ValueError] when [x] is
    not in the list. *)
Fixpoint index_of (x : string) (l : list string) : res nat :=
  match l with
  | [] => Raise ValueError
  | y :: l' => if String.eqb y x then Ok O
               else (n <- index_of x l' ;; Ok (S n))
  end.

Fixpoint remove (x : string) (l : list string) : res (list string) :=
  match l with
  | [] => Raise ValueError
  | y :: l' => if String.eqb y x then Ok l'
               else (r <- remove x l' ;; Ok (y :: r))
  end.

(** One pass of the body of [while "ak" in parts] (lines 257-267). *)
Definition ak_step (parts : list string) : res (list string) :=
  idx <- index_of "ak" parts ;;
  if ((0 <? idx) && (idx + 1 <? length parts))%nat then
    left <- index parts (idx - 1) ;;
    right <- index parts (idx + 1) ;;
    if isdigit left && isdigit right then
      a <- int left ;;
      b <- int right ;;
      let sum_val := a + b in
      Ok (lslice 0 (idx - 1) parts ++ [str sum_val]
            ++ skipn (idx + 2) parts)%list
    else remove "ak" parts
  else remove "ak" parts.

Fixpoint ak_loop (fuel : nat) (parts : list string) : res (list string) :=
  if mem "ak" parts then
    match fuel with
    | O => OutOfFuel
    | S fuel' => parts' <- ak_step parts ;; ak_loop fuel' parts'
    end
  else Ok parts.

(** [numbers[-1] = numbers[-1] * 5]. *)
Definition times5_last (numbers : list Z) : res (list Z) :=
  match rev numbers with
  | n :: front => Ok (rev front ++ [n * 5])%list
  | [] => Raise IndexError
  end.

(** The body of [for part in parts] (lines 273-280) on the pair
    [(numbers, other_words)]. *)
Definition classify (acc : list Z * list string) (part : string)
  : res (list Z * list string) :=
  let '(numbers, other_words) := acc in
  if isdigit part then
    n <- int part ;; Ok ((numbers ++ [n])%list, other_words)
  else if String.eqb part "dërëm" && negb (length numbers =? 0)%nat then
    numbers' <- times5_last numbers ;; Ok (numbers', other_words)
  else Ok (numbers, (other_words ++ [part])%list).

Fixpoint classify_all (acc : list Z * list string) (parts : list string)
  : res (list Z * list string) :=
  match parts with
  | [] => Ok acc
  | part :: parts' => acc' <- classify acc part ;; classify_all acc' parts'
  end.

(** One pass of the body of [while i < len(numbers)] (lines 289-304). *)
Definition combine_step (numbers : list Z) (i : nat)
           (result_numbers : list Z) : res (nat * list Z) :=
  current <- index numbers i ;;
  let plain := Ok ((i + 1)%nat, (result_numbers ++ [current])%list) in
  if (i + 1 <? length numbers)%nat then
    next_num <- index numbers (i + 1) ;;
    if (100 <=? next_num) && (current <? next_num)
    then Ok ((i + 2)%nat, (result_numbers ++ [current * next_num])%list)
    else plain
  else plain.

Fixpoint combine_loop (fuel : nat) (numbers : list Z) (i : nat)
         (result_numbers : list Z) : res (list Z) :=
  if (i <? length numbers)%nat then
    match fuel with
    | O => OutOfFuel
    | S fuel' =>
        '(i', result_numbers') <- combine_step numbers i result_numbers ;;
        combine_loop fuel' numbers i' result_numbers'
    end
  else Ok result_numbers.

Definition calculate_from_parts (parts : list string) : res string :=
  parts <- ak_loop (length parts) parts ;;
  '(numbers, other_words) <- classify_all ([], []) parts ;;
  if (length numbers =? 0)%nat then Ok (join " " parts) else
  result_numbers <- combine_loop (length numbers) numbers 0 [] ;;
  let total := sum result_numbers in
  if negb (length other_words =? 0)%nat
  then Ok (str total ++ " " ++ join " " other_words)
  else Ok (str total).

Definition convert_to_number (text : string) : res string :=
  result <- convert_words text ;;
  calculate_from_parts result.

(** *** [normalize_codes] *)

Import Re.

Definition code_words : regex :=
  Alts [Lit "dièse"; Lit "diese"; Lit "hash"; Lit "étoile"; Lit "star"].

(** [\b{word}\s+(?=(dièse|diese|hash|étoile|star))] *)
Definition service_pattern (word : string) : regex :=
  Seq [Bnd; Lit word; Plus ASpace; Ahead (Grp 1 code_words)].

Definition hash_words : regex := Alts [Lit "dièse"; Lit "diese"; Lit "hash"].
Definition star_words : regex := Alts [Lit "étoile"; Lit "star"].

(** [\b(M)\s+(.*?)\s+(M)\b] for a marker alternation [M]. *)
Definition code_pattern (markers : regex) : regex :=
  Seq [Bnd; Grp 1 markers; Plus ASpace; Grp 2 (Many false ADot);
       Plus ASpace; Grp 3 markers; Bnd].

Definition patterns_codes : list (regex * string) :=
  [(code_pattern hash_words, "#"); (code_pattern star_words, "*")].

Definition replace_code (symbol : string) (group : nat -> string)
  : res string :=
  let content := group 2%nat in
  normalized <- convert_to_number content ;;
  Ok (symbol ++ normalized ++ symbol).

(** [for x in l: text = f(x, text)]. *)
Fixpoint for_each {A : Type} (l : list A) (f : A -> string -> res string)
         (text : string) : res string :=
  match l with
  | [] => Ok text
  | x :: l' => text' <- f x text ;; for_each l' f text'
  end.

(** Lines 91-92.  [order] is the order in which the loop meets the
    elements of the set [service_words]. *)
Definition strip_service_words (order : list string) (text : string)
  : res string :=
  for_each order
    (fun word text =>
       sub true (service_pattern word) (fun _ => Ok EmptyString) text)
    text.

(** Lines 95-107. *)
Definition rewrite_codes (text : string) : res string :=
  for_each patterns_codes
    (fun '(pattern, symbol) text =>
       sub true pattern (replace_code symbol) text)
    text.

Definition normalize_codes (order : list string) (text : string)
  : res string :=
  text <- strip_service_words order text ;;
  rewrite_codes text.

(** *** [normalize_phone_numbers] *)

(** What the body of the inner [while] does with one word (lines
    328-347): a part is appended, the word is skipped, or the run ends. *)
Inductive phone_word := Part (p : string) | Skip | Stop.

Definition phone_part (word : string) : phone_word :=
  if isdigit word then Part word else
  match lookup french_ones word with
  | Some v => Part (str v)
  | None =>
  match lookup french_tens word with
  | Some v => Part (str v)
  | None =>
      if String.eqb word "cent" then Skip
      else if mem word ["et"; "-"] then Skip
      else Stop
  end end.

(** The inner loop, [while j < len(words) and len(phone_parts) < 12]:
    the final [j] and [phone_parts]. *)
Fixpoint collect (fuel : nat) (words : list string) (j : nat)
         (phone_parts : list string) : res (nat * list string) :=
  if ((j <? length words) && (length phone_parts <? 12))%nat then
    match fuel with
    | O => OutOfFuel
    | S fuel' =>
        word <- index words j ;;
        match phone_part word with
        | Part p => collect fuel' words (j + 1) (phone_parts ++ [p])
        | Skip => collect fuel' words (j + 1) phone_parts
        | Stop => Ok (j, phone_parts)
        end
    end
  else Ok (j, phone_parts).

(** [len(part) == 1 or (len(part) == 2 and part[0] in "789")]; with two
    characters [part[0]] is the slice [part[0:1]]. *)
Definition phone_digit (part : string) : bool :=
  (String.length part =? 1)%nat
  || (String.length part =? 2)%nat && contains (slice 0 1 part) "789".

(** [for part in phone_parts: ... else: break] (lines 353-358): the
    parts before the first one that is not a phone digit. *)
Fixpoint phone_digits (phone_parts : list string) : list string :=
  match phone_parts with
  | [] => []
  | part :: rest => if phone_digit part then part :: phone_digits rest
                    else []
  end.

Definition format_phone (digit_str : string) : string :=
  if (String.length digit_str =? 9)%nat then
    slice 0 2 digit_str ++ " " ++ slice 2 5 digit_str ++ " "
      ++ slice 5 7 digit_str ++ " " ++ slice 7 9 digit_str
  else
    slice 0 2 digit_str ++ " " ++ slice 2 5 digit_str ++ " "
      ++ slice 5 8 digit_str.

(** One pass of the body of the outer [while] (lines 322-374). *)
Definition phone_step (words : list string) (i : nat)
           (result : list string) : res (nat * list string) :=
  '(j, phone_parts) <- collect (length words - i) words i [] ;;
  let unchanged :=
    w <- index words i ;; Ok ((i + 1)%nat, (result ++ [w])%list) in
  if (6 <=? length phone_parts)%nat then
    let digits := phone_digits phone_parts in
    let digit_str := join EmptyString digits in
    if existsb (Nat.eqb (String.length digit_str)) [8; 9]%nat then
      Ok (j, (result ++ [format_phone digit_str])%list)
    else unchanged
  else unchanged.

Fixpoint phone_loop (fuel : nat) (words : list string) (i : nat)
         (result : list string) : res (list string) :=
  if (i <? length words)%nat then
    match fuel with
    | O => OutOfFuel
    | S fuel' =>
        '(i', result') <- phone_step words i result ;;
        phone_loop fuel' words i' result'
    end
  else Ok result.

Definition normalize_phone_numbers (text : string) : res string :=
  let words := split text in
  result <- phone_loop (length words) words 0 [] ;;
  Ok (join " " result).

(** *** [_format_with_spaces] *)

(** [range(start, stop, step)] for a positive [step]. *)
Fixpoint range_from (fuel start stop step : nat) : list nat :=
  match fuel with
  | O => []
  | S fuel' =>
      if (start <? stop)%nat
      then start :: range_from fuel' (start + step) stop step
      else []
  end.

Definition range (start stop step : nat) : list nat :=
  range_from stop start stop step.

Definition _format_with_spaces (number_str : string) : string :=
  if (String.length number_str <=? 3)%nat then number_str else
  let reversed_str := reversed number_str in
  let spaced :=
    join " " (map (fun i => slice i (i + 3) reversed_str)
                  (range 0 (String.length reversed_str) 3)) in
  reversed spaced.

(** *** Amounts (lines 418-439 of [normalize_currency], and again lines
    500-520 of [__call__]) *)

(** The amount text to a number, with the [dërëm] rule. *)
Definition convert_amount (amount : string) : res string :=
  if contains "dërëm" amount then
    let words := split amount in
    l <- last_item words ;;
    if String.eqb l "dërëm" && (1 <? length words)%nat then
      let num_part := join " " (lslice 0 (length words - 1) words) in
      base_num <- convert_to_number num_part ;;
      if isdigit base_num then
        n <- int base_num ;; Ok (str (n * 5))
      else Ok amount
    else convert_to_number amount
  else convert_to_number amount.

(** The amount with its currency, grouped by three from four digits on. *)
Definition format_amount (normalized currency : string) : string :=
  if isdigit normalized && (4 <=? String.length normalized)%nat then
    let formatted := _format_with_spaces normalized in
    formatted ++ " " ++ currency
  else normalized ++ " " ++ currency.

(** *** [normalize_data] *)

Definition optional_s (stem : string) : regex :=
  Cat (Lit stem) (Opt (One (AChar "s"))).

(** [\b(.*?)\s+(go|mo|giga|mega|gigaoctets?|megaoctets?)\b] *)
Definition data_pattern : regex :=
  Seq [Bnd; Grp 1 (Many false ADot); Plus ASpace;
       Grp 2 (Alts [Lit "go"; Lit "mo"; Lit "giga"; Lit "mega";
                    optional_s "gigaoctet"; optional_s "megaoctet"]);
       Bnd].

Definition replace_data (group : nat -> string) : res string :=
  let quantity := strip (group 1%nat) in
  let unit := lower (group 2%nat) in
  normalized_qty <- convert_to_number quantity ;;
  let unit :=
    if mem unit ["go"; "giga"; "gigaoctets"; "gigaoctet"] then "Go"
    else if mem unit ["mo"; "mega"; "megaoctets"; "megaoctet"] then "Mo"
    else unit in
  Ok (normalized_qty ++ unit).

(** [(\d+)(Go|Mo)\s*/\s*mois] and [(\d+)(Go|Mo)\s+par\s+mois] *)
Definition slash_month_pattern : regex :=
  Seq [Grp 1 (Plus ADigit); Grp 2 (Alt (Lit "Go") (Lit "Mo"));
       Many true ASpace; One (AChar "/"); Many true ASpace; Lit "mois"].

Definition par_month_pattern : regex :=
  Seq [Grp 1 (Plus ADigit); Grp 2 (Alt (Lit "Go") (Lit "Mo"));
       Plus ASpace; Lit "par"; Plus ASpace; Lit "mois"].

(** The template [\1\2/mois]. *)
Definition per_month (group : nat -> string) : res string :=
  Ok (group 1%nat ++ group 2%nat ++ "/mois").

Definition normalize_data (text : string) : res string :=
  text <- sub true data_pattern replace_data text ;;
  text <- sub false slash_month_pattern per_month text ;;
  sub false par_month_pattern per_month text.

(** *** [normalize_currency] *)

(** [\b(.*?)\s+(francs?\s+cfa|fcfa)\b], [\b(.*?)\s+francs?\b] and
    [\b(.*?)\s+f\b] *)
Definition patterns_currency : list (regex * string) :=
  [(Seq [Bnd; Grp 1 (Many false ADot); Plus ASpace;
         Grp 2 (Alt (Seq [optional_s "franc"; Plus ASpace; Lit "cfa"])
                    (Lit "fcfa"));
         Bnd], "FCFA");
   (Seq [Bnd; Grp 1 (Many false ADot); Plus ASpace; optional_s "franc";
         Bnd], "F");
   (Seq [Bnd; Grp 1 (Many false ADot); Plus ASpace; Lit "f"; Bnd], "F")].

Definition replace_currency (currency : string) (group : nat -> string)
  : res string :=
  let amount := strip (group 1%nat) in
  normalized <- convert_amount amount ;;
  Ok (format_amount normalized currency).

Definition normalize_currency (text : string) : res string :=
  for_each patterns_currency
    (fun '(pattern, currency) text =>
       sub true pattern (replace_currency currency) text)
    text.

(** *** [__call__]: the pipeline *)

(** [for j in range(i + 1, min(i + 6, len(words)))] (lines 481-493), over
    the values [js] that [j] still has to take: the index and the type of
    the first currency marker. *)
Fixpoint find_currency (words : list string) (js : list nat)
  : res (option (nat * string)) :=
  match js with
  | [] => Ok None
  | j :: js' =>
      wj <- index words j ;;
      if mem (lower wj) ["francs"; "franc"; "f"] then Ok (Some (j, "F"))
      else
        cfa <- (if mem (lower wj) ["fcfa"] then Ok true else
                and_then ((j + 1 <? length words)%nat
                          && String.eqb (lower wj) "francs")
                         (wj1 <- index words (j + 1) ;;
                          Ok (String.eqb (lower wj1) "cfa"))) ;;
        if cfa then
          let currency_idx :=
            if String.eqb (lower wj) "francs" then (j + 1)%nat else j in
          Ok (Some (currency_idx, "FCFA"))
        else find_currency words js'
  end.

(** One pass of the body of [while i < len(words)] (lines 473-530). *)
Definition currency_step (words : list string) (i : nat)
           (result : list string) : res (nat * list string) :=
  let plain :=
    w <- index words i ;; Ok ((i + 1)%nat, (result ++ [w])%list) in
  if (i + 1 <? length words)%nat then
    let stop := Nat.min (i + 6) (length words) in
    found <- find_currency words (seq (i + 1) (stop - (i + 1))) ;;
    match found with
    | Some (currency_idx, currency_type) =>
        let amount_text := join " " (lslice i currency_idx words) in
        normalized <- convert_amount amount_text ;;
        let result :=
          (result ++ [format_amount normalized currency_type])%list in
        let i := (currency_idx + 1)%nat in
        skip_cfa <- and_then (String.eqb currency_type "FCFA"
                              && (currency_idx <? length words)%nat)
                      (w <- index words (currency_idx - 1) ;;
                       Ok (String.eqb (lower w) "francs")) ;;
        let i := if skip_cfa then (currency_idx + 1)%nat else i in
        Ok (i, result)
    | None => plain
    end
  else plain.

Fixpoint currency_loop (fuel : nat) (words : list string) (i : nat)
         (result : list string) : res (list string) :=
  if (i <? length words)%nat then
    match fuel with
    | O => OutOfFuel
    | S fuel' =>
        '(i', result') <- currency_step words i result ;;
        currency_loop fuel' words i' result'
    end
  else Ok result.

(** [\s+] *)
Definition spaces_pattern : regex := Plus ASpace.

(** Steps 2 to 5 (lines 460-537), after [normalize_codes]. *)
Definition after_codes (text : string) : res string :=
  text <- normalize_phone_numbers text ;;
  text <- normalize_data text ;;
  let words := split text in
  result <- currency_loop (length words) words 0 [] ;;
  let text := join " " result in
  text <- sub false spaces_pattern (fun _ => Ok " ") text ;;
  Ok (strip text).

Definition __call__ (order : list string) (text : string) : res string :=
  text <- normalize_codes order text ;;
  after_codes text.

(** The spec's name for the pipeline. *)
Definition normalize := __call__.

End SenegalVoiceNormalizer.

(** * Vocabulary of the statements

    Predicates and small functions the theorems are stated with. None of
    them is part of the normalizer. *)

Import Py Re SenegalVoiceNormalizer.

(** ** Service words *)

(** One pass of the loop of [strip_service_words]. *)
Definition strip_one (word text : string) : res string :=
  sub true (service_pattern word) (fun _ => Ok EmptyString) text.

(** The computation returns [t]. *)
Definition returns (r : res string) (t : string) : bool :=
  match r with
  | Ok t' => String.eqb t' t
  | _ => false
  end.

(** No service word finds a match in [t]. *)
Definition stable (t : string) : bool :=
  forallb (fun w => returns (strip_one w t) t) service_words.


(** ** The scan and the combiner *)

(** The last value emitted is ["20"] ([result[-1] == "20"]). *)
Definition last_is_20 (result : list string) : bool :=
  String.eqb (last result EmptyString) "20".

(** The superscript digits ², ³ and ¹: what [isdigit] accepts and [int]
    does not. *)
Definition superscript (c : ascii) : bool :=
  isdigit_c c && negb (isdecimal_c c).

(** The string holds no superscript digit. *)
Definition plain (s : string) : bool :=
  all_c (fun c => negb (superscript c)) s.

Definition all_plain (l : list string) : Prop :=
  Forall (fun t => plain t = true) l.

(** The computation returns a plain text. *)
Definition fine (r : res string) : Prop :=
  exists out, r = Ok out /\ plain out = true.

(** A token [int] can read whenever [isdigit] lets it through. *)
Definition good (t : string) : Prop :=
  isdigit t = true -> isdecimal t = true.


(** What a block of the scan does at [i] with the [result] so far: it
    stays within the words, and when it says [continue] it has moved on
    and emitted one token, a word of the input or a plain one. *)
Definition well_done (words result : list string) (i : nat) (f : flow)
  : Prop :=
  match f with
  | Continue i' result' =>
      (i < i' <= length words)%nat
      /\ exists t, result' = (result ++ [t])%list
                   /\ (In t words \/ plain t = true)
  | Fall i' => (i <= i' < length words)%nat
  end.

(** What one pass of the scan gives: it has moved on from [i0] within the
    words and emitted one token. *)
Definition one_more (words result : list string) (i0 : nat)
           (out : res (nat * list string)) : Prop :=
  exists i' t,
    out = Ok (i', (result ++ [t])%list)
    /\ (In t words \/ plain t = true)
    /\ (i0 < i' <= length words)%nat.

(** ** Phone numbers and grouping *)

(** A run of [phone_parts] qualifies: the two tests of lines 350 and 362
    of [normalize_phone_numbers]. *)
Definition qualifies (phone_parts : list string) : bool :=
  (6 <=? length phone_parts)%nat
  && existsb
       (Nat.eqb (String.length (join EmptyString (phone_digits phone_parts))))
       [8; 9]%nat.




(** [s.replace(c, "")] for a character [c]. *)
Fixpoint delete_char (c : ascii) (s : string) : string :=
  match s with
  | EmptyString => EmptyString
  | String x s' => if Ascii.eqb x c then delete_char c s'
                   else String x (delete_char c s')
  end.

(** The groups of three a string is cut into, from its left end. *)
Fixpoint groups3 (r : string) : list string :=
  match r with
  | String a (String b (String c r')) =>
      String a (String b (String c EmptyString)) :: groups3 r'
  | EmptyString => []
  | _ => [r]
  end.

(** The string holds no space. *)
Definition no_space (s : string) : bool :=
  all_c (fun c => negb (Ascii.eqb c " ")) s.

(** ** Patterns *)




(** No character of [s] satisfies [p]. *)
Definition free (p : ascii -> bool) (s : string) : bool :=
  all_c (fun c => negb (p c)) s.


(** A text without whitespace: at most one token for [str.split]. *)
Definition token (x : string) : bool := free isspace_c x.

(** The cursor [c] with the groups [g]. *)
Definition with_groups (c : cursor) (g : list (nat * (nat * nat))) : cursor :=
  Cursor (before c) (pos c) (rest c) g.

(** [matches icase r c c']: the pattern [r] takes the cursor [c] to [c'].
    It is the declarative reading of [Re.run]: every cursor [run] hands to
    its continuation is reached by such a step ([run_sound] below). *)
Inductive matches (icase : bool) : regex -> cursor -> cursor -> Prop :=
| M_eps c : matches icase Eps c c
| M_one a x s' c :
    rest c = String x s' -> accepts icase a x = true ->
    matches icase (One a) c (advance x s' c)
| M_many_stop greedy a c : matches icase (Many greedy a) c c
| M_many_step greedy a x s' c c' :
    rest c = String x s' -> accepts icase a x = true ->
    matches icase (Many greedy a) (advance x s' c) c' ->
    matches icase (Many greedy a) c c'
| M_bnd c : at_boundary c = true -> matches icase Bnd c c
| M_cat r1 r2 c1 c2 c3 :
    matches icase r1 c1 c2 -> matches icase r2 c2 c3 ->
    matches icase (Cat r1 r2) c1 c3
| M_alt_l r1 r2 c c' : matches icase r1 c c' -> matches icase (Alt r1 r2) c c'
| M_alt_r r1 r2 c c' : matches icase r2 c c' -> matches icase (Alt r1 r2) c c'
| M_grp n r c c' :
    matches icase r c c' ->
    matches icase (Grp n r) c
            (with_groups c' ((n, (pos c, pos c')) :: groups c'))
| M_ahead r c c' :
    matches icase r c c' ->
    matches icase (Ahead r) c (with_groups c (groups c')).

(** [c'] has the groups of [c]. *)
Definition same_groups (c c' : cursor) : Prop := groups c' = groups c.

(** [c] reaches [c'] by reading [m]. *)
Definition reads (c c' : cursor) (m : string) : Prop :=
  rest c = m ++ rest c' /\ pos c' = (pos c + String.length m)%nat.

(** One of the words [ws], in any case. *)
Definition is_word_of (ws : list string) (m : string) : bool :=
  mem (lower m) (map lower ws).


(** The words of the lookahead of a service pattern. *)
Definition marker_words : list string :=
  ["dièse"; "diese"; "hash"; "étoile"; "star"].

(** ** The rest of the behaviour

    What the theorems of the last part are stated with. *)

(** [re.sub(r'\s+', ' ', s)] read as a scan: each run of whitespace
    becomes one space.  [in_run] says that the character before was
    whitespace. *)
Fixpoint squeeze_from (in_run : bool) (s : string) : string :=
  match s with
  | EmptyString => EmptyString
  | String c s' =>
      if isspace_c c
      then (if in_run then squeeze_from true s'
            else String " " (squeeze_from true s'))
      else String c (squeeze_from false s')
  end.

Definition squeeze (s : string) : string := squeeze_from false s.

(** A word as [str.split] gives them: not empty, no whitespace. *)
Definition nonblank (w : string) : bool := nonempty w && token w.

(** The continuation of [match_at]: after an empty match the next one must
    move on from [p0]. *)
Definition accept (must_advance : bool) (p0 : nat) (e : cursor)
  : option cursor :=
  if must_advance && Nat.eqb (pos e) p0 then None else Some e.

(** The text begins with a character that is not whitespace, or is
    empty. *)
Definition starts_word (s : string) : bool :=
  match s with
  | String c _ => negb (isspace_c c)
  | EmptyString => true
  end.

(** The tables the single-word conversion consults, in its order. *)
Definition lexicon : list (string * Z) :=
  (wolof_basic ++ wolof_ten ++ wolof_hundred ++ wolof_thousand
   ++ wolof_special ++ french_ones ++ french_tens ++ french_multipliers)%list.

(** A word the scan has no rule for: no hyphen, not a digit string, in no
    table, and not the connector [ak]. *)
Definition inert (w : string) : bool :=
  negb (contains "-" w) && negb (isdigit w)
  && negb (mem w (map fst lexicon)) && negb (String.eqb w "ak").

(** The currency a word stands for in the word scan of [__call__]. *)
Definition marker_of (w : string) : option string :=
  if mem (lower w) ["francs"; "franc"; "f"] then Some "F"
  else if mem (lower w) ["fcfa"] then Some "FCFA"
  else None.

(** The first of the positions [js] that holds a currency word. *)
Fixpoint first_marker (words : list string) (js : list nat)
  : option (nat * string) :=
  match js with
  | [] => None
  | j :: js' =>
      match marker_of (nth j words EmptyString) with
      | Some currency_type => Some (j, currency_type)
      | None => first_marker words js'
      end
  end.

(** The positions the scan looks at from [i]: the next five words. *)
Definition window (words : list string) (i : nat) : list nat :=
  seq (i + 1) (Nat.min (i + 6) (length words) - (i + 1)).

(** The word gives a part of a phone number: a digit string or a French
    numeral below a hundred. *)
Definition is_part (word : string) : bool :=
  match phone_part word with
  | Part _ => true
  | _ => false
  end.

(** The number a part stands for in the combiner: a digit string is read
    by [int], any other part counts for nothing. *)
Definition value (t : string) : Z :=
  if isdigit t then int_from 0 t else 0%Z.

(** The sum of the numbers among the parts. *)
Definition total (parts : list string) : Z := sum (map value parts).


(** The loop of lines 289-304 read as a recursion on the numbers: a number
    followed by a greater one that is at least 100 is multiplied by it. *)
Fixpoint combined (numbers : list Z) : list Z :=
  match numbers with
  | current :: ((next_num :: rest) as tail) =>
      if ((100 <=? next_num) && (current <? next_num))%Z
      then (current * next_num)%Z :: combined rest
      else current :: combined tail
  | _ => numbers
  end.

(** The unit words, in lower case: what group 2 of the data pattern can
    read, and the two families [replace_data] tells apart. *)
Definition giga_words : list string :=
  ["go"; "giga"; "gigaoctets"; "gigaoctet"].

Definition mega_words : list string :=
  ["mo"; "mega"; "megaoctets"; "megaoctet"].

Definition unit_words : list string := (giga_words ++ mega_words)%list.

(** The markers the patterns of [normalize_currency] read, in lower case
    and with their whitespace squeezed, each with the currency of its
    pattern. *)
Definition currency_table : list (string * string) :=
  [("francs cfa", "FCFA"); ("franc cfa", "FCFA"); ("fcfa", "FCFA");
   ("francs", "F"); ("franc", "F"); ("f", "F")].

(** The character before the position reached by reading [m] from a
    position that has [b] before it. *)
Definition last_char (m : string) (b : option ascii) : option ascii :=
  match reversed m with
  | String y _ => Some y
  | EmptyString => b
  end.

(** A marker word of [normalize_codes] occurs in the text, in any case. *)
Definition has_marker (text : string) : bool :=
  existsb (fun mk => contains mk (lower text)) marker_words.

(** The word begins with a unit word, in any case, that ends at a word
    boundary: what group 2 of the data pattern can read in it. *)
Definition unit_word (w : string) : bool :=
  existsb
    (fun u =>
       String.prefix u (lower w)
       && negb (is_word
                  (next_char (slice (String.length u) (String.length w) w))))
    unit_words.

(** A decimal digit directly followed by [u] occurs in the text. *)
Fixpoint digit_then (u s : string) : bool :=
  match s with
  | EmptyString => false
  | String c s' => isdecimal_c c && String.prefix u s' || digit_then u s'
  end.

(** A word one of the later stages reacts to: it begins with a unit
    word, holds a digit directly followed by Go or Mo, or is a currency
    word. *)
Definition trigger (w : string) : bool :=
  unit_word w
  || digit_then "Go" w || digit_then "Mo" w
  || match marker_of w with Some _ => true | None => false end.

(** What a part of a hyphenated word counts for (lines 140-145): its value
    in [french_ones], else in [french_tens], else nothing. *)
Definition part_value (part : string) : Z :=
  match lookup french_ones part with
  | Some v => v
  | None =>
      match lookup french_tens part with
      | Some v => v
      | None => 0%Z
      end
  end.

(** What stands between the unit and [mois] in a per-month pattern:
    [\s*/\s*] for the first, [\s+par\s+] for the second. *)
Definition month_link (link : string) (must_space : bool) (sep : string)
  : Prop :=
  exists s1 s2,
    sep = s1 ++ link ++ s2
    /\ all_c isspace_c s1 = true /\ all_c isspace_c s2 = true
    /\ (must_space = true -> s1 <> EmptyString /\ s2 <> EmptyString).

(** The per-month patterns, each with its link word and whether the link
    needs whitespace around it. *)
Definition month_patterns : list (regex * (string * bool)) :=
  [(slash_month_pattern, ("/", false)); (par_month_pattern, ("par", true))].

(** * Properties *)

Open Scope Z_scope.

(** ** The iteration order of [service_words]

    Whatever the order, a text on which at most one service word finds a
    match is stripped the same way. *)

Lemma returns_true r t : returns r t = true -> r = Ok t.
Proof.
  destruct r as [t'| |]; simpl; try discriminate.
  intros H. apply String.eqb_eq in H. now subst.
Qed.

Lemma for_each_fixed {A : Type} (l : list A) f t :
  (forall x, In x l -> f x t = Ok t) -> for_each l f t = Ok t.
Proof.
  induction l as [|x l IH]; simpl; intros H; [reflexivity|].
  rewrite (H x) by now left. simpl. apply IH. intros y Hy. apply H. now right.
Qed.


Section AnyOrder.

Variable order : list string.
Hypothesis order_ok : Permutation order service_words.

Lemma stable_strip t :
  stable t = true -> strip_service_words order t = Ok t.
Proof.
  unfold stable. rewrite forallb_forall. intros H.
  apply for_each_fixed. intros w Hw. apply returns_true, H.
  eapply Permutation_in; eassumption.
Qed.


(** [normalize] on a text that no service word touches. *)
Lemma normalize_stable t :
  stable t = true ->
  normalize order t = (t' <- rewrite_codes t ;; after_codes t').
Proof.
  intros H. unfold normalize, __call__, normalize_codes.
  now rewrite (stable_strip t H).
Qed.


End AnyOrder.

(** ** The scanner and the combiner on the sample phrases *)

(** C1. On the complex Wolof composition the code returns "1154", not
    "1945" (1000 + 900 + 40 + 5): the scan emits 1000 ak 9 100 ak 40 ak 5, the
    leftmost [ak] adds 1000 and 9 before 9 can multiply 100, the next two
    give 100 + 40 + 5, and 1009 followed by the smaller 145 is summed. *)
Theorem convert_complex_composition :
  convert_words "junni ak juróom ñenti téeméer ak ñent fukk ak juróom"
  = Ok ["1000"; "ak"; "9"; "100"; "ak"; "40"; "ak"; "5"]
  /\ ak_loop 8 ["1000"; "ak"; "9"; "100"; "ak"; "40"; "ak"; "5"]
     = Ok ["1009"; "145"]
  /\ convert_to_number
       "junni ak juróom ñenti téeméer ak ñent fukk ak juróom"
     = Ok "1154".
Proof. repeat split; vm_compute; reflexivity. Qed.

(** C3. [dërëm] after a numeral multiplies the last number read by 5 and
    leaves the output; with no number read it stays a word.  So
    "ñaar fukk dërëm" gives "100", but "téeméeri dërëm" comes back
    unconverted: no table has the word "téeméeri". *)
Theorem derem_multiplies_last_number :
  (forall numbers n other_words,
      classify ((numbers ++ [n])%list, other_words) "dërëm"
      = Ok ((numbers ++ [n * 5])%list, other_words))
  /\ (forall other_words,
      classify ([], other_words) "dërëm"
      = Ok ([], (other_words ++ ["dërëm"])%list))
  /\ convert_to_number "ñaar fukk dërëm" = Ok "100"
  /\ single_word "téeméeri" = "téeméeri"
  /\ convert_to_number "téeméeri dërëm" = Ok "téeméeri dërëm".
Proof.
  split; [|split; [|repeat split; vm_compute; reflexivity]].
  - intros numbers n other_words. unfold classify.
    change (isdigit "dërëm") with false. cbv iota.
    change (String.eqb "dërëm" "dërëm") with true.
    rewrite length_app. simpl length.
    replace (length numbers + 1 =? 0)%nat with false
      by (symmetry; apply Nat.eqb_neq; lia).
    simpl. unfold times5_last. rewrite rev_app_distr. simpl.
    now rewrite rev_involutive.
  - intros other_words. reflexivity.
Qed.

(** ** Digit strings *)

(** [str] of a natural number is a string of decimal digits, the kind
    [int] reads back. *)
Lemma string_of_uint_decimal d :
  all_c isdecimal_c (NilEmpty.string_of_uint d) = true.
Proof. induction d; simpl; auto. Qed.

Lemma str_decimal n : 0 <= n -> isdecimal (str n) = true.
Proof.
  intros Hn. unfold str, isdecimal.
  destruct n as [|p|p]; [reflexivity| |lia].
  simpl. unfold NilZero.string_of_uint.
  pose proof (string_of_uint_decimal (Pos.to_uint p)) as H.
  destruct (Pos.to_uint p); try reflexivity; simpl in *; exact H.
Qed.

Lemma int_from_nonneg s acc : 0 <= acc -> 0 <= int_from acc s.
Proof.
  revert acc. induction s as [|c s IH]; cbn [int_from]; intros acc H;
    [assumption|].
  apply IH. unfold digit_value.
  pose proof (N2Z.is_nonneg (code c - 48)). lia.
Qed.

Lemma int_decimal s :
  isdecimal s = true -> exists n, int s = Ok n /\ 0 <= n.
Proof.
  intros H. exists (int_from 0 s). unfold int. rewrite H.
  split; [reflexivity|apply int_from_nonneg; lia].
Qed.

Lemma all_c_impl (p q : ascii -> bool) s :
  (forall c, p c = true -> q c = true) ->
  all_c p s = true -> all_c q s = true.
Proof.
  intros Hpq. induction s as [|c s IH]; simpl; [trivial|].
  intros H. apply andb_true_iff in H as [Hc Hs].
  now rewrite (Hpq c Hc), IH.
Qed.

(** A decimal string is plain, so [str] of a number is; a plain digit
    string is decimal, so [int] reads it. *)
Lemma decimal_plain s : all_c isdecimal_c s = true -> plain s = true.
Proof.
  apply all_c_impl. intros c H. unfold superscript. rewrite H.
  now rewrite andb_false_r.
Qed.

Lemma str_plain n : plain (str n) = true.
Proof.
  assert (H : forall d, plain (NilZero.string_of_uint d) = true).
  { intros d. apply decimal_plain. unfold NilZero.string_of_uint.
    pose proof (string_of_uint_decimal d) as H.
    destruct d; try reflexivity; exact H. }
  unfold str. destruct n as [|p|p]; [reflexivity|apply H|].
  simpl. unfold plain. simpl. apply H.
Qed.

Lemma plain_decimal w :
  plain w = true -> all_c isdigit_c w = true -> all_c isdecimal_c w = true.
Proof.
  unfold plain. induction w as [|c w IH]; simpl; [trivial|].
  intros Hf Hd.
  apply andb_true_iff in Hf as [Hc Hf].
  apply andb_true_iff in Hd as [Hdc Hd].
  rewrite (IH Hf Hd), andb_true_r.
  unfold superscript in Hc. rewrite Hdc in Hc.
  now destruct (isdecimal_c c).
Qed.

Lemma plain_good w : plain w = true -> good w.
Proof.
  unfold good, isdigit, isdecimal. intros Hf Hd.
  apply andb_true_iff in Hd as [Hn Hd].
  now rewrite Hn, (plain_decimal w Hf Hd).
Qed.

(** ** The scan: [X junni] *)

Lemma lookup_In {V} (d : list (string * V)) k v :
  lookup d k = Some v -> In (k, v) d.
Proof.
  induction d as [|[k' v'] d IH]; simpl; [discriminate|].
  destruct (String.eqb k k') eqn:E.
  - apply String.eqb_eq in E. intros [= ->]. subst. now left.
  - intros H. right. now apply IH.
Qed.

Lemma index_nth {A} (l : list A) i a :
  nth_error l i = Some a -> index l i = Ok a.
Proof. unfold index. now intros ->. Qed.

Lemma nth_error_lt {A} (l : list A) i a :
  nth_error l i = Some a -> (i <? length l)%nat = true.
Proof.
  intros H. apply Nat.ltb_lt. apply nth_error_Some. congruence.
Qed.

Lemma last_item_last (l : list string) :
  l <> [] -> last_item l = Ok (last l EmptyString).
Proof.
  intros H. unfold last_item.
  destruct (exists_last H) as [front [a ->]].
  rewrite rev_app_distr. simpl. now rewrite last_last.
Qed.

Lemma after20 i (result : list string) :
  (i = 0%nat -> result = []) ->
  and_then (0 <? i)%nat
    (and_then (negb (length result =? 0)%nat)
       (l <- last_item result ;; Ok (String.eqb l "20")))
  = Ok (last_is_20 result).
Proof.
  intros H. destruct i as [|i].
  - rewrite H by reflexivity. reflexivity.
  - simpl. destruct result as [|x result]; [reflexivity|].
    simpl length. simpl negb. unfold and_then.
    rewrite last_item_last by discriminate. reflexivity.
Qed.

Lemma unit_junni_step words i result w v :
      nth_error words i = Some w ->
      nth_error words (i + 1) = Some "junni" ->
      lookup wolof_basic w = Some v ->
      (i = 0%nat -> result = []) ->
      1 <= v <= 5 /\
      convert_step words i result =
        if last_is_20 result
        then Ok ((i + 1)%nat, (result ++ [str v])%list)
        else Ok ((i + 2)%nat, (result ++ [str (v * 1000)])%list).
Proof.
  intros Hw Hj Hv Hinv.
  pose proof (index_nth _ _ _ Hw) as Iw.
  pose proof (index_nth _ _ _ Hj) as Ij.
  pose proof (nth_error_lt _ _ _ Hj) as Lj.
  pose proof (after20 i result Hinv) as H20.
  apply lookup_In in Hv. simpl in Hv.
  unfold convert_step, hyphenated, juroom_unit, unit_times, unit_junni,
    word_is, or_fall.
  repeat (destruct Hv as [Hv|Hv]; [injection Hv as <- <-; split; [lia|];
    repeat (progress (rewrite ?Iw, ?Ij, ?Lj, ?H20; simpl));
    destruct (last_is_20 result); simpl; rewrite ?Iw; reflexivity|]).
  contradiction.
Qed.

(** *** Every pass of the scan returns and moves on *)

Lemma index_ok {A} (l : list A) i :
  (i < length l)%nat -> exists a, index l i = Ok a /\ In a l.
Proof.
  intros H. unfold index.
  destruct (nth_error l i) eqn:E.
  - eexists. split; [reflexivity|]. eapply nth_error_In, E.
  - apply nth_error_None in E. lia.
Qed.

Ltac read_index l i H :=
  let a := fresh "w" in
  let E := fresh "E" in
  let I := fresh "I" in
  destruct (index_ok l i H) as [a [E I]]; rewrite E; cbn [bind].

(** The block falls through, or emits [str] of a number. *)
Ltac falls := eexists; split; [reflexivity|simpl; lia].
Ltac emits_str :=
  eexists; split;
  [reflexivity
  |split; [lia|eexists; split; [reflexivity|right; apply str_plain]]].
Ltac block_done := first [emits_str|falls].

Lemma hyphenated_returns words i result :
  (i < length words)%nat ->
  exists f, hyphenated words i result = Ok f /\ well_done words result i f.
Proof.
  intros Hi. unfold hyphenated. read_index words i Hi.
  destruct (contains "-" w); [|falls].
  destruct (lookup french_tens w); [emits_str|].
  destruct (lookup french_ones w); [emits_str|].
  set (parts := split_on "-" w).
  destruct (length parts =? 3)%nat eqn:H3; cbn [and_then].
  - apply Nat.eqb_eq in H3.
    assert (H0 : (0 < length parts)%nat) by lia.
    assert (H1 : (1 < length parts)%nat) by lia.
    assert (H2 : (2 < length parts)%nat) by lia.
    read_index parts 0%nat H0.
    destruct (String.eqb w0 "quatre"); cbn [and_then bind].
    + read_index parts 1%nat H1.
      destruct (String.eqb w1 "vingt").
      * read_index parts 2%nat H2.
        destruct (lookup french_ones w2); emits_str.
      * replace (length parts =? 2)%nat with false
          by (symmetry; apply Nat.eqb_neq; lia).
        falls.
    + replace (length parts =? 2)%nat with false
        by (symmetry; apply Nat.eqb_neq; lia).
      falls.
  - cbn [bind].
    destruct (length parts =? 2)%nat; [|falls].
    destruct (0 <? _); block_done.
Qed.

Lemma word_is_returns words i w :
  (i < length words)%nat -> exists b, word_is words i w = Ok b.
Proof.
  intros Hi. unfold word_is. read_index words i Hi. eauto.
Qed.

Lemma next_is_returns words i w :
  exists b, and_then (i + 1 <? length words)%nat (word_is words (i + 1) w)
            = Ok b
            /\ (b = true -> (i + 1 < length words)%nat).
Proof.
  destruct (i + 1 <? length words)%nat eqn:H; cbn [and_then].
  - apply Nat.ltb_lt in H.
    destruct (word_is_returns words (i + 1) w H) as [b ->].
    exists b. split; [reflexivity|trivial].
  - exists false. split; [reflexivity|discriminate].
Qed.

Lemma juroom_unit_returns words i result :
  (i < length words)%nat ->
  exists f, juroom_unit words i result = Ok f /\ well_done words result i f.
Proof.
  intros Hi. unfold juroom_unit.
  destruct (word_is_returns words i "juróom" Hi) as [b ->]. cbn [bind].
  destruct (b && (i + 1 <? length words)%nat) eqn:Hc; [|falls].
  apply andb_true_iff in Hc as [_ Hc]. apply Nat.ltb_lt in Hc.
  read_index words (i + 1)%nat Hc.
  destruct (lookup wolof_basic w); block_done.
Qed.

Lemma unit_times_returns word factor words i result :
  (i < length words)%nat ->
  exists f, unit_times word factor words i result = Ok f
            /\ well_done words result i f.
Proof.
  intros Hi. unfold unit_times.
  destruct (next_is_returns words i word) as [c [-> Hc]]. cbn [bind].
  destruct c; [|falls].
  specialize (Hc eq_refl). read_index words i Hi.
  destruct (lookup wolof_basic w); [emits_str|].
  destruct (String.eqb w "juróom"); [|falls].
  destruct (i + 2 <? length words)%nat eqn:H2; cbn [and_then bind].
  - apply Nat.ltb_lt in H2.
    destruct (word_is_returns words (i + 2) word H2) as [c2 ->]. cbn [bind].
    destruct c2; [|falls].
    read_index words (i + 1)%nat Hc.
    destruct (lookup wolof_basic w0); block_done.
  - falls.
Qed.

Lemma unit_junni_returns words i result :
  (i < length words)%nat ->
  exists f, unit_junni words i result = Ok f /\ well_done words result i f.
Proof.
  intros Hi. unfold unit_junni.
  destruct (next_is_returns words i "junni") as [c [-> Hc]]. cbn [bind].
  destruct c; [|falls].
  specialize (Hc eq_refl). read_index words i Hi.
  destruct (lookup wolof_basic w); [|falls].
  assert (exists b,
             and_then (0 <? i)%nat
               (and_then (negb (length result =? 0)%nat)
                  (l <- last_item result ;; Ok (String.eqb l "20")))
             = Ok b) as [b ->].
  { destruct (0 <? i)%nat; cbn [and_then]; [|eauto].
    destruct result as [|x result]; cbn [length Nat.eqb negb and_then];
      [eauto|].
    rewrite last_item_last by discriminate. cbn [bind]. eauto. }
  cbn [bind].
  destruct (negb b); block_done.
Qed.

(** The single-word conversion gives the word back or a plain token. *)
Lemma single_word_plain w :
  single_word w = w \/ plain (single_word w) = true.
Proof.
  unfold single_word.
  repeat match goal with
         | |- context [lookup ?d w] =>
             destruct (lookup d w); [right; apply str_plain|]
         end.
  destruct (String.eqb w "dërëm"); [right; reflexivity|].
  destruct (mem w connectors); now left.
Qed.

Lemma or_fall_returns words result i0 i f k :
  (i0 <= i)%nat ->
  (exists x, f = Ok x /\ well_done words result i x) ->
  (forall j, (i <= j < length words)%nat -> one_more words result i0 (k j)) ->
  one_more words result i0 (or_fall f k).
Proof.
  intros Hle [x [-> Hx]] Hk. unfold or_fall. cbn [bind].
  destruct x as [i' r|j]; simpl in Hx; [|now apply Hk].
  destruct Hx as [Hi [t [-> Ht]]].
  exists i', t. split; [reflexivity|]. split; [exact Ht|lia].
Qed.

Lemma convert_step_returns words i result :
  (i < length words)%nat ->
  one_more words result i (convert_step words i result).
Proof.
  intros Hi. unfold convert_step.
  apply (or_fall_returns words result i i);
    [lia|now apply hyphenated_returns|].
  intros j1 H1.
  assert (L1 : (j1 < length words)%nat) by lia. read_index words j1 L1.
  destruct (isdigit w).
  { exists (j1 + 1)%nat, w. split; [reflexivity|]. split; [now left|lia]. }
  apply (or_fall_returns words result i j1);
    [lia|apply juroom_unit_returns; lia|]. intros j2 H2.
  apply (or_fall_returns words result i j2);
    [lia|apply unit_times_returns; lia|]. intros j3 H3.
  apply (or_fall_returns words result i j3);
    [lia|apply unit_times_returns; lia|]. intros j4 H4.
  apply (or_fall_returns words result i j4);
    [lia|apply unit_junni_returns; lia|]. intros j5 H5.
  assert (L5 : (j5 < length words)%nat) by lia. read_index words j5 L5.
  exists (j5 + 1)%nat, (single_word w0). split; [reflexivity|].
  split; [|lia].
  destruct (single_word_plain w0) as [->|H]; [now left|now right].
Qed.

(** The scan returns, and what holds of the words and of every plain
    token holds of the tokens it emits. *)
Lemma convert_loop_returns (P : string -> Prop) fuel :
  (forall t, plain t = true -> P t) ->
  forall words i result,
    (length words - i <= fuel)%nat ->
    Forall P words -> Forall P result ->
    exists out, convert_loop fuel words i result = Ok out /\ Forall P out.
Proof.
  intros HP.
  induction fuel as [|fuel IH]; intros words i result Hfuel Hw Hr;
    cbn [convert_loop].
  - replace (i <? length words)%nat with false
      by (symmetry; apply Nat.ltb_ge; lia).
    now exists result.
  - destruct (i <? length words)%nat eqn:Hi; [|now exists result].
    apply Nat.ltb_lt in Hi.
    destruct (convert_step_returns words i result Hi)
      as [i' [t [-> [Ht Hb]]]].
    cbn [bind]. apply IH; [lia|exact Hw|].
    apply Forall_app. split; [exact Hr|]. constructor; [|constructor].
    destruct Ht as [Ht|Ht]; [|now apply HP].
    now apply (proj1 (Forall_forall P words) Hw).
Qed.

Lemma convert_words_returns text : exists out, convert_words text = Ok out.
Proof.
  unfold convert_words.
  destruct (convert_loop_returns (fun _ => True)
              (length (split (lower text))) (fun _ _ => I)
              (split (lower text)) 0 [])
    as [out [E _]]; [lia|now apply Forall_forall|constructor|].
  now exists out.
Qed.

(** C6. At a unit word followed by "junni" the scan emits unit×1000 and
    moves past both words, unless the last value emitted is "20": then it
    emits the unit alone and moves one word on.  ([i = 0 -> result = []]
    holds all along the loop, which starts from [(0, [])]: every pass
    returns, moves forward within the words and emits one token, and so
    the scan of any text returns.)  So "ñaar fukk junni" is 20 then 1000,
    combined to 20000. *)
Theorem unit_junni_except_after_20 words i result w v :
  nth_error words i = Some w ->
  nth_error words (i + 1) = Some "junni" ->
  lookup wolof_basic w = Some v ->
  (i = 0%nat -> result = []) ->
  1 <= v <= 5
  /\ convert_step words i result
     = (if last_is_20 result
        then Ok ((i + 1)%nat, (result ++ [str v])%list)
        else Ok ((i + 2)%nat, (result ++ [str (v * 1000)])%list))
  /\ (forall j r,
         (j < length words)%nat -> one_more words r j (convert_step words j r))
  /\ (forall text, exists out, convert_words text = Ok out)
  /\ convert_words "ñaar fukk junni" = Ok ["20"; "1000"]
  /\ convert_to_number "ñaar fukk junni" = Ok "20000".
Proof.
  intros Hw Hj Hv Hinv.
  destruct (unit_junni_step words i result w v Hw Hj Hv Hinv) as [Hr Hs].
  split; [exact Hr|]. split; [exact Hs|].
  split; [intros j r; apply convert_step_returns|].
  split; [exact convert_words_returns|].
  split; vm_compute; reflexivity.
Qed.

Lemma unit_junni_except_after_20_witness :
  convert_step ["ñaar"; "fukk"; "ñett"; "junni"] 2 ["20"]
  = Ok (3%nat, ["20"; "3"])
  /\ convert_step ["ñett"; "junni"] 0 [] = Ok (2%nat, ["3000"]).
Proof.
  split.
  - apply (unit_junni_except_after_20
             ["ñaar"; "fukk"; "ñett"; "junni"] 2 ["20"] "ñett" 3);
      [reflexivity|reflexivity|reflexivity|discriminate].
  - apply (unit_junni_except_after_20 ["ñett"; "junni"] 0 [] "ñett" 3);
      reflexivity.
Defined.

(** ** The combiner: [ak] *)

Lemma index_of_first x (pre post : list string) :
  ~ In x pre -> index_of x (pre ++ x :: post) = Ok (length pre).
Proof.
  induction pre as [|y pre IH]; simpl; intros H.
  - now rewrite String.eqb_refl.
  - destruct (String.eqb y x) eqn:E.
    + apply String.eqb_eq in E. exfalso. apply H. now left.
    + rewrite IH by (intros Hin; apply H; now right). reflexivity.
Qed.

Lemma remove_first x (pre post : list string) :
  ~ In x pre -> remove x (pre ++ x :: post) = Ok (pre ++ post)%list.
Proof.
  induction pre as [|y pre IH]; simpl; intros H.
  - now rewrite String.eqb_refl.
  - destruct (String.eqb y x) eqn:E.
    + apply String.eqb_eq in E. exfalso. apply H. now left.
    + rewrite IH by (intros Hin; apply H; now right). reflexivity.
Qed.

Lemma index_middle {A} (pre : list A) a post :
  index (pre ++ a :: post) (length pre) = Ok a.
Proof.
  unfold index. rewrite nth_error_app2 by lia.
  now rewrite Nat.sub_diag.
Qed.

Lemma mem_In x l : mem x l = true <-> In x l.
Proof.
  unfold mem. rewrite existsb_exists. split.
  - intros [y [Hy E]]. apply String.eqb_eq in E. now subst.
  - intros H. exists x. split; [assumption|apply String.eqb_refl].
Qed.

(** The first ["ak"] of a list that has one. *)
Lemma first_ak (parts : list string) :
  In "ak" parts ->
  exists pre post, parts = (pre ++ "ak" :: post)%list /\ ~ In "ak" pre.
Proof.
  induction parts as [|y parts IH]; simpl; [contradiction|].
  intros H. destruct (string_dec y "ak") as [->|Hne].
  - exists [], parts. split; [reflexivity|intros []].
  - destruct H as [H|H]; [contradiction|].
    destruct (IH H) as [pre [post [-> Hpre]]].
    exists (y :: pre), post. split; [reflexivity|].
    intros [E|Hin]; [now apply Hne|now apply Hpre].
Qed.

Lemma skipn_exact {A} (pre post : list A) n :
  n = length pre -> skipn n (pre ++ post) = post.
Proof. intros ->. now rewrite skipn_app, skipn_all, Nat.sub_diag. Qed.

Lemma firstn_exact {A} (pre post : list A) n :
  n = length pre -> firstn n (pre ++ post) = pre.
Proof.
  intros ->. rewrite firstn_app, firstn_all, Nat.sub_diag. simpl.
  apply app_nil_r.
Qed.

Lemma index_at {A} (pre : list A) a post n :
  n = length pre -> index (pre ++ a :: post) n = Ok a.
Proof. intros ->. apply index_middle. Qed.

(** An ["ak"] between two digit strings: the three tokens become the sum. *)
Lemma ak_step_sum pre l r post :
  ~ In "ak" pre -> isdigit l = true -> isdigit r = true ->
  ak_step (pre ++ l :: "ak" :: r :: post)
  = (a <- int l ;; b <- int r ;; Ok (pre ++ str (a + b) :: post)%list).
Proof.
  intros Hpre Hl Hr.
  set (parts := (pre ++ l :: "ak" :: r :: post)%list).
  assert (Hidx : index_of "ak" parts = Ok (S (length pre))).
  { unfold parts.
    change (pre ++ l :: "ak" :: r :: post)%list
      with (pre ++ [l] ++ "ak" :: r :: post)%list.
    rewrite app_assoc, index_of_first.
    - rewrite length_app. simpl. f_equal. lia.
    - rewrite in_app_iff. intros [H|[H|[]]]; [now apply Hpre|].
      subst l. discriminate Hl. }
  assert (Hlen : length parts = (length pre + 3 + length post)%nat).
  { unfold parts. rewrite length_app. simpl. lia. }
  assert (Hleft : index parts (S (length pre) - 1) = Ok l).
  { unfold parts. apply index_at. lia. }
  assert (Hright : index parts (S (length pre) + 1) = Ok r).
  { unfold parts.
    change (pre ++ l :: "ak" :: r :: post)%list
      with (pre ++ [l; "ak"] ++ r :: post)%list.
    rewrite app_assoc. apply index_at. rewrite length_app. simpl. lia. }
  assert (Hfront : lslice 0 (S (length pre) - 1) parts = pre).
  { unfold lslice, parts. simpl skipn. apply firstn_exact. lia. }
  assert (Hback : skipn (S (length pre) + 2) parts = post).
  { unfold parts.
    change (pre ++ l :: "ak" :: r :: post)%list
      with (pre ++ [l; "ak"; r] ++ post)%list.
    rewrite app_assoc. apply skipn_exact. rewrite length_app. simpl. lia. }
  unfold ak_step. rewrite Hidx. cbn [bind].
  replace ((0 <? S (length pre)) && (S (length pre) + 1 <? length parts))%nat
    with true
    by (symmetry; rewrite Hlen; apply andb_true_iff; split;
        apply Nat.ltb_lt; lia).
  rewrite Hleft, Hright. cbn [bind]. rewrite Hl, Hr. cbn [andb].
  destruct (int l) as [a| |]; cbn [bind]; try reflexivity.
  destruct (int r) as [b| |]; cbn [bind]; try reflexivity.
  now rewrite Hfront, Hback.
Qed.

(** An ["ak"] that is not between two digit strings is dropped. *)
Lemma ak_step_drop pre post :
  ~ In "ak" pre ->
  isdigit (last pre EmptyString) && isdigit (hd EmptyString post) = false ->
  ak_step (pre ++ "ak" :: post) = Ok (pre ++ post)%list.
Proof.
  intros Hpre Hnot. unfold ak_step.
  rewrite index_of_first by assumption. cbn [bind].
  rewrite (remove_first "ak" pre post Hpre).
  destruct ((0 <? length pre)
            && (length pre + 1 <? length (pre ++ "ak" :: post)))%nat
    eqn:Hmid; [|reflexivity].
  apply andb_true_iff in Hmid as [H0 H1].
  apply Nat.ltb_lt in H0, H1. rewrite length_app in H1. simpl in H1.
  destruct (exists_last (l := pre)) as [front [l ->]];
    [intros ->; simpl in H0; lia|].
  destruct post as [|r post]; [simpl in H1; lia|].
  rewrite last_last in Hnot. simpl hd in Hnot.
  rewrite length_app. simpl length.
  replace (length front + 1 - 1)%nat with (length front) by lia.
  rewrite <- app_assoc. simpl app.
  rewrite index_middle. cbn [bind].
  change (front ++ l :: "ak" :: r :: post)%list
    with (front ++ [l; "ak"] ++ r :: post)%list.
  rewrite app_assoc.
  rewrite (index_at (front ++ [l; "ak"]) r post)
    by (rewrite length_app; simpl; lia).
  cbn [bind]. now rewrite Hnot.
Qed.

(** The loop on [ak] ends with no [ak] left, and keeps what holds of the
    parts and of every plain token, if that is enough for [int] to read
    the digit strings. *)
Lemma ak_loop_ends (P : string -> Prop) fuel :
  (forall t, plain t = true -> P t) -> (forall t, P t -> good t) ->
  forall parts,
    (length parts <= fuel)%nat -> Forall P parts ->
    exists parts', ak_loop fuel parts = Ok parts'
                   /\ ~ In "ak" parts' /\ Forall P parts'.
Proof.
  intros plain_P P_good.
  induction fuel as [|fuel IH]; intros parts Hlen Hok.
  - destruct parts; [|simpl in Hlen; lia].
    exists []. split; [reflexivity|]. split; [intros []|constructor].
  - simpl. destruct (mem "ak" parts) eqn:Hmem.
    2:{ exists parts. split; [reflexivity|]. split; [|exact Hok].
        intros Hin. apply mem_In in Hin. congruence. }
    apply mem_In in Hmem.
    destruct (first_ak parts Hmem) as [pre [post [-> Hpre]]].
    apply Forall_app in Hok as [Hok_pre Hok_post].
    apply Forall_cons_iff in Hok_post as [_ Hok_post].
    destruct (isdigit (last pre EmptyString) && isdigit (hd EmptyString post))
      eqn:Hmid.
    + apply andb_true_iff in Hmid as [Hl Hr].
      destruct (exists_last (l := pre)) as [front [l ->]];
        [intros ->; discriminate Hl|].
      destruct post as [|r post]; [discriminate Hr|].
      rewrite last_last in Hl. simpl in Hr.
      rewrite <- app_assoc in *. simpl app in *.
      assert (Hfront : ~ In "ak" front).
      { intros Hin. apply Hpre. rewrite in_app_iff. now left. }
      apply Forall_app in Hok_pre as [Hok_front Hok_l].
      apply Forall_cons_iff in Hok_l as [Hok_l _].
      apply Forall_cons_iff in Hok_post as [Hok_r Hok_post].
      rewrite ak_step_sum by assumption.
      destruct (int_decimal l (P_good l Hok_l Hl)) as [a [-> Ha]].
      destruct (int_decimal r (P_good r Hok_r Hr)) as [b [-> Hb]].
      cbn [bind]. apply IH.
      * rewrite length_app in *. simpl in *. lia.
      * apply Forall_app. split; [exact Hok_front|].
        constructor; [apply plain_P, str_plain|exact Hok_post].
    + rewrite ak_step_drop by assumption. cbn [bind]. apply IH.
      * rewrite length_app in *. simpl in *. lia.
      * apply Forall_app. now split.
Qed.





(** ** Phone numbers *)

Lemma index_in_range {A} (l : list A) i (d : A) :
  (i < length l)%nat -> index l i = Ok (nth i l d).
Proof.
  intros H. unfold index. now rewrite (nth_error_nth' l d H).
Qed.

(** The inner loop returns, within the words and with at most 12 parts,
    one word at least being read for each part. *)
Lemma collect_run fuel : forall words j phone_parts,
  (length words - j <= fuel)%nat -> (j <= length words)%nat ->
  (length phone_parts <= 12)%nat ->
  exists j' phone_parts',
    collect fuel words j phone_parts = Ok (j', phone_parts')
    /\ (j <= j' <= length words)%nat
    /\ (length phone_parts' <= 12)%nat
    /\ (length phone_parts' <= length phone_parts + (j' - j))%nat.
Proof.
  induction fuel as [|fuel IH]; intros words j parts Hfuel Hj Hparts.
  - exists j, parts. simpl.
    replace (j <? length words)%nat with false
      by (symmetry; apply Nat.ltb_ge; lia).
    simpl. repeat split; lia.
  - simpl.
    destruct ((j <? length words) && (length parts <? 12))%nat eqn:Hgo.
    2:{ exists j, parts. repeat split; lia. }
    apply andb_true_iff in Hgo as [Hlt H12].
    apply Nat.ltb_lt in Hlt, H12.
    rewrite (index_in_range words j EmptyString Hlt). cbn [bind].
    destruct (phone_part (nth j words EmptyString)) as [p| |].
    + destruct (IH words (j + 1)%nat (parts ++ [p])%list)
        as [j' [parts' [E [Hj' [Hp' Hn]]]]];
        [lia|lia|rewrite length_app; simpl; lia|].
      rewrite length_app in Hn. simpl in Hn.
      exists j', parts'. repeat split; [exact E|lia|lia|exact Hp'|lia].
    + destruct (IH words (j + 1)%nat parts)
        as [j' [parts' [E [Hj' [Hp' Hn]]]]]; [lia|lia|lia|].
      exists j', parts'. repeat split; [exact E|lia|lia|exact Hp'|lia].
    + exists j, parts. repeat split; lia.
Qed.

Lemma phone_step_run words i result :
  (i < length words)%nat ->
  exists j phone_parts,
    collect (length words - i) words i [] = Ok (j, phone_parts)
    /\ (length phone_parts <= 12)%nat
    /\ (i <= j <= length words)%nat
    /\ (qualifies phone_parts = true -> (i + 6 <= j)%nat)
    /\ phone_step words i result
       = (if qualifies phone_parts
          then Ok (j, (result
                       ++ [format_phone
                             (join EmptyString
                                   (phone_digits phone_parts))])%list)
          else Ok ((i + 1)%nat,
                   (result ++ [nth i words EmptyString])%list)).
Proof.
  intros Hi.
  destruct (collect_run (length words - i) words i [])
    as [j [parts [E [Hj [Hp Hn]]]]]; [lia|lia|simpl; lia|].
  exists j, parts.
  split; [exact E|]. split; [exact Hp|]. split; [exact Hj|]. split.
  { unfold qualifies. intros Hq. apply andb_true_iff in Hq as [Hq _].
    apply Nat.leb_le in Hq. simpl in Hn. lia. }
  unfold phone_step, qualifies. rewrite E. cbn [bind].
  rewrite (index_in_range words i EmptyString Hi). cbn [bind].
  destruct (6 <=? length parts)%nat; [|reflexivity].
  cbn [andb].
  destruct (existsb _ _); reflexivity.
Qed.



(** The outer loop always returns: a rewritten run moves the scan six
    words on at least, a rejected one moves it one word on. *)
Lemma phone_loop_returns fuel : forall words i result,
  (length words - i <= fuel)%nat ->
  exists out, phone_loop fuel words i result = Ok out.
Proof.
  induction fuel as [|fuel IH]; intros words i result Hfuel; cbn [phone_loop].
  - replace (i <? length words)%nat with false
      by (symmetry; apply Nat.ltb_ge; lia).
    now exists result.
  - destruct (i <? length words)%nat eqn:Hi; [|now exists result].
    apply Nat.ltb_lt in Hi.
    destruct (phone_step_run words i result Hi)
      as [j [parts [_ [_ [Hj [Hjump ->]]]]]].
    destruct (qualifies parts); cbn [bind]; apply IH; [|lia].
    specialize (Hjump eq_refl). lia.
Qed.




(** ** Grouping by three: [_format_with_spaces] *)

Section Grouping.

Local Open Scope nat_scope.

(** ** Strings *)

Lemma append_nil_r (s : string) : s ++ EmptyString = s.
Proof. induction s; simpl; congruence. Qed.

Lemma append_assoc (a b c : string) : (a ++ b) ++ c = a ++ b ++ c.
Proof. induction a; simpl; congruence. Qed.

Lemma length_append (a b : string) :
  String.length (a ++ b) = String.length a + String.length b.
Proof. induction a; simpl; congruence. Qed.

Lemma rev_str_app acc s : rev_str acc s = reversed s ++ acc.
Proof.
  unfold reversed. revert acc.
  induction s as [|c s IH]; intros acc; simpl; [reflexivity|].
  rewrite IH, (IH (String c EmptyString)), append_assoc. reflexivity.
Qed.

Lemma reversed_cons c s :
  reversed (String c s) = reversed s ++ String c EmptyString.
Proof. unfold reversed at 1. simpl. apply rev_str_app. Qed.

Lemma reversed_app a b : reversed (a ++ b) = reversed b ++ reversed a.
Proof.
  induction a as [|c a IH]; simpl.
  - now rewrite append_nil_r.
  - now rewrite !reversed_cons, IH, append_assoc.
Qed.

Lemma reversed_involutive s : reversed (reversed s) = s.
Proof.
  induction s as [|c s IH]; [reflexivity|].
  now rewrite reversed_cons, reversed_app, IH.
Qed.

Lemma reversed_length s : String.length (reversed s) = String.length s.
Proof.
  induction s as [|c s IH]; [reflexivity|].
  rewrite reversed_cons, length_append, IH. simpl. lia.
Qed.

Lemma all_c_app p a b : all_c p (a ++ b) = all_c p a && all_c p b.
Proof.
  induction a as [|c a IH]; simpl; [reflexivity|].
  now rewrite IH, andb_assoc.
Qed.

Lemma all_c_reversed p s : all_c p (reversed s) = all_c p s.
Proof.
  induction s as [|c s IH]; [reflexivity|].
  rewrite reversed_cons, all_c_app, IH. simpl.
  rewrite andb_true_r. apply andb_comm.
Qed.

(** Induction three characters at a time. *)
Lemma string_ind3 (P : string -> Prop) :
  P EmptyString ->
  (forall a, P (String a EmptyString)) ->
  (forall a b, P (String a (String b EmptyString))) ->
  (forall a b c r, P r -> P (String a (String b (String c r)))) ->
  forall r, P r.
Proof.
  intros H0 H1 H2 H3.
  fix IH 1. intros [|a [|b [|c r]]];
    [exact H0|apply H1|apply H2|apply H3, IH].
Qed.

(** ** The slices of [_format_with_spaces] are the groups of three *)

Lemma range_from_shift fuel : forall start stop,
  range_from fuel (start + 3) (stop + 3) 3
  = map (fun i => i + 3) (range_from fuel start stop 3).
Proof.
  induction fuel as [|fuel IH]; intros start stop; simpl; [reflexivity|].
  replace (start + 3 <? stop + 3) with (start <? stop).
  2:{ destruct (start <? stop) eqn:E; symmetry.
      - apply Nat.ltb_lt in E. apply Nat.ltb_lt. lia.
      - apply Nat.ltb_ge in E. apply Nat.ltb_ge. lia. }
  destruct (start <? stop); [|reflexivity].
  simpl. f_equal.
  replace (start + 3 + 3) with ((start + 3) + 3) by lia. apply IH.
Qed.

Lemma range_from_fuel fuel : forall fuel' start stop,
  stop - start <= fuel -> stop - start <= fuel' ->
  range_from fuel start stop 3 = range_from fuel' start stop 3.
Proof.
  induction fuel as [|fuel IH]; intros [|fuel'] start stop H H'; simpl;
    try reflexivity.
  - replace (start <? stop) with false
      by (symmetry; apply Nat.ltb_ge; lia). reflexivity.
  - replace (start <? stop) with false
      by (symmetry; apply Nat.ltb_ge; lia). reflexivity.
  - destruct (start <? stop) eqn:E; [|reflexivity].
    apply Nat.ltb_lt in E. f_equal. apply IH; lia.
Qed.

Lemma slice_shift a b c r i :
  slice (i + 3) (i + 3 + 3) (String a (String b (String c r)))
  = slice i (i + 3) r.
Proof.
  unfold slice.
  replace (i + 3 + 3 - (i + 3)) with (i + 3 - i) by lia.
  replace (i + 3) with (S (S (S i))) at 1 by lia. reflexivity.
Qed.

Lemma slices_are_groups r :
  map (fun i => slice i (i + 3) r) (range 0 (String.length r) 3)
  = groups3 r.
Proof.
  unfold range. induction r as [|a|a b|a b c r IH] using string_ind3;
    try reflexivity.
  set (n := String.length r) in *.
  change (String.length (String a (String b (String c r))))
    with (S (S (S n))).
  change (range_from (S (S (S n))) 0 (S (S (S n))) 3)
    with (0 :: range_from (S (S n)) (0 + 3) (S (S (S n))) 3).
  cbn [map groups3]. f_equal; [destruct r; reflexivity|].
  replace (S (S (S n))) with (n + 3) by lia.
  rewrite (range_from_fuel (S (S n)) n (0 + 3) (n + 3)) by lia.
  rewrite range_from_shift, map_map.
  rewrite <- IH. apply map_ext. intros i. apply slice_shift.
Qed.

(** ** The groups *)

(** The shape of [groups3 r]: groups of three, then a last group of one to
    three. *)
Lemma groups3_shape r :
  r <> EmptyString ->
  exists front g,
    groups3 r = (front ++ [g])%list
    /\ Forall (fun x => String.length x = 3) front
    /\ 1 <= String.length g <= 3.
Proof.
  induction r as [|a|a b|a b c r IH] using string_ind3; intros Hne.
  - contradiction.
  - exists [], (String a EmptyString). simpl. repeat split; auto.
  - exists [], (String a (String b EmptyString)). simpl. repeat split; auto.
  - cbn [groups3]. destruct r as [|x r].
    + exists [], (String a (String b (String c EmptyString))).
      simpl. repeat split; auto.
    + destruct IH as [front [g [E [Hf Hg]]]]; [discriminate|].
      exists (String a (String b (String c EmptyString)) :: front), g.
      rewrite E. repeat split; auto; lia.
Qed.

Lemma concat_empty_cons g gs :
  String.concat EmptyString (g :: gs) = g ++ String.concat EmptyString gs.
Proof. destruct gs; simpl; [now rewrite append_nil_r|reflexivity]. Qed.

Lemma groups3_concat r : String.concat EmptyString (groups3 r) = r.
Proof.
  induction r as [|a|a b|a b c r IH] using string_ind3; try reflexivity.
  cbn [groups3]. rewrite concat_empty_cons, IH. reflexivity.
Qed.

Lemma groups3_all p r :
  all_c p r = true -> Forall (fun g => all_c p g = true) (groups3 r).
Proof.
  induction r as [|a|a b|a b c r IH] using string_ind3; intros H.
  - constructor.
  - constructor; [exact H|constructor].
  - constructor; [exact H|constructor].
  - cbn [groups3]. simpl in H.
    repeat (apply andb_true_iff in H as [? H]).
    constructor; [|now apply IH].
    simpl. now rewrite H0, H1, H2.
Qed.

(** ** Joining, reversing, deleting and splitting *)

Lemma delete_char_app c a b :
  delete_char c (a ++ b) = delete_char c a ++ delete_char c b.
Proof.
  induction a as [|x a IH]; simpl; [reflexivity|].
  destruct (Ascii.eqb x c); simpl; congruence.
Qed.

Lemma delete_char_none s : no_space s = true -> delete_char " " s = s.
Proof.
  induction s as [|x s IH]; simpl; [reflexivity|].
  intros H. apply andb_true_iff in H as [Hx Hs].
  apply negb_true_iff in Hx. rewrite Hx. now rewrite IH.
Qed.

Lemma split_on_from_none cur s :
  no_space s = true -> split_on_from " " cur s = [cur ++ s].
Proof.
  revert cur. induction s as [|x s IH]; simpl; intros cur H.
  - now rewrite append_nil_r.
  - apply andb_true_iff in H as [Hx Hs]. apply negb_true_iff in Hx.
    rewrite Hx, IH by assumption. now rewrite append_assoc.
Qed.

Lemma split_on_from_app cur a b :
  split_on_from " " cur (a ++ String " " b)
  = (split_on_from " " cur a ++ split_on_from " " EmptyString b)%list.
Proof.
  revert cur. induction a as [|x a IH]; simpl; intros cur; [reflexivity|].
  destruct (Ascii.eqb x " "); simpl; now rewrite IH.
Qed.

(** What [_format_with_spaces] builds from the groups [gs]: the reversal of
    their join. *)
Lemma concat_cons2 sep g g' gs :
  String.concat sep (g :: g' :: gs)
  = g ++ sep ++ String.concat sep (g' :: gs).
Proof. reflexivity. Qed.

Lemma reversed_join g gs :
  reversed (join " " (g :: gs))
  = match gs with
    | [] => reversed g
    | _ => reversed (join " " gs) ++ String " " (reversed g)
    end.
Proof.
  destruct gs as [|g' gs]; [reflexivity|].
  unfold join. rewrite concat_cons2, !reversed_app, append_assoc.
  reflexivity.
Qed.

Lemma no_space_reversed s : no_space (reversed s) = no_space s.
Proof. apply all_c_reversed. Qed.

Lemma delete_reversed_join gs :
  Forall (fun g => no_space g = true) gs ->
  delete_char " " (reversed (join " " gs))
  = reversed (String.concat EmptyString gs).
Proof.
  induction gs as [|g gs IH]; intros H; [reflexivity|].
  inversion H as [|? ? Hg Hgs]; subst.
  rewrite reversed_join. destruct gs as [|g' gs].
  - simpl. apply delete_char_none. now rewrite no_space_reversed.
  - rewrite delete_char_app, IH by assumption.
    change (String " " (reversed g)) with (" " ++ reversed g).
    rewrite delete_char_app. simpl delete_char at 1.
    rewrite delete_char_none by now rewrite no_space_reversed.
    rewrite (concat_empty_cons g). now rewrite reversed_app.
Qed.

Lemma split_reversed_join gs :
  gs <> [] ->
  Forall (fun g => no_space g = true) gs ->
  split_on " " (reversed (join " " gs)) = rev (map reversed gs).
Proof.
  unfold split_on.
  induction gs as [|g gs IH]; intros Hne H; [contradiction|].
  inversion H as [|? ? Hg Hgs]; subst.
  rewrite reversed_join. destruct gs as [|g' gs].
  - simpl. apply split_on_from_none. now rewrite no_space_reversed.
  - rewrite split_on_from_app, IH by (assumption || discriminate).
    rewrite split_on_from_none by now rewrite no_space_reversed.
    reflexivity.
Qed.

Lemma decimal_no_space s : all_c isdecimal_c s = true -> no_space s = true.
Proof.
  unfold no_space. induction s as [|x s IH]; simpl; [reflexivity|].
  intros H. apply andb_true_iff in H as [Hx Hs].
  apply andb_true_iff. split; [|now apply IH].
  destruct (Ascii.eqb_spec x " "); [subst x; discriminate Hx|reflexivity].
Qed.

(** What [_format_with_spaces] returns on a string longer than three. *)
Lemma format_long s :
  3 < String.length s ->
  _format_with_spaces s = reversed (join " " (groups3 (reversed s))).
Proof.
  intros H. unfold _format_with_spaces.
  replace (String.length s <=? 3) with false
    by (symmetry; apply Nat.leb_gt; lia).
  now rewrite slices_are_groups.
Qed.

Lemma reversed_nonempty s : s <> EmptyString -> reversed s <> EmptyString.
Proof.
  intros H E. apply H. rewrite <- (reversed_involutive s), E. reflexivity.
Qed.

(** C10. On a non-empty string of decimal digits, deleting the spaces
    from [_format_with_spaces s] gives [s] back; cut at the spaces, the
    result is a first group of one to three digits followed by groups of
    exactly three; and a string of at most three digits is returned as it
    is. *)
Theorem format_with_spaces_round_trip s :
  isdecimal s = true ->
  delete_char " " (_format_with_spaces s) = s
  /\ (exists g gs,
         split_on " " (_format_with_spaces s) = g :: gs
         /\ 1 <= String.length g <= 3
         /\ Forall (fun x => String.length x = 3) gs
         /\ Forall (fun x => all_c isdecimal_c x = true) (g :: gs))
  /\ (String.length s <= 3 -> _format_with_spaces s = s).
Proof.
  intros Hs. apply andb_true_iff in Hs as [Hne Hdec].
  assert (Hsne : s <> EmptyString) by (intros ->; discriminate Hne).
  assert (Hshort : String.length s <= 3 -> _format_with_spaces s = s).
  { intros H. unfold _format_with_spaces.
    apply Nat.leb_le in H. now rewrite H. }
  split; [|split; [|exact Hshort]].
  - destruct (Nat.le_gt_cases (String.length s) 3) as [H|H].
    + rewrite Hshort by assumption.
      apply delete_char_none. now apply decimal_no_space.
    + rewrite format_long by assumption.
      rewrite delete_reversed_join, groups3_concat.
      * apply reversed_involutive.
      * apply groups3_all. rewrite no_space_reversed.
        now apply decimal_no_space.
  - destruct (Nat.le_gt_cases (String.length s) 3) as [H|H].
    + rewrite Hshort by assumption. exists s, [].
      unfold split_on.
      rewrite split_on_from_none by now apply decimal_no_space.
      repeat split; auto.
      destruct s; [contradiction|simpl; lia].
    + rewrite format_long by assumption.
      assert (Hgroups : Forall (fun g => all_c isdecimal_c g = true)
                               (groups3 (reversed s))).
      { apply groups3_all. now rewrite all_c_reversed. }
      destruct (groups3_shape (reversed s) (reversed_nonempty s Hsne))
        as [front [g [E [Hfront Hg]]]].
      rewrite split_reversed_join.
      * rewrite E in *. rewrite map_app, rev_app_distr. simpl.
        exists (reversed g), (rev (map reversed front)).
        split; [reflexivity|]. split; [now rewrite reversed_length|].
        split.
        -- apply Forall_rev, Forall_map.
           eapply Forall_impl; [|exact Hfront].
           intros x Hx. now rewrite reversed_length.
        -- apply Forall_app in Hgroups as [Hf Hl].
           inversion Hl as [|? ? Hgd _]; subst.
           constructor; [now rewrite all_c_reversed|].
           apply Forall_rev, Forall_map.
           eapply Forall_impl; [|exact Hf].
           intros x Hx. now rewrite all_c_reversed.
      * rewrite E. destruct front; discriminate.
      * eapply Forall_impl; [|exact Hgroups].
        intros x. apply decimal_no_space.
Qed.

Lemma format_with_spaces_round_trip_witness :
  delete_char " " (_format_with_spaces "54900") = "54900".
Proof. apply (format_with_spaces_round_trip "54900"). reflexivity. Defined.

End Grouping.

(** ** Patterns and their matches *)

Section Matching.

Local Open Scope nat_scope.

(** *** Texts a pattern cannot match *)



Section Free.

Variable icase : bool.
Variable p : ascii -> bool.

Lemma free_cons c s :
  free p (String c s) = true -> p c = false /\ free p s = true.
Proof.
  unfold free. simpl. intros H. apply andb_true_iff in H as [Hc Hs].
  apply negb_true_iff in Hc. now split.
Qed.






End Free.

(** *** What a match is *)

Lemma cursor_eta c : Cursor (before c) (pos c) (rest c) (groups c) = c.
Proof. now destruct c. Qed.

Lemma many_sound icase greedy a k g e : forall s b n,
  many icase greedy a k g b n s = Some e ->
  exists c', matches icase (Many greedy a) (Cursor b n s g) c' /\ k c' = Some e.
Proof.
  induction s as [|x s IH]; intros b n H; cbn [many] in H.
  - eexists. split; [apply M_many_stop|exact H].
  - assert (Hstop : k (Cursor b n (String x s) g) = Some e ->
            exists c',
              matches icase (Many greedy a) (Cursor b n (String x s) g) c'
              /\ k c' = Some e).
    { intros Hk. eexists. split; [apply M_many_stop|exact Hk]. }
    assert (Hstep : accepts icase a x = true ->
            many icase greedy a k g (Some x) (S n) s = Some e ->
            exists c',
              matches icase (Many greedy a) (Cursor b n (String x s) g) c'
              /\ k c' = Some e).
    { intros Hx Hm. destruct (IH _ _ Hm) as [c' [Hc' Hk]].
      exists c'. split; [|exact Hk].
      eapply M_many_step; [reflexivity|exact Hx|exact Hc']. }
    destruct (accepts icase a x) eqn:Hx; [|now apply Hstop].
    destruct greedy.
    + destruct (many icase true a k g (Some x) (S n) s) eqn:Hm; simpl in H.
      * injection H as ->. now apply Hstep.
      * now apply Hstop.
    + destruct (k (Cursor b n (String x s) g)) eqn:Hk; simpl in H.
      * injection H as ->. now apply Hstop.
      * now apply Hstep.
Qed.

Lemma run_sound icase r : forall c k e,
  run icase r c k = Some e ->
  exists c', matches icase r c c' /\ k c' = Some e.
Proof.
  induction r as [|a|greedy a| |r1 IH1 r2 IH2|r1 IH1 r2 IH2|n r1 IH1|r1 IH1];
    intros c k e H; cbn [run] in H.
  - exists c. split; [constructor|exact H].
  - destruct (rest c) as [|x s'] eqn:E; [discriminate|].
    destruct (accepts icase a x) eqn:Hx; [|discriminate].
    exists (advance x s' c). split; [now apply M_one|exact H].
  - apply many_sound in H. now rewrite cursor_eta in H.
  - destruct (at_boundary c) eqn:Hb; [|discriminate].
    exists c. split; [now constructor|exact H].
  - apply IH1 in H as [c1 [H1 H]]. apply IH2 in H as [c2 [H2 H]].
    exists c2. split; [econstructor; eassumption|exact H].
  - destruct (run icase r1 c k) eqn:E1; simpl in H.
    + injection H as ->. apply IH1 in E1 as [c' [H1 Hk]].
      exists c'. split; [now apply M_alt_l|exact Hk].
    + apply IH2 in H as [c' [H2 Hk]].
      exists c'. split; [now apply M_alt_r|exact Hk].
  - apply IH1 in H as [c' [H1 Hk]].
    eexists. split; [apply M_grp; exact H1|exact Hk].
  - destruct (run icase r1 c Some) as [c1|] eqn:E1; [|discriminate].
    apply IH1 in E1 as [c' [H1 Hk]]. injection Hk as ->.
    eexists. split; [apply M_ahead; exact H1|exact H].
Qed.

(** *** A replacement that writes the match back *)

Lemma search_sound icase r : forall s must_advance skipped g b n sk c e,
  search_in icase r must_advance skipped g b n s = Some (sk, c, e) ->
  exists sk',
    sk = skipped ++ sk' /\ s = sk' ++ rest c /\ pos c = n + String.length sk'
    /\ groups c = g /\ matches icase r c e.
Proof.
  induction s as [|x s IH]; intros ma skipped g b n sk c e H;
    cbn [search_in] in H.
  - destruct (match_at icase r ma (Cursor b n EmptyString g)) as [e'|] eqn:E;
      [|discriminate].
    injection H as <- <- <-. exists EmptyString.
    rewrite append_nil_r. simpl. repeat split; try lia.
    unfold match_at in E. apply run_sound in E as [c' [Hm Hk]].
    destruct (ma && _); [discriminate|]. now injection Hk as <-.
  - destruct (match_at icase r ma (Cursor b n (String x s) g)) as [e'|] eqn:E.
    + injection H as <- <- <-. exists EmptyString.
      rewrite append_nil_r. simpl. repeat split; try lia.
      unfold match_at in E. apply run_sound in E as [c' [Hm Hk]].
      destruct (ma && _); [discriminate|]. now injection Hk as <-.
    + apply IH in H as [sk' [-> [Hs [Hp [Hg Hm]]]]].
      exists (String x sk'). rewrite append_assoc. simpl.
      repeat split; try assumption; [now rewrite <- Hs|lia].
Qed.

Section WriteBack.

Variables (icase : bool) (r : regex) (repl : (nat -> string) -> res string).
Variable text : string.
Variable ok : string -> bool.

Hypothesis ok_suffix : forall a b, ok (a ++ b) = true -> ok b = true.

(** Every match in an [ok] text is not empty and is replaced by itself. *)
Hypothesis writes_back : forall pre c e,
  text = pre ++ rest c -> String.length pre = pos c -> groups c = [] ->
  ok (rest c) = true -> matches icase r c e ->
  exists m, m <> EmptyString /\ rest c = m ++ rest e
            /\ pos e = pos c + String.length m
            /\ repl (group text c e) = Ok m.


End WriteBack.

(** *** Reading a match *)

Lemma matches_one icase a c c' :
  matches icase (One a) c c' ->
  exists x, accepts icase a x = true
            /\ reads c c' (String x EmptyString) /\ same_groups c c'.
Proof.
  intros H. inversion H as [|a' x s' c0 E Hx| | | | | | | |]; subst.
  exists x. unfold reads, same_groups. simpl. repeat split; auto; lia.
Qed.

Lemma matches_many icase greedy a c c' :
  matches icase (Many greedy a) c c' ->
  exists m, all_c (accepts icase a) m = true
            /\ reads c c' m /\ same_groups c c'.
Proof.
  intros H. remember (Many greedy a) as r eqn:Er.
  induction H as [| |g' a' c|g' a' x s' c c' E Hx H IH| | | | | |];
    try discriminate; injection Er as -> ->.
  - exists EmptyString. unfold reads, same_groups. simpl.
    repeat split; auto; lia.
  - destruct (IH eq_refl) as [m [Hm [[Hr Hp] Hg]]].
    exists (String x m). unfold reads, same_groups in *. simpl in *.
    rewrite Hx, Hm, E, Hr, Hp, Hg. repeat split; auto; lia.
Qed.

Lemma matches_cat icase r1 r2 c c' :
  matches icase (Cat r1 r2) c c' ->
  exists c1, matches icase r1 c c1 /\ matches icase r2 c1 c'.
Proof. intros H. inversion H; subst. eauto. Qed.

Lemma matches_alt icase r1 r2 c c' :
  matches icase (Alt r1 r2) c c' ->
  matches icase r1 c c' \/ matches icase r2 c c'.
Proof. intros H. inversion H; subst; auto. Qed.

Lemma matches_grp icase n r c c' :
  matches icase (Grp n r) c c' ->
  exists c1, matches icase r c c1
             /\ c' = with_groups c1 ((n, (pos c, pos c1)) :: groups c1).
Proof. intros H. inversion H; subst. eauto. Qed.

(** A literal word, case-sensitive. *)
Lemma matches_lit w : forall c c',
  matches false (Lit w) c c' -> reads c c' w /\ same_groups c c'.
Proof.
  induction w as [|x w IH]; intros c c' H.
  - inversion H; subst. unfold reads, same_groups. simpl.
    repeat split; auto; lia.
  - assert (Hone : forall c c', matches false (One (AChar x)) c c' ->
                     reads c c' (String x EmptyString) /\ same_groups c c').
    { intros d d' Hd. apply matches_one in Hd as [y [Hy [Hr Hg]]].
      simpl in Hy. apply Ascii.eqb_eq in Hy. now subst y. }
    destruct w as [|y w].
    + now apply Hone.
    + change (Lit (String x (String y w)))
        with (Cat (One (AChar x)) (Lit (String y w))) in H.
      apply matches_cat in H as [c1 [H1 H2]].
      apply Hone in H1 as [[Hr1 Hp1] Hg1].
      apply IH in H2 as [[Hr2 Hp2] Hg2].
      unfold reads, same_groups in *. simpl in *.
      rewrite Hr1, Hr2, Hp2, Hp1, Hg2, Hg1. repeat split; auto; lia.
Qed.

Lemma reads_trans a b c m m' :
  reads a b m -> reads b c m' -> reads a c (m ++ m').
Proof.
  unfold reads. intros [Hr Hp] [Hr' Hp'].
  rewrite Hr, Hr', Hp', Hp, length_append, append_assoc.
  split; [reflexivity|lia].
Qed.

(** *** The fuel of [sub] *)

(** A match reads a piece of the text ahead. *)
Lemma matches_reads icase r c c' :
  matches icase r c c' -> exists m, reads c c' m.
Proof.
  induction 1 as [c|a x s' c E Hx|greedy a c|greedy a x s' c c' E Hx H IH
                 |c Hb|r1 r2 c1 c2 c3 H1 IH1 H2 IH2|r1 r2 c c' H IH
                 |r1 r2 c c' H IH|n r c c' H IH|r c c' H IH].
  - exists EmptyString. unfold reads. simpl. split; [reflexivity|lia].
  - exists (String x EmptyString). unfold reads. simpl. split; [exact E|lia].
  - exists EmptyString. unfold reads. simpl. split; [reflexivity|lia].
  - destruct IH as [m [Hr Hp]]. exists (String x m).
    unfold reads in *. simpl in *. rewrite E, Hr, Hp. split; [reflexivity|lia].
  - exists EmptyString. unfold reads. simpl. split; [reflexivity|lia].
  - destruct IH1 as [m1 R1], IH2 as [m2 R2].
    exists (m1 ++ m2). now apply reads_trans with c2.
  - exact IH.
  - exact IH.
  - destruct IH as [m R]. exists m. exact R.
  - exists EmptyString. unfold reads. simpl. split; [reflexivity|lia].
Qed.

(** What [search] finds: the match, how far it is, and that a match asked
    to advance is not empty where the search starts. *)
Lemma search_advances icase r : forall s must_advance skipped g b n sk c e,
  search_in icase r must_advance skipped g b n s = Some (sk, c, e) ->
  exists sk' m,
    s = sk' ++ m ++ rest e
    /\ rest c = m ++ rest e
    /\ pos c = n + String.length sk'
    /\ pos e = pos c + String.length m
    /\ (must_advance = true -> sk' = EmptyString -> m <> EmptyString).
Proof.
  intros s ma skipped g b n sk c e H.
  assert (Hfirst : forall cur, match_at icase r ma cur = Some e ->
            exists m, rest cur = m ++ rest e
                      /\ pos e = pos cur + String.length m
                      /\ (ma = true -> m <> EmptyString)).
  { intros cur E. unfold match_at in E.
    apply run_sound in E as [c' [Hm Hk]].
    destruct (ma && Nat.eqb (pos c') (pos cur)) eqn:Hadv; [discriminate|].
    injection Hk as ->.
    destruct (matches_reads _ _ _ _ Hm) as [m [Hr Hp]].
    exists m. repeat split; try assumption.
    intros -> ->. simpl in Hp, Hadv. rewrite Hp, Nat.add_0_r in Hadv.
    now rewrite Nat.eqb_refl in Hadv. }
  revert ma skipped g b n sk c e H Hfirst.
  induction s as [|x s IH]; intros ma skipped g b n sk c e H Hfirst;
    cbn [search_in] in H.
  - destruct (match_at icase r ma (Cursor b n EmptyString g)) as [e'|] eqn:E;
      [|discriminate].
    injection H as <- <- <-.
    destruct (Hfirst _ E) as [m [Hr [Hp Hne]]].
    exists EmptyString, m. simpl in *. repeat split; auto; lia.
  - destruct (match_at icase r ma (Cursor b n (String x s) g)) as [e'|] eqn:E.
    + injection H as <- <- <-.
      destruct (Hfirst _ E) as [m [Hr [Hp Hne]]].
      exists EmptyString, m. simpl in *. repeat split; auto; lia.
    + apply search_sound in H as [sk' [-> [Hs [Hp [Hg Hm]]]]].
      destruct (matches_reads _ _ _ _ Hm) as [m [Hr Hpe]].
      exists (String x sk'), m. simpl. rewrite Hs, Hr.
      repeat split; try assumption; try lia. discriminate.
Qed.

Lemma search_fuel icase r ma b n s sk c e fuel :
  search_in icase r ma EmptyString [] b n s = Some (sk, c, e) ->
  2 * String.length s + (if ma then 1 else 2) <= S fuel ->
  2 * String.length (rest e) + (if Nat.eqb (pos e) (pos c) then 1 else 2)
  <= fuel.
Proof.
  intros E Hfuel.
  apply search_advances in E as [sk' [m [Hs [Hr [Hpc [Hpe Hadv]]]]]].
  rewrite Hs, !length_append in Hfuel.
  destruct (Nat.eqb_spec (pos e) (pos c)) as [Heq|Hne].
  - assert (m = EmptyString) as ->
        by (destruct m; [reflexivity|simpl in Hpe; lia]).
    simpl in Hfuel. destruct ma; [|lia].
    destruct sk' as [|y sk']; [now destruct (Hadv eq_refl eq_refl)|].
    simpl in Hfuel. lia.
  - destruct m as [|y m]; [simpl in Hpe; lia|]. simpl in Hfuel.
    destruct ma; lia.
Qed.

(** When the replacement never runs out of fuel, neither does [sub]. *)
Lemma sub_from_fuel icase r repl text
      (Hrepl : forall g, repl g <> OutOfFuel) fuel :
  forall (must_advance : bool) cur,
    2 * String.length (rest cur) + (if must_advance then 1 else 2) <= fuel ->
    sub_from fuel icase r repl text must_advance cur <> OutOfFuel.
Proof.
  induction fuel as [|fuel IH]; intros ma cur Hfuel.
  - destruct ma; lia.
  - cbn [sub_from]. unfold search.
    destruct (search_in icase r ma EmptyString [] (before cur) (pos cur)
                        (rest cur)) as [[[sk c] e]|] eqn:E; [|discriminate].
    pose proof (search_fuel _ _ _ _ _ _ _ _ _ _ E Hfuel) as Hnext.
    destruct (repl (group text c e)) as [out| |] eqn:Eo; cbn [bind];
      [|discriminate|now apply Hrepl in Eo].
    specialize (IH (Nat.eqb (pos e) (pos c))
                   (Cursor (before e) (pos e) (rest e) []) Hnext).
    destruct (sub_from fuel icase r repl text (Nat.eqb (pos e) (pos c))
                       (Cursor (before e) (pos e) (rest e) []));
      cbn [bind]; [discriminate|discriminate|exact IH].
Qed.

Lemma sub_returns icase r repl text :
  (forall g, repl g <> OutOfFuel) -> sub icase r repl text <> OutOfFuel.
Proof.
  intros H. unfold sub. apply sub_from_fuel; [exact H|].
  cbn [start_of rest]. lia.
Qed.

(** In a text without whitespace a match of the per-month pattern is
    digits, [Go] or [Mo], and [/mois]; what [per_month] builds from the
    groups is the match itself. *)



Lemma substring_prefix m tl :
  String.substring 0 (String.length m) (m ++ tl) = m.
Proof.
  induction m as [|x m IH]; simpl; [now destruct tl|now rewrite IH].
Qed.

Lemma slice_middle pre m tl a b :
  a = String.length pre -> b = a + String.length m ->
  slice a b (pre ++ m ++ tl) = m.
Proof.
  intros -> ->. unfold slice.
  replace (String.length pre + String.length m - String.length pre)
    with (String.length m) by lia.
  induction pre as [|x pre IH]; simpl; [apply substring_prefix|exact IH].
Qed.




(** *** A single token is left as it is *)

Lemma split_from_token s : forall cur,
  token s = true -> nonempty (cur ++ s) = true ->
  split_from cur s = [cur ++ s].
Proof.
  induction s as [|c s IH]; intros cur Hs Hne; cbn [split_from].
  - rewrite append_nil_r in *. now rewrite Hne.
  - apply free_cons in Hs as [Hc Hs]. rewrite Hc.
    rewrite IH; [|assumption|].
    + now rewrite append_assoc.
    + rewrite append_assoc. exact Hne.
Qed.

Lemma split_token x :
  token x = true -> split x = if nonempty x then [x] else [].
Proof.
  intros Hx. destruct x as [|c x]; [reflexivity|].
  unfold split. now rewrite split_from_token.
Qed.











(** *** The spans [normalize_codes] rewrites *)

Lemma matches_bnd icase c c' :
  matches icase Bnd c c' -> c' = c.
Proof. intros H. now inversion H. Qed.

(** A literal word under [re.IGNORECASE]. *)
Lemma matches_lit_icase w : forall c c',
  matches true (Lit w) c c' ->
  exists m, reads c c' m /\ same_groups c c' /\ lower m = lower w.
Proof.
  induction w as [|x w IH]; intros c c' H.
  - inversion H; subst. exists EmptyString. unfold reads, same_groups.
    simpl. repeat split; auto; lia.
  - assert (Hone : forall c c', matches true (One (AChar x)) c c' ->
              exists y, reads c c' (String y EmptyString)
                        /\ same_groups c c' /\ lower_c y = lower_c x).
    { intros d d' Hd. apply matches_one in Hd as [y [Hy [Hr Hg]]].
      simpl in Hy. apply Ascii.eqb_eq in Hy. eauto. }
    destruct w as [|y w].
    + apply Hone in H as [z [Hr [Hg Hz]]].
      exists (String z EmptyString). simpl. now rewrite Hz.
    + change (Lit (String x (String y w)))
        with (Cat (One (AChar x)) (Lit (String y w))) in H.
      apply matches_cat in H as [c1 [H1 H2]].
      apply Hone in H1 as [z [R1 [G1 Hz]]].
      apply IH in H2 as [m [R2 [G2 Hm]]].
      exists (String z m). split; [|split].
      * apply (reads_trans _ _ _ _ _ R1 R2).
      * unfold same_groups in *. congruence.
      * cbn [lower]. now rewrite Hz, Hm.
Qed.

Lemma matches_alts ws : forall c c',
  ws <> [] ->
  matches true (Alts (map Lit ws)) c c' ->
  exists m, reads c c' m /\ same_groups c c' /\ is_word_of ws m = true.
Proof.
  induction ws as [|w ws IH]; intros c c' Hne H; [contradiction|].
  assert (Hw : matches true (Lit w) c c' ->
               exists m, reads c c' m /\ same_groups c c'
                         /\ is_word_of (w :: ws) m = true).
  { intros Hl. apply matches_lit_icase in Hl as [m [R [G Hm]]].
    exists m. split; [exact R|]. split; [exact G|].
    unfold is_word_of, mem. cbn [map existsb].
    now rewrite Hm, String.eqb_refl. }
  destruct ws as [|w' ws]; [now apply Hw|].
  change (Alts (map Lit (w :: w' :: ws)))
    with (Alt (Lit w) (Alts (map Lit (w' :: ws)))) in H.
  apply matches_alt in H as [H|H]; [now apply Hw|].
  apply IH in H as [m [R [G Hm]]]; [|discriminate].
  exists m. split; [exact R|]. split; [exact G|].
  unfold is_word_of, mem in *. cbn [map existsb] in *.
  apply orb_true_iff. now right.
Qed.

Lemma matches_plus icase a c c' :
  matches icase (Plus a) c c' ->
  exists m, m <> EmptyString /\ all_c (accepts icase a) m = true
            /\ reads c c' m /\ same_groups c c'.
Proof.
  intros H. apply matches_cat in H as [c1 [H1 H2]].
  apply matches_one in H1 as [x [Hx [R1 G1]]].
  apply matches_many in H2 as [m [Hm [R2 G2]]].
  exists (String x m). split; [discriminate|]. split; [simpl; now rewrite Hx|].
  split; [apply (reads_trans _ _ _ _ _ R1 R2)|].
  unfold same_groups in *. congruence.
Qed.

(** A match of a code pattern is a marker, whitespace, a content without
    newline, whitespace and a marker; the replacement is the converted
    content between two symbols. *)
Lemma code_span ws symbol text pre c e :
  ws <> [] ->
  text = pre ++ rest c -> String.length pre = pos c ->
  matches true (code_pattern (Alts (map Lit ws))) c e ->
  exists m1 s1 content s2 m2,
    rest c = m1 ++ s1 ++ content ++ s2 ++ m2 ++ rest e
    /\ is_word_of ws m1 = true /\ is_word_of ws m2 = true
    /\ s1 <> EmptyString /\ all_c isspace_c s1 = true
    /\ s2 <> EmptyString /\ all_c isspace_c s2 = true
    /\ replace_code symbol (group text c e)
       = (normalized <- convert_to_number content ;;
          Ok (symbol ++ normalized ++ symbol)).
Proof.
  intros Hne Ht Hp H. unfold code_pattern in H. cbn [Seq] in H.
  apply matches_cat in H as [c0 [H0 H]]. apply matches_bnd in H0 as ->.
  apply matches_cat in H as [c1 [H1 H]].
  apply matches_cat in H as [c2 [H2 H]].
  apply matches_cat in H as [c3 [H3 H]].
  apply matches_cat in H as [c4 [H4 H]].
  apply matches_cat in H as [c5 [H5 H6]]. apply matches_bnd in H6 as ->.
  apply matches_grp in H1 as [ca [H1 ->]].
  apply matches_alts in H1 as [m1 [R1 [G1 W1]]]; [|assumption].
  apply matches_plus in H2 as [s1 [N1 [S1 [R2 G2]]]].
  apply matches_grp in H3 as [cb [H3 ->]].
  apply matches_many in H3 as [content [_ [R3 G3]]].
  apply matches_plus in H4 as [s2 [N2 [S2 [R4 G4]]]].
  apply matches_grp in H5 as [cd [H5 ->]].
  apply matches_alts in H5 as [m2 [R5 [G5 W2]]]; [|assumption].
  exists m1, s1, content, s2, m2.
  unfold reads, same_groups in *. cbn [with_groups rest pos groups] in *.
  destruct R1 as [R1 P1], R2 as [R2 P2], R3 as [R3 P3], R4 as [R4 P4],
    R5 as [R5 P5].
  assert (Hrest : rest c = m1 ++ s1 ++ content ++ s2 ++ m2 ++ rest cd).
  { now rewrite R1, R2, R3, R4, R5. }
  repeat (split; [assumption|]).
  unfold replace_code, group.
  cbn [with_groups groups find fst Nat.eqb]. rewrite G5, G4.
  cbn [find fst Nat.eqb]. rewrite Ht, Hrest.
  replace (pre ++ m1 ++ s1 ++ content ++ s2 ++ m2 ++ rest cd)
    with ((pre ++ m1 ++ s1) ++ content ++ s2 ++ m2 ++ rest cd)
    by (now rewrite !append_assoc).
  rewrite slice_middle; [reflexivity| |];
    rewrite ?length_append; lia.
Qed.

Lemma matches_ahead icase r c c' :
  matches icase (Ahead r) c c' ->
  exists c1, matches icase r c c1 /\ rest c' = rest c /\ pos c' = pos c.
Proof. intros H. inversion H; subst. eauto. Qed.

(** A match of a service pattern is the service word and whitespace,
    standing before a marker word. *)
Lemma service_span w c e :
  matches true (service_pattern w) c e ->
  exists m s mk tail,
    rest c = m ++ s ++ rest e
    /\ lower m = lower w
    /\ s <> EmptyString /\ all_c isspace_c s = true
    /\ rest e = mk ++ tail
    /\ is_word_of ["dièse"; "diese"; "hash"; "étoile"; "star"] mk = true.
Proof.
  intros H. unfold service_pattern in H. cbn [Seq] in H.
  apply matches_cat in H as [c0 [H0 H]]. apply matches_bnd in H0 as ->.
  apply matches_cat in H as [c1 [H1 H]].
  apply matches_cat in H as [c2 [H2 H3]].
  apply matches_lit_icase in H1 as [m [[R1 _] [_ Hm]]].
  apply matches_plus in H2 as [s [Ns [Hs [[R2 _] _]]]].
  apply matches_ahead in H3 as [c3 [H3 [R3 _]]].
  apply matches_grp in H3 as [c4 [H3 _]].
  apply (matches_alts ["dièse"; "diese"; "hash"; "étoile"; "star"])
    in H3 as [mk [[R4 _] [_ Hmk]]]; [|discriminate].
  exists m, s, mk, (rest c4).
  rewrite R3. repeat (split; [congruence || assumption|]). assumption.
Qed.

(** The first span a pattern finds in a text. *)
Lemma first_match icase r text sk c e :
  search icase r false (start_of text) = Some (sk, c, e) ->
  text = sk ++ rest c /\ String.length sk = pos c /\ groups c = []
  /\ matches icase r c e.
Proof.
  unfold search. cbn [start_of before pos rest]. intros H.
  apply search_sound in H as [sk' [-> [Ht [Hp [Hg Hm]]]]].
  simpl in *. auto.
Qed.

End Matching.

(** ** Texts without superscript digits

    On a text that holds none of ², ³ and ¹ every [isdigit] guard is as
    good as [isdecimal], no index is out of range and every loop ends:
    each stage returns, and returns such a text again. *)

Section Plain.

(** *** The converter *)

Lemma fine_bind r k :
  fine r -> (forall t, plain t = true -> fine (k t)) -> fine (bind r k).
Proof. intros [t [-> Ht]] Hk. cbn [bind]. now apply Hk. Qed.

Lemma fine_ok t : plain t = true -> fine (Ok t).
Proof. intros H. now exists t. Qed.

Lemma plain_app a b : plain (a ++ b) = plain a && plain b.
Proof. apply all_c_app. Qed.

Lemma join_plain sep l :
  plain sep = true -> all_plain l ->
  plain (join sep l) = true.
Proof.
  intros Hsep. unfold join.
  induction l as [|x l IH]; intros H; [reflexivity|].
  apply Forall_cons_iff in H as [Hx Hl].
  destruct l as [|y l]; [exact Hx|].
  change (String.concat sep (x :: y :: l))
    with (x ++ sep ++ String.concat sep (y :: l)).
  now rewrite !plain_app, Hx, Hsep, (IH Hl).
Qed.

Lemma classify_all_returns parts : forall numbers other_words,
  all_plain parts ->
  all_plain other_words ->
  exists numbers' other_words',
    classify_all (numbers, other_words) parts = Ok (numbers', other_words')
    /\ all_plain other_words'.
Proof.
  induction parts as [|part parts IH]; intros numbers other_words Hok Ho;
    cbn [classify_all]; [eauto|].
  apply Forall_cons_iff in Hok as [Hp Hok].
  unfold classify. destruct (isdigit part) eqn:Hd.
  - destruct (int_decimal part (plain_good part Hp Hd)) as [n [-> _]].
    cbn [bind]. now apply IH.
  - destruct (String.eqb part "dërëm" && negb (length numbers =? 0)%nat)
      eqn:Hc.
    + apply andb_true_iff in Hc as [_ Hc]. unfold times5_last.
      destruct (rev numbers) as [|n front] eqn:Hrev; cbn [bind];
        [|now apply IH].
      apply (f_equal (@rev Z)) in Hrev. rewrite rev_involutive in Hrev.
      subst numbers. discriminate Hc.
    + cbn [bind]. apply IH; [exact Hok|].
      apply Forall_app. split; [exact Ho|]. now constructor.
Qed.

Lemma combine_step_returns numbers i result_numbers :
  (i < length numbers)%nat ->
  exists i' out,
    combine_step numbers i result_numbers = Ok (i', out)
    /\ (i < i' <= length numbers)%nat.
Proof.
  intros Hi. unfold combine_step. read_index numbers i Hi.
  destruct (i + 1 <? length numbers)%nat eqn:H1;
    [|eexists _, _; split; [reflexivity|lia]].
  apply Nat.ltb_lt in H1. read_index numbers (i + 1)%nat H1.
  destruct ((100 <=? w0) && (w <? w0));
    eexists _, _; (split; [reflexivity|lia]).
Qed.

Lemma combine_loop_returns fuel : forall numbers i result_numbers,
  (length numbers - i <= fuel)%nat ->
  exists out, combine_loop fuel numbers i result_numbers = Ok out.
Proof.
  induction fuel as [|fuel IH]; intros numbers i result_numbers Hfuel;
    cbn [combine_loop].
  - replace (i <? length numbers)%nat with false
      by (symmetry; apply Nat.ltb_ge; lia).
    eauto.
  - destruct (i <? length numbers)%nat eqn:Hi; [|eauto].
    apply Nat.ltb_lt in Hi.
    destruct (combine_step_returns numbers i result_numbers Hi)
      as [i' [out [-> Hb]]].
    cbn [bind]. apply IH. lia.
Qed.

Lemma calculate_from_parts_fine parts :
  all_plain parts -> fine (calculate_from_parts parts).
Proof.
  intros Hok. unfold calculate_from_parts.
  destruct (ak_loop_ends (fun t => plain t = true) (length parts)
              (fun t H => H) plain_good parts (le_n _) Hok)
    as [parts' [-> [_ Hok']]].
  cbn [bind].
  destruct (classify_all_returns parts' [] [] Hok' (Forall_nil _))
    as [numbers [other_words [-> Ho]]].
  cbn [bind].
  destruct (length numbers =? 0)%nat.
  { eexists. split; [reflexivity|]. now apply join_plain. }
  destruct (combine_loop_returns (length numbers) numbers 0 [])
    as [result_numbers ->]; [lia|].
  cbn [bind].
  destruct (negb (length other_words =? 0)%nat);
    (eexists; split; [reflexivity|]); [|apply str_plain].
  now rewrite !plain_app, str_plain, join_plain.
Qed.

Lemma lower_c_plain c : superscript (lower_c c) = true -> superscript c = true.
Proof.
  destruct c as [[] [] [] [] [] [] [] []]; vm_compute; trivial.
Qed.

Lemma lower_plain s : plain s = true -> plain (lower s) = true.
Proof.
  unfold plain. induction s as [|c s IH]; simpl; [trivial|].
  intros H. apply andb_true_iff in H as [Hc Hs].
  rewrite (IH Hs), andb_true_r.
  destruct (superscript (lower_c c)) eqn:E; [|reflexivity].
  apply lower_c_plain in E. now rewrite E in Hc.
Qed.

Lemma split_from_plain s : forall cur,
  plain cur = true -> plain s = true ->
  all_plain (split_from cur s).
Proof.
  induction s as [|c s IH]; intros cur Hcur Hs; cbn [split_from].
  - destruct (nonempty cur); now repeat constructor.
  - unfold plain in Hs. simpl in Hs. apply andb_true_iff in Hs as [Hc Hs].
    destruct (isspace_c c).
    + destruct (nonempty cur); [constructor; [exact Hcur|]|];
        now apply IH.
    + apply IH; [|exact Hs]. rewrite plain_app, Hcur. unfold plain. simpl.
      now rewrite Hc.
Qed.

Lemma split_plain s :
  plain s = true -> all_plain (split s).
Proof. now apply split_from_plain. Qed.

(** [convert_to_number] returns on every text without a superscript
    digit, and what it returns has none. *)
Lemma convert_to_number_fine text :
  plain text = true -> fine (convert_to_number text).
Proof.
  intros H. unfold convert_to_number, convert_words.
  destruct (convert_loop_returns (fun t => plain t = true)
              (length (split (lower text))) (fun t H => H)
              (split (lower text)) 0 [])
    as [parts [-> Hok]];
    [lia|now apply split_plain, lower_plain|constructor|].
  cbn [bind]. now apply calculate_from_parts_fine.
Qed.

Local Open Scope nat_scope.

Lemma plain_cons c s :
  plain (String c s) = true <-> superscript c = false /\ plain s = true.
Proof.
  unfold plain. simpl. rewrite andb_true_iff, negb_true_iff. reflexivity.
Qed.

Lemma substring_plain s : forall a n,
  plain s = true -> plain (String.substring a n s) = true.
Proof.
  induction s as [|c s IH]; intros a n H; [now destruct a, n|].
  apply plain_cons in H as [Hc Hs].
  destruct a as [|a]; [|now apply IH].
  destruct n as [|n]; [reflexivity|]. simpl.
  apply plain_cons. split; [exact Hc|now apply IH].
Qed.

Lemma slice_plain a b s : plain s = true -> plain (slice a b s) = true.
Proof. apply substring_plain. Qed.

Lemma group_plain text s e n :
  plain text = true -> plain (group text s e n) = true.
Proof.
  intros H. unfold group. destruct n as [|n]; [now apply slice_plain|].
  destruct (find _ _) as [[? [a b]]|]; [now apply slice_plain|reflexivity].
Qed.

Lemma lstrip_plain s : plain s = true -> plain (lstrip s) = true.
Proof.
  induction s as [|c s IH]; [trivial|]. intros H. simpl.
  destruct (isspace_c c); [|exact H].
  apply plain_cons in H as [_ H]. now apply IH.
Qed.

Lemma reversed_plain s : plain (reversed s) = plain s.
Proof. apply all_c_reversed. Qed.

Lemma strip_plain s : plain s = true -> plain (strip s) = true.
Proof.
  intros H. unfold strip. rewrite reversed_plain. apply lstrip_plain.
  rewrite reversed_plain. now apply lstrip_plain.
Qed.

(** *** [re.sub] *)

Lemma sub_from_fine icase r repl text
      (Hrepl : forall g, (forall n, plain (g n) = true) -> fine (repl g))
      (Ht : plain text = true) fuel :
  forall (must_advance : bool) cur,
    plain (rest cur) = true ->
    2 * String.length (rest cur) + (if must_advance then 1 else 2) <= fuel ->
    fine (sub_from fuel icase r repl text must_advance cur).
Proof.
  induction fuel as [|fuel IH]; intros ma cur Hp Hfuel.
  - destruct ma; lia.
  - cbn [sub_from]. unfold search.
    destruct (search_in icase r ma EmptyString [] (before cur) (pos cur)
                        (rest cur)) as [[[sk c] e]|] eqn:E;
      [|now apply fine_ok].
    pose proof (search_fuel _ _ _ _ _ _ _ _ _ _ E Hfuel) as Hnext.
    assert (Hsk : plain sk = true /\ plain (rest e) = true).
    { pose proof E as E'.
      apply search_sound in E as [sk1 [-> [Hs _]]].
      apply search_advances in E' as [sk2 [m [Hs2 _]]].
      split.
      - rewrite Hs, plain_app in Hp. simpl.
        now apply andb_true_iff in Hp as [Hp _].
      - rewrite Hs2, !plain_app in Hp.
        now apply andb_true_iff in Hp as [_ Hp];
          apply andb_true_iff in Hp as [_ Hp]. }
    destruct Hsk as [Hsk He].
    apply fine_bind; [apply Hrepl; intros n; now apply group_plain|].
    intros out Hout.
    apply fine_bind; [now apply IH|].
    intros tail Htail. apply fine_ok.
    now rewrite !plain_app, Hsk, Hout, Htail.
Qed.

(** [re.sub] returns a plain text on a plain text when the replacement
    does so on plain groups. *)
Lemma sub_fine icase r repl text :
  (forall g, (forall n, plain (g n) = true) -> fine (repl g)) ->
  plain text = true -> fine (sub icase r repl text).
Proof.
  intros Hrepl Ht. unfold sub. apply sub_from_fine; try assumption.
  cbn [start_of rest]. lia.
Qed.

Lemma for_each_fine {A} (l : list A) f :
  (forall x t, In x l -> plain t = true -> fine (f x t)) ->
  forall t, plain t = true -> fine (for_each l f t).
Proof.
  induction l as [|x l IH]; intros Hf t Ht; cbn [for_each].
  - now apply fine_ok.
  - apply fine_bind; [apply Hf; [now left|exact Ht]|].
    apply IH. intros y t' Hy. apply Hf. now right.
Qed.

(** *** The stages of the pipeline *)

Lemma normalize_codes_fine order text :
  plain text = true -> fine (normalize_codes order text).
Proof.
  intros Ht. unfold normalize_codes.
  apply fine_bind.
  - unfold strip_service_words. apply for_each_fine; [|exact Ht].
    intros word t _ Hp. apply sub_fine; [|exact Hp].
    intros g _. now apply fine_ok.
  - intros t Hp. unfold rewrite_codes. apply for_each_fine; [|exact Hp].
    intros [pattern symbol] t' Hin Hp'. apply sub_fine; [|exact Hp'].
    intros g Hg. unfold replace_code.
    apply fine_bind; [apply convert_to_number_fine, Hg|].
    intros out Hout. apply fine_ok. rewrite !plain_app, Hout.
    destruct Hin as [[= <- <-]|[[= <- <-]|[]]]; reflexivity.
Qed.

(** Phone numbers. *)

Lemma phone_part_plain word p :
  plain word = true -> phone_part word = Part p -> plain p = true.
Proof.
  intros Hw. unfold phone_part.
  destruct (isdigit word); [now intros [= <-]|].
  destruct (lookup french_ones word); [intros [= <-]; apply str_plain|].
  destruct (lookup french_tens word); [intros [= <-]; apply str_plain|].
  destruct (String.eqb word "cent"); [discriminate|].
  destruct (mem word ["et"; "-"]); discriminate.
Qed.

Lemma index_plain words i w :
  all_plain words -> index words i = Ok w -> plain w = true.
Proof.
  intros Hw. unfold index.
  destruct (nth_error words i) as [a|] eqn:E; [|discriminate].
  intros [= <-]. apply nth_error_In in E.
  now apply (proj1 (Forall_forall _ words) Hw).
Qed.

Lemma collect_plain fuel : forall words j phone_parts j' phone_parts',
  all_plain words -> all_plain phone_parts ->
  collect fuel words j phone_parts = Ok (j', phone_parts') ->
  all_plain phone_parts'.
Proof.
  induction fuel as [|fuel IH]; intros words j parts j' parts' Hw Hp;
    cbn [collect].
  - destruct (_ && _); [discriminate|]. now intros [= <- <-].
  - destruct (_ && _); [|now intros [= <- <-]].
    destruct (index words j) as [word| |] eqn:E; cbn [bind];
      try discriminate.
    destruct (phone_part word) as [p| |] eqn:Ep.
    + apply IH; [exact Hw|]. apply Forall_app. split; [exact Hp|].
      constructor; [|constructor].
      apply (phone_part_plain word p); [|exact Ep].
      now apply (index_plain words j).
    + now apply IH.
    + now intros [= <- <-].
Qed.

Lemma phone_digits_plain parts :
  all_plain parts -> all_plain (phone_digits parts).
Proof.
  induction 1 as [|part parts Hp Hparts IH]; simpl; [constructor|].
  destruct (phone_digit part); now constructor.
Qed.

Lemma format_phone_plain s : plain s = true -> plain (format_phone s) = true.
Proof.
  intros H. unfold format_phone.
  destruct (String.length s =? 9);
    now rewrite !plain_app, !slice_plain.
Qed.

Lemma nth_plain words i :
  all_plain words -> plain (nth i words EmptyString) = true.
Proof.
  intros Hw. destruct (Nat.lt_ge_cases i (length words)) as [H|H].
  - now apply (proj1 (Forall_nth _ words) Hw).
  - now rewrite nth_overflow.
Qed.

Lemma phone_loop_plain fuel : forall words i result out,
  all_plain words -> all_plain result ->
  phone_loop fuel words i result = Ok out -> all_plain out.
Proof.
  induction fuel as [|fuel IH]; intros words i result out Hw Hr;
    cbn [phone_loop].
  - destruct (i <? length words); [discriminate|]. now intros [= <-].
  - destruct (i <? length words) eqn:Hi; [|now intros [= <-]].
    apply Nat.ltb_lt in Hi.
    destruct (phone_step_run words i result Hi)
      as [j [parts [E [_ [_ [_ ->]]]]]].
    apply collect_plain in E; [|exact Hw|constructor].
    destruct (qualifies parts); cbn [bind]; apply IH; try exact Hw;
      apply Forall_app; (split; [exact Hr|]); (constructor; [|constructor]).
    + apply format_phone_plain, join_plain; [reflexivity|].
      now apply phone_digits_plain.
    + now apply nth_plain.
Qed.

Lemma normalize_phone_numbers_fine text :
  plain text = true -> fine (normalize_phone_numbers text).
Proof.
  intros Ht. unfold normalize_phone_numbers.
  destruct (phone_loop_returns (length (split text)) (split text) 0 [])
    as [out E]; [lia|].
  rewrite E. cbn [bind]. apply fine_ok, join_plain; [reflexivity|].
  apply (phone_loop_plain _ _ _ _ _ (split_plain text Ht) (Forall_nil _) E).
Qed.

(** Data volumes. *)

Lemma normalize_data_fine text :
  plain text = true -> fine (normalize_data text).
Proof.
  assert (Hmonth : forall g, (forall n, plain (g n) = true) ->
                             fine (per_month g)).
  { intros g Hg. apply fine_ok. now rewrite !plain_app, !Hg. }
  intros Ht. unfold normalize_data.
  apply fine_bind.
  - apply sub_fine; [|exact Ht]. intros g Hg. unfold replace_data.
    apply fine_bind; [apply convert_to_number_fine, strip_plain, Hg|].
    intros qty Hqty. apply fine_ok. rewrite plain_app, Hqty.
    destruct (mem _ _); [reflexivity|].
    destruct (mem _ _); [reflexivity|]. apply lower_plain, Hg.
  - intros t Hp. apply fine_bind; [now apply sub_fine|].
    intros t' Hp'. now apply sub_fine.
Qed.

(** Amounts. *)

Lemma lslice_plain a b l : all_plain l -> all_plain (lslice a b l).
Proof.
  intros H. unfold lslice.
  rewrite <- (firstn_skipn a l) in H. apply Forall_app in H as [_ H].
  rewrite <- (firstn_skipn (b - a) (skipn a l)) in H.
  now apply Forall_app in H as [H _].
Qed.

Lemma split_from_cons s : forall cur,
  nonempty cur = true -> split_from cur s <> [].
Proof.
  induction s as [|c s IH]; intros cur Hcur; cbn [split_from].
  - now rewrite Hcur.
  - destruct (isspace_c c); [now rewrite Hcur|].
    apply IH. now destruct cur.
Qed.

Lemma split_from_nil s : forall cur,
  split_from cur s = [] -> all_c isspace_c s = true.
Proof.
  induction s as [|c s IH]; intros cur; cbn [split_from]; [reflexivity|].
  simpl. destruct (isspace_c c).
  - destruct (nonempty cur); [discriminate|apply IH].
  - intros H. apply split_from_cons in H; [contradiction|].
    now destruct cur.
Qed.

Lemma contains_derem s :
  contains "dërëm" s = true -> all_c isspace_c s = false.
Proof.
  induction s as [|c s IH]; cbn [contains]; [discriminate|].
  intros H. apply orb_true_iff in H as [H|H]; simpl.
  - unfold String.prefix in H.
    destruct (ascii_dec "d" c) as [<-|]; [reflexivity|discriminate].
  - rewrite (IH H). apply andb_false_r.
Qed.

Lemma convert_amount_fine amount :
  plain amount = true -> fine (convert_amount amount).
Proof.
  intros Ha. unfold convert_amount.
  destruct (contains "dërëm" amount) eqn:Hc;
    [|now apply convert_to_number_fine].
  assert (Hw : split amount <> []).
  { intros E. apply split_from_nil in E.
    apply contains_derem in Hc. congruence. }
  rewrite (last_item_last _ Hw). cbn [bind].
  destruct (_ && _); [|now apply convert_to_number_fine].
  apply fine_bind.
  { apply convert_to_number_fine, join_plain; [reflexivity|].
    now apply lslice_plain, split_plain. }
  intros base Hb. destruct (isdigit base) eqn:Hd; [|now apply fine_ok].
  destruct (int_decimal base (plain_good base Hb Hd)) as [n [-> _]].
  cbn [bind]. apply fine_ok, str_plain.
Qed.

Lemma format_with_spaces_plain s :
  plain s = true -> plain (_format_with_spaces s) = true.
Proof.
  intros H. unfold _format_with_spaces.
  destruct (String.length s <=? 3); [exact H|].
  rewrite reversed_plain. apply join_plain; [reflexivity|].
  apply Forall_forall. intros x Hx. apply in_map_iff in Hx as [i [<- _]].
  apply slice_plain. now rewrite reversed_plain.
Qed.

Lemma format_amount_plain normalized currency :
  plain normalized = true -> plain currency = true ->
  plain (format_amount normalized currency) = true.
Proof.
  intros Hn Hc. unfold format_amount.
  destruct (_ && _); rewrite !plain_app, Hc, ?format_with_spaces_plain, ?Hn;
    trivial.
Qed.

(** The word scan of [__call__]. *)

Lemma find_currency_returns words : forall js,
  (forall j, In j js -> j < length words) ->
  exists found,
    find_currency words js = Ok found
    /\ match found with
       | Some (idx, ty) =>
           (exists j, In j js /\ j <= idx) /\ idx < length words
           /\ plain ty = true
       | None => True
       end.
Proof.
  induction js as [|j js IH]; intros Hjs; cbn [find_currency].
  - now exists None.
  - assert (Hj : j < length words) by (apply Hjs; now left).
    assert (Hrec : exists found,
               find_currency words js = Ok found
               /\ match found with
                  | Some (idx, ty) =>
                      (exists j', In j' (j :: js) /\ j' <= idx)
                      /\ idx < length words /\ plain ty = true
                  | None => True
                  end).
    { destruct IH as [found [E H]]; [intros j' H; apply Hjs; now right|].
      exists found. split; [exact E|].
      destruct found as [[idx ty]|]; [|trivial].
      destruct H as [[j' [Hin Hle]] H]. split; [|exact H].
      exists j'. split; [now right|exact Hle]. }
    read_index words j Hj.
    destruct (mem (lower w) ["francs"; "franc"; "f"]).
    { eexists. split; [reflexivity|].
      split; [exists j; split; [now left|lia]|]. now split. }
    destruct (mem (lower w) ["fcfa"]) eqn:Hf; cbn [bind].
    { eexists. split; [reflexivity|].
      unfold mem in Hf. simpl in Hf. rewrite orb_false_r in Hf.
      apply String.eqb_eq in Hf. rewrite Hf.
      change (String.eqb "fcfa" "francs") with false. cbv iota.
      split; [exists j; split; [now left|lia]|]. now split. }
    destruct ((j + 1 <? length words) && String.eqb (lower w) "francs")
      eqn:Hc; cbn [and_then bind]; [|exact Hrec].
    apply andb_true_iff in Hc as [H1 Hfr]. apply Nat.ltb_lt in H1.
    read_index words (j + 1) H1.
    destruct (String.eqb (lower w0) "cfa"); [|exact Hrec].
    eexists. split; [reflexivity|]. rewrite Hfr.
    split; [exists j; split; [now left|lia]|]. now split.
Qed.

Lemma currency_step_returns words i result :
  i < length words -> all_plain words -> all_plain result ->
  exists i' result',
    currency_step words i result = Ok (i', result')
    /\ i < i' /\ all_plain result'.
Proof.
  intros Hi Hw Hr. unfold currency_step.
  assert (Hplain : exists i' result',
             (w <- index words i ;; Ok (i + 1, (result ++ [w])%list))
             = Ok (i', result')
             /\ i < i' /\ all_plain result').
  { read_index words i Hi. eexists _, _. split; [reflexivity|].
    split; [lia|]. apply Forall_app. split; [exact Hr|].
    constructor; [|constructor].
    now apply (proj1 (Forall_forall _ words) Hw). }
  destruct (i + 1 <? length words); [|exact Hplain].
  destruct (find_currency_returns words
              (seq (i + 1) (Nat.min (i + 6) (length words) - (i + 1))))
    as [found [-> Hfound]].
  { intros j Hj. apply in_seq in Hj. lia. }
  cbn [bind]. destruct found as [[idx ty]|]; [|exact Hplain].
  destruct Hfound as [[j [Hj Hle]] [Hidx Hty]]. apply in_seq in Hj.
  destruct (convert_amount_fine (join " " (lslice i idx words)))
    as [normalized [-> Hn]].
  { apply join_plain; [reflexivity|now apply lslice_plain]. }
  cbn [bind].
  assert (exists b,
             and_then (String.eqb ty "FCFA" && (idx <? length words))
               (w <- index words (idx - 1) ;;
                Ok (String.eqb (lower w) "francs"))
             = Ok b) as [b ->].
  { destruct (_ && _); cbn [and_then]; [|eauto].
    assert (H1 : idx - 1 < length words) by lia.
    read_index words (idx - 1) H1. eauto. }
  cbn [bind]. exists (idx + 1), (result ++ [format_amount normalized ty])%list.
  split; [now destruct b|]. split; [lia|].
  apply Forall_app. split; [exact Hr|]. constructor; [|constructor].
  now apply format_amount_plain.
Qed.

Lemma currency_loop_returns fuel : forall words i result,
  length words - i <= fuel -> all_plain words -> all_plain result ->
  exists out, currency_loop fuel words i result = Ok out /\ all_plain out.
Proof.
  induction fuel as [|fuel IH]; intros words i result Hfuel Hw Hr;
    cbn [currency_loop].
  - replace (i <? length words) with false
      by (symmetry; apply Nat.ltb_ge; lia).
    now exists result.
  - destruct (i <? length words) eqn:Hi; [|now exists result].
    apply Nat.ltb_lt in Hi.
    destruct (currency_step_returns words i result Hi Hw Hr)
      as [i' [result' [-> [Hlt Hr']]]].
    cbn [bind]. apply IH; [lia|exact Hw|exact Hr'].
Qed.

Lemma after_codes_fine text : plain text = true -> fine (after_codes text).
Proof.
  intros Ht. unfold after_codes.
  apply fine_bind; [now apply normalize_phone_numbers_fine|].
  intros t1 H1. apply fine_bind; [now apply normalize_data_fine|].
  intros t2 H2.
  destruct (currency_loop_returns (length (split t2)) (split t2) 0 [])
    as [result [-> Hr]]; [lia|now apply split_plain|constructor|].
  cbn [bind]. apply fine_bind.
  - apply sub_fine; [intros g _; now apply fine_ok|].
    now apply join_plain.
  - intros t3 H3. now apply fine_ok, strip_plain.
Qed.

(** The pipeline returns on every text without a superscript digit. *)
Lemma normalize_fine order text :
  plain text = true -> fine (normalize order text).
Proof.
  intros Ht. unfold normalize, __call__.
  apply fine_bind; [now apply normalize_codes_fine|].
  intros t. apply after_codes_fine.
Qed.

End Plain.

(** ** The pipeline *)

Section Pipeline.

Variable order : list string.
Hypothesis order_ok : Permutation order service_words.

Ltac by_stable :=
  rewrite (normalize_stable order order_ok) by (vm_compute; reflexivity);
  vm_compute; reflexivity.


(** C5. "vingt mille francs" becomes "20 000 F", but the word scan of the
    pipeline tests the bare markers first, so "... francs cfa" ends at
    "francs": the amount is tagged F and "cfa" is left behind.  The regex
    pass [normalize_currency], which tries FCFA first, gives
    "54 900 FCFA" on the same text. *)
Theorem currency_marker_priority :
  normalize order "vingt mille francs" = Ok "20 000 F"
  /\ normalize order "cinquante-quatre mille neuf cents francs cfa"
     = Ok "54 900 F cfa"
  /\ find_currency
       ["cinquante-quatre"; "mille"; "neuf"; "cents"; "francs"; "cfa"]
       (seq 1 5)
     = Ok (Some (4%nat, "F"))
  /\ normalize_currency "cinquante-quatre mille neuf cents francs cfa"
     = Ok "54 900 FCFA".
Proof.
  split; [by_stable|]. split; [by_stable|].
  split; vm_compute; reflexivity.
Qed.



(** C9. A superscript digit passes [isdigit] and makes [int] raise: the
    pipeline raises [ValueError] on a code, an amount or a data quantity
    written with one.  These digits are the only cause: on a text without
    them the converter and the whole pipeline return, in whatever order
    the service words are met; no index is out of range, [index] and
    [remove] find the [ak] they look for, [int] reads its digit strings
    and every loop ends. *)
Theorem superscript_digit_raises :
  isdigit "²" = true
  /\ int "²" = Raise ValueError
  /\ convert_to_number "²" = Raise ValueError
  /\ normalize order "dièse ² dièse" = Raise ValueError
  /\ normalize order "² francs" = Raise ValueError
  /\ normalize order "² go" = Raise ValueError
  /\ (forall text, plain text = true -> fine (convert_to_number text))
  /\ (forall any_order text,
         plain text = true -> fine (normalize any_order text)).
Proof.
  do 3 (split; [vm_compute; reflexivity|]).
  do 3 (split; [by_stable|]).
  split; [exact convert_to_number_fine|exact normalize_fine].
Qed.

End Pipeline.

Lemma currency_marker_priority_witness :
  normalize service_words "vingt mille francs" = Ok "20 000 F".
Proof.
  apply (currency_marker_priority service_words), Permutation_refl.
Defined.



Lemma superscript_digit_raises_witness :
  normalize service_words "dièse ² dièse" = Raise ValueError
  /\ fine (normalize service_words "dièse deux dièse").
Proof.
  split.
  - apply (superscript_digit_raises service_words), Permutation_refl.
  - apply (superscript_digit_raises service_words (Permutation_refl _)).
    reflexivity.
Defined.


(** * Further properties

    What the code does besides: the clean-up step, the rules of the scan
    and of the combiner one by one, the spans of the data, currency and
    per-month patterns, and the texts the pipeline leaves alone. *)

Section CleanUpStep.

Local Open Scope nat_scope.

Section CleanUp.

Variable icase : bool.

(** A greedy run of whitespace takes all of it. *)
Lemma many_spaces ma p0 g : forall s b n,
  p0 < n ->
  exists e,
    many icase true ASpace (accept ma p0) g b n s = Some e
    /\ groups e = g
    /\ squeeze_from true s = squeeze_from true (rest e)
    /\ String.length (rest e) <= String.length s
    /\ lstrip s = lstrip (rest e)
    /\ p0 < pos e
    /\ starts_word (rest e) = true.
Proof.
  induction s as [|c s IH]; intros b n Hn; cbn [many].
  - unfold accept. cbn [pos].
    replace (Nat.eqb n p0) with false by (symmetry; apply Nat.eqb_neq; lia).
    rewrite andb_false_r. eexists. repeat split; cbn; trivial.
  - cbn [accepts]. destruct (isspace_c c) eqn:Hc.
    + destruct (IH (Some c) (S n)) as [e [-> H]]; [lia|].
      cbn [orelse]. exists e. split; [reflexivity|].
      destruct H as [Hg [Hs [Hl [Hst [Hp Hr]]]]].
      repeat split; trivial; cbn; rewrite ?Hc; trivial. lia.
    + unfold accept. cbn [pos].
      replace (Nat.eqb n p0) with false
        by (symmetry; apply Nat.eqb_neq; lia).
      rewrite andb_false_r. eexists. repeat split; cbn; rewrite ?Hc; trivial.
Qed.


Lemma squeeze_token w : token w = true -> squeeze_from false w = w.
Proof.
  induction w as [|c w IH]; [reflexivity|]. intros H.
  apply free_cons in H as [Hc Hw]. cbn. rewrite Hc. now rewrite IH.
Qed.

Lemma squeeze_app w s :
  token w = true -> squeeze_from false (w ++ s) = w ++ squeeze_from false s.
Proof.
  induction w as [|c w IH]; [reflexivity|]. intros H.
  apply free_cons in H as [Hc Hw]. cbn. rewrite Hc. now rewrite IH.
Qed.

Lemma squeeze_starts_word s :
  starts_word s = true -> squeeze_from true s = squeeze_from false s.
Proof.
  destruct s as [|c s]; [reflexivity|]. cbn.
  now destruct (isspace_c c).
Qed.

(** The first run of whitespace: what [search] finds for [\s+]. *)
Lemma search_spaces : forall s ma skipped b n,
  match search_in icase spaces_pattern ma skipped [] b n s with
  | None => token s = true
  | Some (sk, c, e) =>
      exists w,
        sk = skipped ++ w
        /\ squeeze_from false s = w ++ String " " (squeeze_from false (rest e))
        /\ String.length (rest e) < String.length s
        /\ pos e <> pos c
  end.
Proof.
  change spaces_pattern with (Cat (One ASpace) (Many true ASpace)).
  induction s as [|c s IH]; intros ma skipped b n; cbn [search_in].
  - reflexivity.
  - unfold match_at. cbn [run rest accepts pos groups before advance].
    destruct (isspace_c c) eqn:Hc.
    + destruct (many_spaces ma n [] s (Some c) (S n))
        as [e [E [Hg [Hs [Hl [Hst [Hp Hr]]]]]]]; [lia|].
      unfold accept in E. rewrite E.
      exists EmptyString. rewrite append_nil_r. cbn.
      rewrite Hc, Hs, (squeeze_starts_word _ Hr).
      repeat split; trivial; lia.
    + specialize (IH false (skipped ++ String c EmptyString) (Some c) (S n)).
      destruct (search_in icase (Cat (One ASpace) (Many true ASpace)) false
                  (skipped ++ String c EmptyString) [] (Some c) (S n) s)
        as [[[sk c0] e]|].
      * destruct IH as [w [-> [Hs [Hl Hp]]]].
        exists (String c w). rewrite append_assoc. cbn. rewrite Hc, Hs.
        repeat split; trivial. lia.
      * unfold token, free. cbn. now rewrite Hc.
Qed.

Lemma sub_from_spaces text fuel : forall ma cur,
  2 * String.length (rest cur) + 2 <= fuel ->
  sub_from fuel icase spaces_pattern (fun _ => Ok " ") text ma cur
  = Ok (squeeze_from false (rest cur)).
Proof.
  induction fuel as [|fuel IH]; intros ma cur Hfuel; [lia|].
  cbn [sub_from]. unfold search.
  pose proof (search_spaces (rest cur) ma EmptyString (before cur) (pos cur))
    as H.
  destruct (search_in icase spaces_pattern ma EmptyString [] (before cur)
              (pos cur) (rest cur)) as [[[sk c] e]|].
  - destruct H as [w [-> [Hs [Hl Hp]]]]. cbn [bind].
    rewrite IH by (cbn [rest]; lia). cbn [bind rest].
    now rewrite Hs.
  - now rewrite squeeze_token.
Qed.

(** [re.sub(r'\s+', ' ', text)] squeezes every run of whitespace. *)
Lemma sub_spaces text :
  sub icase spaces_pattern (fun _ => Ok " ") text = Ok (squeeze text).
Proof.
  unfold sub. apply sub_from_spaces. cbn [start_of rest]. lia.
Qed.

End CleanUp.

(** *** Squeezing, stripping, splitting and joining *)

Lemma token_app a b : token (a ++ b) = token a && token b.
Proof. apply all_c_app. Qed.

Lemma split_from_words s : forall cur,
  token cur = true -> Forall (fun w => nonblank w = true) (split_from cur s).
Proof.
  induction s as [|c s IH]; intros cur Hcur; cbn [split_from].
  - destruct (nonempty cur) eqn:Hn; [|constructor].
    constructor; [|constructor]. unfold nonblank. now rewrite Hn.
  - destruct (isspace_c c) eqn:Hc.
    + destruct (nonempty cur) eqn:Hn; [|now apply IH].
      constructor; [|now apply IH]. unfold nonblank. now rewrite Hn.
    + apply IH. rewrite token_app, Hcur. unfold token, free. cbn.
      now rewrite Hc.
Qed.

Lemma split_words s : Forall (fun w => nonblank w = true) (split s).
Proof. now apply split_from_words. Qed.

Lemma split_from_app w : forall s cur,
  token w = true -> split_from cur (w ++ s) = split_from (cur ++ w) s.
Proof.
  induction w as [|c w IH]; intros s cur H.
  - now rewrite append_nil_r.
  - apply free_cons in H as [Hc Hw]. cbn [append split_from]. rewrite Hc.
    rewrite IH by exact Hw. now rewrite append_assoc.
Qed.

(** Splitting what was joined gives the words back. *)
Lemma split_join ws :
  Forall (fun w => nonblank w = true) ws -> split (join " " ws) = ws.
Proof.
  unfold split, join.
  induction 1 as [|w ws Hw Hws IH]; [reflexivity|].
  unfold nonblank in Hw. apply andb_true_iff in Hw as [Hn Ht].
  destruct ws as [|w' ws].
  - cbn [String.concat]. rewrite split_from_token; trivial.
  - rewrite concat_cons2, split_from_app by exact Ht.
    cbn [append split_from]. change (isspace_c " ") with true. cbv iota.
    cbn [append]. now rewrite Hn, IH.
Qed.

Lemma starts_word_app x y :
  x <> EmptyString -> starts_word (x ++ y) = starts_word x.
Proof. destruct x; [contradiction|reflexivity]. Qed.

Lemma word_starts w :
  nonblank w = true ->
  w <> EmptyString /\ starts_word w = true
  /\ starts_word (reversed w) = true.
Proof.
  unfold nonblank. intros H. apply andb_true_iff in H as [Hn Ht].
  split; [now destruct w|]. split.
  - destruct w as [|c w]; [reflexivity|].
    apply free_cons in Ht as [Hc _]. cbn. now rewrite Hc.
  - assert (Hr : token (reversed w) = true)
      by (unfold token, free; now rewrite all_c_reversed).
    destruct (reversed w) as [|c r]; [reflexivity|].
    apply free_cons in Hr as [Hc _]. cbn. now rewrite Hc.
Qed.

Lemma append_nonempty x y : x <> EmptyString -> x ++ y <> EmptyString.
Proof. destruct x; [contradiction|discriminate]. Qed.

(** Words joined by single spaces begin and end with a word. *)
Lemma join_starts ws :
  Forall (fun w => nonblank w = true) ws -> ws <> [] ->
  join " " ws <> EmptyString
  /\ starts_word (join " " ws) = true
  /\ starts_word (reversed (join " " ws)) = true.
Proof.
  induction 1 as [|w ws Hw Hws IH]; [contradiction|]. intros _.
  destruct (word_starts w Hw) as [Hne [Hs Hr]].
  rewrite reversed_join. destruct ws as [|w' ws]; [now repeat split|].
  destruct IH as [Jne [Js Jr]]; [discriminate|].
  unfold join. rewrite concat_cons2. split; [now apply append_nonempty|].
  split; [now rewrite starts_word_app|].
  rewrite starts_word_app; [exact Jr|now apply reversed_nonempty].
Qed.

Lemma lstrip_starts m x :
  starts_word m = true -> m <> EmptyString -> lstrip (m ++ x) = m ++ x.
Proof.
  destruct m as [|c m]; [contradiction|]. cbn. intros H _.
  now destruct (isspace_c c).
Qed.

(** Stripping removes one space at each end of trimmed text. *)
Lemma strip_pads a b m :
  a = EmptyString \/ a = " " -> b = EmptyString \/ b = " " ->
  starts_word m = true -> starts_word (reversed m) = true ->
  strip (a ++ m ++ b) = m.
Proof.
  intros Ha Hb Hm Hr. unfold strip.
  destruct m as [|c m]; [destruct Ha as [->| ->], Hb as [->| ->]; reflexivity|].
  assert (E : lstrip (a ++ String c m ++ b) = String c m ++ b).
  { destruct Ha as [->| ->]; cbn [append lstrip];
      change (isspace_c " ") with true; cbv iota;
      apply (lstrip_starts (String c m)); trivial; discriminate. }
  rewrite E, reversed_app.
  assert (E' : lstrip (reversed b ++ reversed (String c m))
               = reversed (String c m)).
  { rewrite <- (append_nil_r (reversed (String c m))) at 2.
    rewrite <- (lstrip_starts (reversed (String c m)) EmptyString);
      [|exact Hr|apply reversed_nonempty; discriminate].
    rewrite append_nil_r.
    destruct Hb as [->| ->]; reflexivity. }
  rewrite E'. apply reversed_involutive.
Qed.

Lemma squeeze_split s :
  (forall cur,
      nonempty cur = true -> token cur = true ->
      exists b, (b = EmptyString \/ b = " ")
                /\ cur ++ squeeze_from false s
                   = join " " (split_from cur s) ++ b)
  /\ (exists b, (b = EmptyString \/ b = " ")
                /\ squeeze_from true s
                   = join " " (split_from EmptyString s) ++ b
                /\ (split_from EmptyString s = [] -> b = EmptyString)).
Proof.
  induction s as [|c s [IHB IHC]].
  - split.
    + intros cur Hn _. exists EmptyString. cbn. rewrite Hn. cbn.
      split; [now left|reflexivity].
    + exists EmptyString. split; [now left|]. now split.
  - split.
    + intros cur Hn Ht. cbn [split_from squeeze_from].
      destruct (isspace_c c) eqn:Hc.
      * rewrite Hn. destruct IHC as [b [Hb [E Hnil]]]. rewrite E.
        destruct (split_from EmptyString s) as [|w ws].
        -- rewrite (Hnil eq_refl). exists " ". split; [now right|].
           reflexivity.
        -- exists b. split; [exact Hb|]. unfold join.
           rewrite concat_cons2, !append_assoc. reflexivity.
      * destruct (IHB (cur ++ String c EmptyString)) as [b [Hb E]].
        -- now destruct cur.
        -- rewrite token_app, Ht. unfold token, free. cbn. now rewrite Hc.
        -- exists b. split; [exact Hb|]. rewrite <- E.
           now rewrite append_assoc.
    + cbn [split_from squeeze_from]. destruct (isspace_c c) eqn:Hc.
      * exact IHC.
      * destruct (IHB (String c EmptyString)) as [b [Hb E]];
          [reflexivity|unfold token, free; cbn; now rewrite Hc|].
        exists b. split; [exact Hb|]. split; [exact E|].
        intros H. now apply split_from_cons in H.
Qed.

(** Step 5 of the pipeline: squeezing then stripping is splitting then
    joining. *)
Lemma strip_squeeze t : strip (squeeze t) = join " " (split t).
Proof.
  assert (E : exists a b,
             (a = EmptyString \/ a = " ") /\ (b = EmptyString \/ b = " ")
             /\ squeeze t = a ++ join " " (split t) ++ b).
  { unfold squeeze, split. destruct t as [|c t].
    - exists EmptyString, EmptyString.
      split; [now left|]. split; [now left|reflexivity].
    - cbn [squeeze_from split_from]. destruct (isspace_c c) eqn:Hc.
      + destruct (proj2 (squeeze_split t)) as [b [Hb [E _]]].
        exists " ", b. rewrite E. split; [now right|]. now split.
      + destruct (proj1 (squeeze_split t) (String c EmptyString))
          as [b [Hb E]];
          [reflexivity|unfold token, free; cbn; now rewrite Hc|].
        exists EmptyString, b. cbn [append] in *. rewrite E.
        split; [now left|]. now split. }
  destruct E as [a [b [Ha [Hb ->]]]].
  destruct (split t) as [|w ws] eqn:Hs.
  - destruct Ha as [->| ->], Hb as [->| ->]; reflexivity.
  - destruct (join_starts (w :: ws)) as [_ [Hst Hr]];
      [rewrite <- Hs; apply split_words|discriminate|].
    now apply strip_pads.
Qed.

(** X1. Step 5 of the pipeline, [re.sub(r'\s+', ' ', text).strip()], is
    [' '.join(text.split())]: the words of the text, one space between
    them.  So whatever the pipeline returns is made of words separated by
    single spaces, with no whitespace at either end: splitting it and
    joining it again gives it back. *)
Theorem output_is_words_joined_by_single_spaces :
  (forall text,
      (text' <- sub false spaces_pattern (fun _ => Ok " ") text ;;
       Ok (strip text'))
      = Ok (join " " (split text)))
  /\ (forall ws,
      Forall (fun w => nonblank w = true) ws -> split (join " " ws) = ws)
  /\ (forall order text out,
      normalize order text = Ok out -> join " " (split out) = out).
Proof.
  split.
  { intros text. rewrite sub_spaces. cbn [bind]. now rewrite strip_squeeze. }
  split; [exact split_join|].
  intros order text out H. unfold normalize, __call__ in H.
  destruct (normalize_codes order text) as [t1| |]; cbn [bind] in H;
    try discriminate H.
  unfold after_codes in H.
  destruct (normalize_phone_numbers t1) as [t2| |]; cbn [bind] in H;
    try discriminate H.
  destruct (normalize_data t2) as [t3| |]; cbn [bind] in H;
    try discriminate H.
  destruct (currency_loop _ _ _ _) as [result| |]; cbn [bind] in H;
    try discriminate H.
  rewrite sub_spaces in H. cbn [bind] in H. injection H as <-.
  rewrite strip_squeeze, split_join by apply split_words. reflexivity.
Qed.

End CleanUpStep.

Section IntStr.

Local Open Scope Z_scope.

(** ** [int] reads back what [str] writes *)

Lemma int_from_uint_acc d : forall acc,
  int_from (Zpos acc) (NilEmpty.string_of_uint d)
  = Zpos (Pos.of_uint_acc d acc).
Proof.
  induction d; intros acc;
    cbn [NilEmpty.string_of_uint int_from Pos.of_uint_acc];
    [reflexivity|..]; rewrite <- IHd; f_equal;
    match goal with
    | |- context [digit_value ?c] =>
        let v := eval vm_compute in (digit_value c) in
        change (digit_value c) with v
    end; lia.
Qed.

Lemma int_from_uint d :
  int_from 0 (NilEmpty.string_of_uint d) = Z.of_N (Pos.of_uint d).
Proof.
  induction d; cbn [NilEmpty.string_of_uint int_from Pos.of_uint];
    [reflexivity|exact IHd|..]; apply int_from_uint_acc.
Qed.

Lemma int_from_str n : 0 <= n -> int_from 0 (str n) = n.
Proof.
  intros Hn. destruct n as [|p|p]; [reflexivity| |lia].
  unfold str. cbn [Z.to_int NilZero.string_of_int].
  pose proof (Unsigned.of_to p) as H. unfold NilZero.string_of_uint.
  destruct (Pos.to_uint p) eqn:E; try (rewrite int_from_uint, H; reflexivity).
  discriminate H.
Qed.

(** [int(str(n)) == n] for a natural number [n]. *)
Lemma int_str n : 0 <= n -> int (str n) = Ok n.
Proof.
  intros Hn. unfold int. rewrite (str_decimal n Hn).
  now rewrite int_from_str.
Qed.

End IntStr.

Section ScanWords.

Local Open Scope Z_scope.

(** ** Words of the scan *)

Lemma lookup_app {V} (a b : list (string * V)) k :
  lookup (a ++ b) k
  = match lookup a k with Some v => Some v | None => lookup b k end.
Proof.
  induction a as [|[k' v'] a IH]; [reflexivity|]. cbn [app lookup].
  now destruct (String.eqb k k').
Qed.

Lemma lookup_mem {V} (d : list (string * V)) k :
  mem k (map fst d) = false -> lookup d k = None.
Proof.
  induction d as [|[k' v'] d IH]; [reflexivity|]. cbn.
  destruct (String.eqb k k'); [discriminate|exact IH].
Qed.

Lemma mem_app x a b : mem x (a ++ b) = mem x a || mem x b.
Proof. apply existsb_app. Qed.

(** The single-word conversion is a lookup in the lexicon. *)
Lemma single_word_lexicon w :
  single_word w
  = match lookup lexicon w with Some v => str v | None => w end.
Proof.
  unfold single_word, lexicon. rewrite !lookup_app.
  repeat match goal with
         | |- context [lookup ?d w] => destruct (lookup d w); [reflexivity|]
         end.
  destruct (String.eqb w "dërëm") eqn:E;
    [apply String.eqb_eq in E; now subst|].
  now destruct (mem w connectors).
Qed.

Lemma inert_spec w :
  inert w = true ->
  contains "-" w = false /\ isdigit w = false
  /\ lookup lexicon w = None /\ lookup wolof_basic w = None
  /\ String.eqb w "ak" = false
  /\ String.eqb w "juróom" = false /\ String.eqb w "fukk" = false
  /\ String.eqb w "téeméer" = false /\ String.eqb w "junni" = false.
Proof.
  unfold inert. intros H.
  apply andb_true_iff in H as [H Hak].
  apply andb_true_iff in H as [H Hlex].
  apply andb_true_iff in H as [Hh Hd].
  apply negb_true_iff in Hak, Hlex, Hh, Hd.
  assert (Hkey : forall k, mem k (map fst lexicon) = true ->
                           String.eqb w k = false).
  { intros k Hk. destruct (String.eqb w k) eqn:E; [|reflexivity].
    apply String.eqb_eq in E. subst. congruence. }
  repeat split; trivial; try (apply Hkey; reflexivity).
  - now apply lookup_mem.
  - apply lookup_mem. unfold lexicon in Hlex.
    rewrite map_app, mem_app in Hlex. now apply orb_false_iff in Hlex.
Qed.

Lemma index_some {A} (l : list A) i a :
  nth_error l i = Some a -> index l i = Ok a.
Proof. unfold index. now intros ->. Qed.

Lemma next_is_not words i w :
  (forall w', nth_error words (i + 1) = Some w' -> String.eqb w' w = false) ->
  and_then (i + 1 <? length words)%nat (word_is words (i + 1) w) = Ok false.
Proof.
  intros H. destruct (i + 1 <? length words)%nat eqn:E; [|reflexivity].
  apply Nat.ltb_lt in E. cbn [and_then]. unfold word_is.
  destruct (nth_error words (i + 1)) as [w'|] eqn:Ew.
  - rewrite (index_some _ _ _ Ew). cbn [bind]. now rewrite (H w' eq_refl).
  - apply nth_error_None in Ew. lia.
Qed.

(** One pass of the scan over a word it has no rule for, before another
    such word or at the end: the word is copied. *)
Lemma convert_step_inert words i result w :
  nth_error words i = Some w -> inert w = true ->
  (forall w', nth_error words (i + 1) = Some w' -> inert w' = true) ->
  convert_step words i result = Ok ((i + 1)%nat, (result ++ [w])%list).
Proof.
  intros Hw Hi Hnext.
  destruct (inert_spec w Hi) as [Hh [Hd [Hlex [Hb [_ [Hj _]]]]]].
  pose proof (index_some _ _ _ Hw) as Iw.
  assert (Hn : forall k,
             (k = "fukk" \/ k = "téeméer" \/ k = "junni") ->
             and_then (i + 1 <? length words)%nat (word_is words (i + 1) k)
             = Ok false).
  { intros k Hk. apply next_is_not. intros w' Hw'.
    destruct (inert_spec w' (Hnext w' Hw'))
      as [_ [_ [_ [_ [_ [_ [F [T J]]]]]]]].
    now destruct Hk as [->|[->| ->]]. }
  unfold convert_step, or_fall, hyphenated, juroom_unit, unit_times,
    unit_junni, word_is.
  rewrite Iw. cbn [bind]. rewrite Hh. cbn [bind]. rewrite Iw. cbn [bind].
  rewrite Hd, Hj. cbn [andb bind].
  fold (word_is words (i + 1) "fukk"). rewrite Hn by tauto. cbn [bind].
  fold (word_is words (i + 1) "téeméer"). rewrite Hn by tauto. cbn [bind].
  fold (word_is words (i + 1) "junni"). rewrite Hn by tauto. cbn [bind].
  rewrite Iw. cbn [bind]. now rewrite single_word_lexicon, Hlex.
Qed.

Lemma forallb_nth (p : string -> bool) l i w :
  forallb p l = true -> nth_error l i = Some w -> p w = true.
Proof.
  intros H E. apply nth_error_In in E.
  now apply (proj1 (forallb_forall p l) H).
Qed.

Lemma skipn_nth {A} (l : list A) : forall i a,
  nth_error l i = Some a -> skipn i l = a :: skipn (S i) l.
Proof.
  induction l as [|x l IH]; intros [|i] a H; try discriminate.
  - now injection H as ->.
  - cbn [skipn]. now apply IH.
Qed.

Lemma convert_loop_inert fuel : forall words i result,
  forallb inert words = true ->
  (length words - i <= fuel)%nat ->
  convert_loop fuel words i result = Ok (result ++ skipn i words)%list.
Proof.
  induction fuel as [|fuel IH]; intros words i result Hw Hfuel;
    cbn [convert_loop].
  - replace (i <? length words)%nat with false
      by (symmetry; apply Nat.ltb_ge; lia).
    rewrite skipn_all2 by lia. now rewrite app_nil_r.
  - destruct (i <? length words)%nat eqn:Hi.
    + apply Nat.ltb_lt in Hi.
      destruct (nth_error words i) as [w|] eqn:Ew;
        [|apply nth_error_None in Ew; lia].
      rewrite (convert_step_inert words i result w Ew).
      * cbn [bind]. rewrite IH by (trivial; lia).
        rewrite <- app_assoc. cbn [app]. f_equal. f_equal.
        now rewrite (skipn_nth _ _ _ Ew), Nat.add_1_r.
      * now apply (forallb_nth inert words i).
      * intros w' Ew'. now apply (forallb_nth inert words (i + 1)).
    + apply Nat.ltb_ge in Hi. rewrite skipn_all2 by lia.
      now rewrite app_nil_r.
Qed.

Lemma classify_all_inert parts : forall other_words,
  forallb inert parts = true ->
  classify_all ([], other_words) parts = Ok ([], (other_words ++ parts)%list).
Proof.
  induction parts as [|part parts IH]; intros other_words H;
    cbn [classify_all].
  - now rewrite app_nil_r.
  - cbn [forallb] in H. apply andb_true_iff in H as [Hp H].
    destruct (inert_spec part Hp) as [_ [Hd _]].
    unfold classify. rewrite Hd. cbn [length Nat.eqb negb].
    rewrite andb_false_r. cbn [bind]. rewrite IH by exact H.
    now rewrite <- app_assoc.
Qed.

Lemma mem_inert parts :
  forallb inert parts = true -> mem "ak" parts = false.
Proof.
  induction parts as [|part parts IH]; [reflexivity|].
  cbn [forallb]. intros H. apply andb_true_iff in H as [Hp H].
  destruct (inert_spec part Hp) as [_ [_ [_ [_ [Hak _]]]]].
  unfold mem in *. cbn [existsb]. rewrite String.eqb_sym, Hak.
  now apply IH.
Qed.

Lemma ak_loop_none fuel parts :
  mem "ak" parts = false -> ak_loop fuel parts = Ok parts.
Proof. intros H. destruct fuel; cbn [ak_loop]; now rewrite H. Qed.

(** X3. A phrase made of words the scan has no rule for comes back in
    lower case, its words separated by single spaces: nothing is
    converted, nothing is lost. *)
Theorem unknown_words_are_copied text :
  forallb inert (split (lower text)) = true ->
  convert_to_number text = Ok (join " " (split (lower text))).
Proof.
  intros H. unfold convert_to_number, convert_words.
  rewrite convert_loop_inert by (trivial; lia). cbn [bind app skipn].
  unfold calculate_from_parts.
  rewrite ak_loop_none by now apply mem_inert. cbn [bind].
  rewrite classify_all_inert by exact H. cbn [bind]. reflexivity.
Qed.

Lemma unknown_words_are_copied_witness :
  convert_to_number "Bonjour   tout le Monde"
  = Ok "bonjour tout le monde".
Proof.
  apply (unknown_words_are_copied "Bonjour   tout le Monde").
  vm_compute. reflexivity.
Defined.

(** ** Digit strings in the converter *)





(** ** [juróom X] *)

Lemma juroom_first words i result x v :
  nth_error words i = Some "juróom" ->
  nth_error words (i + 1) = Some x ->
  lookup wolof_basic x = Some v ->
  convert_step words i result
  = Ok ((i + 2)%nat, (result ++ [str (5 + v)])%list).
Proof.
  intros Hj Hx Hv.
  pose proof (index_some _ _ _ Hj) as Ij.
  pose proof (index_some _ _ _ Hx) as Ix.
  pose proof (nth_error_lt _ _ _ Hx) as Lx.
  unfold convert_step, or_fall, hyphenated, juroom_unit, word_is.
  rewrite Ij. cbn [bind]. change (contains "-" "juróom") with false.
  cbn [bind]. rewrite Ij. cbn [bind].
  change (isdigit "juróom") with false. cbv iota.
  change (String.eqb "juróom" "juróom") with true. rewrite Lx.
  cbn [andb bind]. rewrite Ix. cbn [bind]. now rewrite Hv.
Qed.

Lemma unit_times_shape word factor words i result f :
  unit_times word factor words i result = Ok f ->
  f = Fall i
  \/ exists w v,
       nth_error words i = Some w /\ lookup wolof_basic w = Some v
       /\ f = Continue (i + 2) (result ++ [str (v * factor)]).
Proof.
  unfold unit_times. intros H.
  destruct (and_then (i + 1 <? length words)%nat
              (word_is words (i + 1) word)) as [[|]| |];
    cbn [bind] in H; try discriminate; [|left; congruence].
  unfold index in H.
  destruct (nth_error words i) as [w|] eqn:Ew; cbn [bind] in H;
    [|discriminate].
  destruct (lookup wolof_basic w) as [v|] eqn:Ev.
  - right. exists w, v. repeat split; trivial. congruence.
  - destruct (String.eqb w "juróom") eqn:E; [|left; congruence].
    apply String.eqb_eq in E. subst w. discriminate Ev.
Qed.

(** X4. [juróom X] is always read first, as 5+X, whatever follows; the
    branches for [juróom X fukk] and [juróom X téeméer] are never taken,
    [juróom] being itself a unit word.  So "juróom ñaar fukk" is 7 then
    10, summed to 17. *)
Theorem juroom_unit_is_read_first :
  (forall words i result x v,
      nth_error words i = Some "juróom" ->
      nth_error words (i + 1) = Some x ->
      lookup wolof_basic x = Some v ->
      convert_step words i result
      = Ok ((i + 2)%nat, (result ++ [str (5 + v)])%list))
  /\ (forall word factor words i result f,
      unit_times word factor words i result = Ok f ->
      f = Fall i
      \/ exists w v,
           nth_error words i = Some w /\ lookup wolof_basic w = Some v
           /\ f = Continue (i + 2) (result ++ [str (v * factor)]))
  /\ convert_words "juróom ñaar fukk" = Ok ["7"; "10"]
  /\ convert_to_number "juróom ñaar fukk" = Ok "17".
Proof.
  split; [exact juroom_first|]. split; [exact unit_times_shape|].
  split; vm_compute; reflexivity.
Qed.

End ScanWords.

Section CurrencyScan.

Local Open Scope nat_scope.

(** ** The currency scan *)

Lemma find_currency_first words : forall js,
  (forall j, In j js -> j < length words) ->
  find_currency words js = Ok (first_marker words js).
Proof.
  induction js as [|j js IH]; intros Hjs; [reflexivity|].
  cbn [find_currency first_marker].
  assert (Hj : j < length words) by (apply Hjs; now left).
  rewrite (index_in_range words j EmptyString Hj). cbn [bind].
  unfold marker_of.
  destruct (mem (lower (nth j words EmptyString)) ["francs"; "franc"; "f"])
    eqn:Hf; [reflexivity|].
  assert (Hfr : String.eqb (lower (nth j words EmptyString)) "francs"
                = false).
  { unfold mem in Hf. cbn [existsb] in Hf.
    now apply orb_false_iff in Hf as [Hf _]. }
  destruct (mem (lower (nth j words EmptyString)) ["fcfa"]) eqn:Hc;
    cbn [bind].
  - now rewrite Hfr.
  - rewrite Hfr, andb_false_r. cbn [and_then bind].
    apply IH. intros j' H. apply Hjs. now right.
Qed.

Lemma first_marker_in words : forall js idx ty,
  first_marker words js = Some (idx, ty) ->
  In idx js /\ marker_of (nth idx words EmptyString) = Some ty.
Proof.
  induction js as [|j js IH]; intros idx ty; cbn [first_marker];
    [discriminate|].
  destruct (marker_of (nth j words EmptyString)) as [t|] eqn:E.
  - intros [= <- <-]. split; [now left|exact E].
  - intros H. apply IH in H as [Hin Hm]. split; [now right|exact Hm].
Qed.

Lemma window_spec words i j :
  In j (window words i) <-> i < j /\ j < i + 6 /\ j < length words.
Proof. unfold window. rewrite in_seq. lia. Qed.

(** One pass of the word scan: the amount runs from [i] to the first
    currency word among the next five words. *)
Lemma currency_step_first words i result :
  i < length words ->
  currency_step words i result
  = match first_marker words (window words i) with
    | Some (idx, currency_type) =>
        normalized <- convert_amount (join " " (lslice i idx words)) ;;
        Ok (idx + 1,
            (result ++ [format_amount normalized currency_type])%list)
    | None => Ok (i + 1, (result ++ [nth i words EmptyString])%list)
    end.
Proof.
  intros Hi. unfold currency_step.
  rewrite (index_in_range words i EmptyString Hi). cbn [bind].
  destruct (i + 1 <? length words) eqn:H1.
  - fold (window words i).
    rewrite find_currency_first
      by (intros j Hj; now apply window_spec in Hj).
    cbn [bind].
    destruct (first_marker words (window words i)) as [[idx ty]|] eqn:E;
      [|reflexivity].
    apply first_marker_in in E as [Hin _]. apply window_spec in Hin.
    destruct (convert_amount (join " " (lslice i idx words)));
      cbn [bind]; try reflexivity.
    destruct (String.eqb ty "FCFA" && (idx <? length words));
      cbn [and_then bind]; [|reflexivity].
    rewrite (index_in_range words (idx - 1) EmptyString) by lia.
    cbn [bind]. now destruct (String.eqb _ "francs").
  - apply Nat.ltb_ge in H1.
    replace (window words i) with (@nil nat); [reflexivity|].
    unfold window. replace (Nat.min (i + 6) (length words) - (i + 1)) with 0
      by lia. reflexivity.
Qed.

(** X5. The word scan of [__call__] takes as currency word the first of
    the next five words that is francs, franc or f (an amount in F) or
    fcfa (an amount in FCFA), whatever its case.  The amount is the words
    from the scan position up to it, and the scan resumes right after it:
    the test for francs followed by cfa never succeeds, so a following
    cfa is not part of the marker. *)
Theorem currency_word_is_the_first_marker :
  (forall words js,
      (forall j, In j js -> j < length words) ->
      find_currency words js = Ok (first_marker words js))
  /\ (forall words i result,
      i < length words ->
      currency_step words i result
      = match first_marker words (window words i) with
        | Some (idx, currency_type) =>
            normalized <- convert_amount (join " " (lslice i idx words)) ;;
            Ok (idx + 1,
                (result ++ [format_amount normalized currency_type])%list)
        | None => Ok (i + 1, (result ++ [nth i words EmptyString])%list)
        end)
  /\ (forall words i j,
      In j (window words i) <-> i < j /\ j < i + 6 /\ j < length words)
  /\ (forall words js idx,
      first_marker words js = Some (idx, "FCFA") ->
      lower (nth idx words EmptyString) = "fcfa").
Proof.
  split; [exact find_currency_first|]. split; [exact currency_step_first|].
  split; [exact window_spec|].
  intros words js idx H. apply first_marker_in in H as [_ H].
  unfold marker_of in H.
  destruct (mem (lower (nth idx words EmptyString)) ["francs"; "franc"; "f"]);
    [discriminate|].
  destruct (mem (lower (nth idx words EmptyString)) ["fcfa"]) eqn:E;
    [|discriminate].
  unfold mem in E. cbn [existsb] in E. rewrite orb_false_r in E.
  now apply String.eqb_eq in E.
Qed.

End CurrencyScan.

Section PhoneScan.

Local Open Scope nat_scope.

(** ** Texts the phone scan leaves alone *)

Lemma filter_skipn_le {A} (p : A -> bool) (l : list A) : forall n,
  length (filter p (skipn n l)) <= length (filter p l).
Proof.
  induction l as [|x l IH]; intros [|n]; cbn [skipn]; try lia.
  cbn [filter]. specialize (IH n). destruct (p x); cbn [length]; lia.
Qed.

(** Every part of a run comes from a word that gives one. *)
Lemma collect_count fuel : forall words j phone_parts j' phone_parts',
  collect fuel words j phone_parts = Ok (j', phone_parts') ->
  length phone_parts'
  <= length phone_parts + length (filter is_part (skipn j words)).
Proof.
  induction fuel as [|fuel IH]; intros words j parts j' parts';
    cbn [collect].
  - destruct (_ && _); [discriminate|]. intros [= <- <-]. lia.
  - destruct ((j <? length words) && (length parts <? 12)) eqn:Hgo;
      [|intros [= <- <-]; lia].
    apply andb_true_iff in Hgo as [Hlt _]. apply Nat.ltb_lt in Hlt.
    rewrite (index_in_range words j EmptyString Hlt). cbn [bind].
    assert (Hs : skipn j words
                 = nth j words EmptyString :: skipn (j + 1) words).
    { rewrite Nat.add_1_r. apply skipn_nth.
      now apply nth_error_nth'. }
    rewrite Hs. cbn [filter].
    remember (is_part (nth j words EmptyString)) as b eqn:Hb.
    unfold is_part in Hb.
    destruct (phone_part (nth j words EmptyString)) as [p| |]; subst b.
    + intros H. apply IH in H. rewrite length_app in H. cbn [length] in *.
      lia.
    + intros H. apply IH in H. lia.
    + intros [= <- <-]. lia.
Qed.

Lemma phone_step_few words i result :
  length (filter is_part words) < 6 -> i < length words ->
  phone_step words i result
  = Ok (i + 1, (result ++ [nth i words EmptyString])%list).
Proof.
  intros Hfew Hi.
  destruct (phone_step_run words i result Hi)
    as [j [parts [E [_ [_ [_ ->]]]]]].
  apply collect_count in E. cbn [length Nat.add] in E.
  pose proof (filter_skipn_le is_part words i).
  unfold qualifies.
  replace (6 <=? length parts) with false
    by (symmetry; apply Nat.leb_gt; lia).
  reflexivity.
Qed.

Lemma phone_loop_few fuel : forall words i result,
  length (filter is_part words) < 6 -> length words - i <= fuel ->
  phone_loop fuel words i result = Ok (result ++ skipn i words)%list.
Proof.
  induction fuel as [|fuel IH]; intros words i result Hfew Hfuel;
    cbn [phone_loop].
  - replace (i <? length words) with false
      by (symmetry; apply Nat.ltb_ge; lia).
    rewrite skipn_all2 by lia. now rewrite app_nil_r.
  - destruct (i <? length words) eqn:Hi.
    + apply Nat.ltb_lt in Hi. rewrite phone_step_few by assumption.
      cbn [bind]. rewrite IH by (trivial; lia).
      rewrite <- app_assoc. cbn [app]. f_equal. f_equal.
      rewrite (skipn_nth words i (nth i words EmptyString))
        by now apply nth_error_nth'.
      now rewrite Nat.add_1_r.
    + apply Nat.ltb_ge in Hi. rewrite skipn_all2 by lia.
      now rewrite app_nil_r.
Qed.

Lemma normalize_phone_few text :
  length (filter is_part (split text)) < 6 ->
  normalize_phone_numbers text = Ok (join " " (split text)).
Proof.
  intros H. unfold normalize_phone_numbers.
  rewrite phone_loop_few by (trivial; lia). reflexivity.
Qed.

(** X6. A text with fewer than six words that give a phone part (digit
    strings and French numerals below a hundred) goes through the phone
    scan with its words unchanged, joined by single spaces. *)
Theorem few_numerals_are_no_phone_number text :
  length (filter is_part (split text)) < 6 ->
  normalize_phone_numbers text = Ok (join " " (split text)).
Proof.
  exact (normalize_phone_few text).
Qed.

Lemma few_numerals_are_no_phone_number_witness :
  normalize_phone_numbers "un  deux trois quatre cinq"
  = Ok "un deux trois quatre cinq".
Proof.
  apply (few_numerals_are_no_phone_number "un  deux trois quatre cinq").
  vm_compute. lia.
Defined.

End PhoneScan.

Section Combiner.

Local Open Scope Z_scope.

(** ** Sums *)







Lemma isdigit_str n : 0 <= n -> isdigit (str n) = true.
Proof.
  intros Hn. pose proof (str_decimal n Hn) as H. unfold isdecimal in H.
  apply andb_true_iff in H as [Hne Hd]. unfold isdigit. rewrite Hne.
  apply (all_c_impl isdecimal_c); [|exact Hd].
  intros c Hc. unfold isdigit_c. now rewrite Hc.
Qed.




(** ** The loop on [ak] *)




(** ** The loop on the numbers *)

Lemma combine_loop_spec fuel : forall numbers i result_numbers,
  (length numbers - i <= fuel)%nat ->
  combine_loop fuel numbers i result_numbers
  = Ok (result_numbers ++ combined (skipn i numbers))%list.
Proof.
  induction fuel as [|fuel IH]; intros numbers i acc Hfuel;
    cbn [combine_loop].
  - replace (i <? length numbers)%nat with false
      by (symmetry; apply Nat.ltb_ge; lia).
    rewrite skipn_all2 by lia. now rewrite app_nil_r.
  - destruct (i <? length numbers)%nat eqn:Hi.
    2:{ apply Nat.ltb_ge in Hi. rewrite skipn_all2 by lia.
        now rewrite app_nil_r. }
    apply Nat.ltb_lt in Hi. unfold combine_step.
    rewrite (index_in_range numbers i 0 Hi). cbn [bind].
    rewrite (skipn_nth numbers i (nth i numbers 0))
      by now apply nth_error_nth'.
    destruct (i + 1 <? length numbers)%nat eqn:H1.
    + apply Nat.ltb_lt in H1.
      rewrite (index_in_range numbers (i + 1) 0 H1). cbn [bind].
      replace (S i) with (i + 1)%nat by lia.
      rewrite (skipn_nth numbers (i + 1) (nth (i + 1) numbers 0))
        by now apply nth_error_nth'.
      cbn [combined].
      destruct ((100 <=? nth (i + 1) numbers 0)
                && (nth i numbers 0 <? nth (i + 1) numbers 0)).
      * cbn [bind]. rewrite IH by lia. rewrite <- app_assoc.
        replace (S (i + 1)) with (i + 2)%nat by lia. reflexivity.
      * cbn [bind]. rewrite IH by lia. rewrite <- app_assoc.
        rewrite (skipn_nth numbers (i + 1) (nth (i + 1) numbers 0))
          by now apply nth_error_nth'.
        reflexivity.
    + apply Nat.ltb_ge in H1. cbn [bind]. rewrite IH by lia.
      rewrite <- app_assoc.
      rewrite (skipn_all2 numbers (n := S i)) by lia.
      rewrite (skipn_all2 numbers (n := i + 1)) by lia. reflexivity.
Qed.

Lemma str_not_ak n : 0 <= n -> String.eqb "ak" (str n) = false.
Proof.
  intros Hn. destruct (String.eqb "ak" (str n)) eqn:E; [|reflexivity].
  apply String.eqb_eq in E. pose proof (isdigit_str n Hn) as H.
  rewrite <- E in H. discriminate H.
Qed.

Lemma mem_ak_numbers numbers :
  Forall (fun n => 0 <= n) numbers -> mem "ak" (map str numbers) = false.
Proof.
  induction 1 as [|n numbers Hn _ IH]; [reflexivity|].
  unfold mem in *. cbn [map existsb]. now rewrite str_not_ak, IH.
Qed.

Lemma classify_all_numbers numbers : forall acc other_words,
  Forall (fun n => 0 <= n) numbers ->
  classify_all (acc, other_words) (map str numbers)
  = Ok ((acc ++ numbers)%list, other_words).
Proof.
  induction numbers as [|n numbers IH]; intros acc other_words H;
    cbn [map classify_all].
  - now rewrite app_nil_r.
  - apply Forall_cons_iff in H as [Hn H].
    unfold classify. rewrite isdigit_str, int_str by exact Hn.
    cbn [bind]. rewrite IH by exact H. now rewrite <- app_assoc.
Qed.



(** ** Numbers below a hundred *)











End Combiner.

Section Spans.

Local Open Scope nat_scope.

(** ** The spans of [normalize_data] and [normalize_currency] *)

(** The common beginning [\b(.*?)\s+] of the data and currency
    patterns. *)
Lemma amount_prefix r c e :
  matches true
    (Cat Bnd (Cat (Grp 1 (Many false ADot)) (Cat (Plus ASpace) r))) c e ->
  exists q s c2,
    reads c c2 (q ++ s)
    /\ s <> EmptyString /\ all_c isspace_c s = true
    /\ groups c2 = (1, (pos c, pos c + String.length q)) :: groups c
    /\ matches true r c2 e.
Proof.
  intros H.
  apply matches_cat in H as [c0 [H0 H]]. apply matches_bnd in H0 as ->.
  apply matches_cat in H as [c1 [H1 H]].
  apply matches_cat in H as [c2 [H2 H3]].
  apply matches_grp in H1 as [ca [H1 ->]].
  apply matches_many in H1 as [q [_ [R1 G1]]].
  apply matches_plus in H2 as [s [Ns [Hs [R2 G2]]]].
  exists q, s, c2. unfold reads, same_groups in *.
  cbn [with_groups rest pos groups] in *.
  destruct R1 as [R1 P1], R2 as [R2 P2].
  split; [split|].
  - now rewrite R1, R2, append_assoc.
  - rewrite P2, P1, length_append. lia.
  - repeat (split; [assumption|]). split; [|exact H3].
    now rewrite G2, G1, P1.
Qed.

Lemma lower_app a b : lower (a ++ b) = lower a ++ lower b.
Proof. induction a as [|c a IH]; [reflexivity|]. cbn. now rewrite IH. Qed.

Lemma matches_eps icase c c' : matches icase Eps c c' -> c' = c.
Proof. intros H. now inversion H. Qed.

(** [stem] with an optional [s], under [re.IGNORECASE]. *)
Lemma matches_optional_s stem c c' :
  matches true (optional_s stem) c c' ->
  exists m, reads c c' m /\ same_groups c c'
            /\ (lower m = lower stem \/ lower m = lower (stem ++ "s")).
Proof.
  unfold optional_s, Opt. intros H.
  apply matches_cat in H as [c1 [H1 H2]].
  apply matches_lit_icase in H1 as [m [R1 [G1 Hm]]].
  apply matches_alt in H2 as [H2|H2].
  - apply matches_one in H2 as [x [Hx [R2 G2]]].
    exists (m ++ String x EmptyString).
    split; [apply (reads_trans _ _ _ _ _ R1 R2)|].
    split; [unfold same_groups in *; congruence|]. right.
    cbn [accepts] in Hx. apply Ascii.eqb_eq in Hx.
    rewrite !lower_app, Hm. cbn [lower]. now rewrite Hx.
  - apply matches_eps in H2 as ->. exists m.
    split; [exact R1|]. split; [exact G1|]. now left.
Qed.

(** What group 2 of the data pattern reads is a unit word. *)
Lemma matches_data_unit c c' :
  matches true
    (Alts [Lit "go"; Lit "mo"; Lit "giga"; Lit "mega";
           optional_s "gigaoctet"; optional_s "megaoctet"]) c c' ->
  exists u, reads c c' u /\ same_groups c c'
            /\ mem (lower u) unit_words = true.
Proof.
  cbn [Alts]. intros H.
  repeat (apply matches_alt in H as [H|H];
          [apply matches_lit_icase in H as [u [R [G Hu]]];
           exists u; (split; [exact R|]); (split; [exact G|]);
           rewrite Hu; reflexivity|]).
  apply matches_alt in H as [H|H];
    apply matches_optional_s in H as [u [R [G [Hu|Hu]]]];
    exists u; (split; [exact R|]); (split; [exact G|]);
    rewrite Hu; reflexivity.
Qed.

Lemma last_char_app a b o :
  last_char (a ++ b) o = last_char b (last_char a o).
Proof.
  unfold last_char. rewrite reversed_app.
  destruct (reversed b); [now rewrite ?append_nil_r|reflexivity].
Qed.

(** A match leaves behind it the last character it read. *)
Lemma matches_before icase r c c' :
  matches icase r c c' ->
  exists m, reads c c' m /\ before c' = last_char m (before c).
Proof.
  induction 1 as [c|a x s' c E Hx|greedy a c|greedy a x s' c c' E Hx H IH
                 |c Hb|r1 r2 c1 c2 c3 H1 IH1 H2 IH2|r1 r2 c c' H IH
                 |r1 r2 c c' H IH|n r c c' H IH|r c c' H IH].
  - exists EmptyString. unfold reads. cbn. split; [split; [reflexivity|lia]|].
    reflexivity.
  - exists (String x EmptyString). unfold reads. cbn.
    split; [split; [exact E|lia]|reflexivity].
  - exists EmptyString. unfold reads. cbn. split; [split; [reflexivity|lia]|].
    reflexivity.
  - destruct IH as [m [[Hr Hp] Hb]]. exists (String x m).
    split.
    + unfold reads in *. cbn in *. rewrite E, Hr, Hp.
      split; [reflexivity|lia].
    + change (String x m) with (String x EmptyString ++ m).
      now rewrite last_char_app.
  - exists EmptyString. unfold reads. cbn. split; [split; [reflexivity|lia]|].
    reflexivity.
  - destruct IH1 as [m1 [R1 B1]], IH2 as [m2 [R2 B2]].
    exists (m1 ++ m2). split; [now apply reads_trans with c2|].
    now rewrite last_char_app, <- B1.
  - exact IH.
  - exact IH.
  - destruct IH as [m [R B]]. exists m. split; [exact R|exact B].
  - exists EmptyString. unfold reads. cbn. split; [split; [reflexivity|lia]|].
    reflexivity.
Qed.

Lemma append_cancel_r a : forall b r,
  String.length a = String.length b -> a ++ r = b ++ r -> a = b.
Proof.
  induction a as [|x a IH]; intros [|y b] r Hl H; try discriminate Hl.
  - reflexivity.
  - cbn in *. injection H as -> H. f_equal. apply (IH b r); [lia|exact H].
Qed.

Lemma reads_unique c c' m m' : reads c c' m -> reads c c' m' -> m = m'.
Proof.
  unfold reads. intros [Hr Hp] [Hr' Hp'].
  apply (append_cancel_r m m' (rest c')); [lia|congruence].
Qed.

Lemma lower_reversed s : lower (reversed s) = reversed (lower s).
Proof.
  induction s as [|c s IH]; [reflexivity|].
  cbn [lower]. now rewrite !reversed_cons, lower_app, IH.
Qed.

Lemma isword_lower c : isword_c (lower_c c) = isword_c c.
Proof. destruct c as [[] [] [] [] [] [] [] []]; reflexivity. Qed.

(** A unit word ends with a letter. *)
Lemma unit_ends_with_letter u b :
  mem (lower u) unit_words = true -> is_word (last_char u b) = true.
Proof.
  intros H. unfold last_char.
  pose proof (lower_reversed u) as E.
  destruct (reversed u) as [|y r] eqn:Er.
  - cbn in E. assert (lower u = EmptyString) as Hu.
    { rewrite <- (reversed_involutive (lower u)), <- E. reflexivity. }
    rewrite Hu in H. discriminate H.
  - cbn [lower] in E. cbn [is_word]. rewrite <- isword_lower.
    apply mem_In in H. cbn in H.
    repeat (destruct H as [H|H];
            [rewrite <- H in E; cbn in E; injection E as -> _;
             reflexivity|]).
    contradiction.
Qed.

(** A match of the data pattern is a quantity, whitespace and a unit
    word; the replacement is the converted quantity and Go or Mo. *)
Lemma data_span text pre c e :
  text = pre ++ rest c -> String.length pre = pos c ->
  matches true data_pattern c e ->
  exists q s u,
    rest c = q ++ s ++ u ++ rest e
    /\ s <> EmptyString /\ all_c isspace_c s = true
    /\ mem (lower u) unit_words = true
    /\ at_boundary e = true /\ is_word (before e) = true
    /\ replace_data (group text c e)
       = (normalized_qty <- convert_to_number (strip q) ;;
          Ok (normalized_qty
              ++ (if mem (lower u) giga_words then "Go" else "Mo"))).
Proof.
  intros Ht Hp H. unfold data_pattern in H. cbn [Seq] in H.
  apply amount_prefix in H as [q [s [c2 [[R1 P1] [Ns [Hs [G2 H]]]]]]].
  apply matches_cat in H as [c3 [H3 H4]].
  assert (Hb : at_boundary e = true) by now inversion H4.
  apply matches_bnd in H4 as ->.
  apply matches_grp in H3 as [cu [H3 ->]].
  destruct (matches_before _ _ _ _ H3) as [u' [Ru' Hbefore]].
  apply matches_data_unit in H3 as [u [[R3 P3] [G3 Hu]]].
  rewrite (reads_unique _ _ _ _ Ru' (conj R3 P3)) in Hbefore.
  assert (Hw : is_word (before (with_groups cu ((2, (pos c2, pos cu))
                                                  :: groups cu))) = true).
  { cbn [with_groups before]. rewrite Hbefore.
    now apply unit_ends_with_letter. }
  clear Hbefore Ru' u'.
  exists q, s, u. unfold same_groups in *.
  cbn [with_groups rest pos groups] in *.
  assert (Hrest : rest c = q ++ s ++ u ++ rest cu)
    by now rewrite R1, R3, append_assoc.
  split; [exact Hrest|]. repeat (split; [assumption|]).
  unfold replace_data, group.
  cbn [with_groups groups find fst Nat.eqb]. rewrite G3, G2.
  cbn [find fst Nat.eqb]. rewrite Ht, Hrest.
  rewrite (slice_middle pre q) by lia.
  replace (pre ++ q ++ s ++ u ++ rest cu)
    with ((pre ++ q ++ s) ++ u ++ rest cu)
    by now rewrite !append_assoc.
  rewrite (slice_middle (pre ++ q ++ s) u)
    by (rewrite ?length_append in *; lia).
  unfold unit_words in Hu. rewrite mem_app in Hu.
  destruct (mem (lower u) giga_words) eqn:Eg.
  - unfold giga_words in Eg. now rewrite Eg.
  - cbn [orb] in Hu.
    replace (mem (lower u) ["go"; "giga"; "gigaoctets"; "gigaoctet"])
      with false by (symmetry; exact Eg).
    unfold mega_words in Hu. now rewrite Hu.
Qed.

(** X10. Whatever the data pattern finds is a quantity, whitespace and a
    unit word (go, mo, giga, mega, gigaoctet(s), megaoctet(s), in any
    case); it is replaced by the converted quantity directly followed by
    Go or Mo: the unit never stays as it was written. *)
Theorem data_unit_is_standardized text sk c e :
  search true data_pattern false (start_of text) = Some (sk, c, e) ->
  exists q s u,
    text = sk ++ q ++ s ++ u ++ rest e
    /\ s <> EmptyString /\ all_c isspace_c s = true
    /\ mem (lower u) unit_words = true
    /\ replace_data (group text c e)
       = (normalized_qty <- convert_to_number (strip q) ;;
          Ok (normalized_qty
              ++ (if mem (lower u) giga_words then "Go" else "Mo"))).
Proof.
  intros H. apply first_match in H as [Ht [Hp [_ Hm]]].
  destruct (data_span text sk c e Ht Hp Hm)
    as [q [s [u [Hr [Ns [Hs [Hu [_ [_ Hrep]]]]]]]]].
  exists q, s, u. split; [rewrite <- Hr; exact Ht|].
  repeat (split; [assumption|]). exact Hrep.
Qed.

Lemma data_unit_is_standardized_witness :
  exists q s u,
    "cent cinquante MEGA par mois" = q ++ s ++ u ++ " par mois"
    /\ s <> EmptyString /\ all_c isspace_c s = true
    /\ mem (lower u) unit_words = true.
Proof.
  destruct (search true data_pattern false
              (start_of "cent cinquante MEGA par mois"))
    as [[[sk c] e]|] eqn:E; [|vm_compute in E; discriminate E].
  destruct (data_unit_is_standardized _ sk c e E)
    as [q [s [u [Ht [Ns [Hs [Hu _]]]]]]].
  exists q, s, u. vm_compute in E. injection E as E1 E2 E3.
  subst sk c e. cbn [append rest] in Ht.
  now repeat split.
Defined.

(** *** The regex pass [normalize_currency] *)

Lemma lower_c_space c : isspace_c (lower_c c) = isspace_c c.
Proof. destruct c as [[] [] [] [] [] [] [] []]; reflexivity. Qed.

Lemma lower_spaces s : all_c isspace_c (lower s) = all_c isspace_c s.
Proof.
  induction s as [|c s IH]; [reflexivity|]. cbn.
  now rewrite lower_c_space, IH.
Qed.

Lemma squeeze_run s : forall r,
  all_c isspace_c s = true -> starts_word r = true ->
  squeeze_from true (s ++ r) = squeeze_from false r.
Proof.
  induction s as [|c s IH]; intros r Hs Hr.
  - now apply squeeze_starts_word.
  - cbn in *. apply andb_true_iff in Hs as [-> Hs]. now apply IH.
Qed.

(** [w1], whitespace, [w2]: squeezed, the whitespace is one space. *)
Lemma squeeze_two a s b :
  token a = true -> s <> EmptyString -> all_c isspace_c s = true ->
  token b = true ->
  squeeze (a ++ s ++ b) = a ++ " " ++ b.
Proof.
  intros Ha Ns Hs Hb. unfold squeeze. rewrite squeeze_app by exact Ha.
  f_equal. destruct s as [|x s]; [contradiction|].
  cbn in *. apply andb_true_iff in Hs as [-> Hs].
  rewrite squeeze_run; trivial.
  - now rewrite squeeze_token.
  - destruct b as [|y b]; [reflexivity|].
    apply free_cons in Hb as [Hy _]. cbn. now rewrite Hy.
Qed.

Lemma squeeze_word w : token w = true -> squeeze w = w.
Proof. apply squeeze_token. Qed.

(** What the marker of each currency pattern reads. *)
Lemma currency_marker_span pattern_tail currency c e :
  In (pattern_tail, currency)
     [(Cat (Grp 2 (Alt (Seq [optional_s "franc"; Plus ASpace; Lit "cfa"])
                       (Lit "fcfa"))) Bnd, "FCFA");
      (Cat (optional_s "franc") Bnd, "F");
      (Cat (Lit "f") Bnd, "F")] ->
  matches true pattern_tail c e ->
  exists mk, rest c = mk ++ rest e
             /\ In (squeeze (lower mk), currency) currency_table
             /\ (groups e = groups c
                 \/ exists a b, groups e = (2, (a, b)) :: groups c).
Proof.
  assert (Hfr : forall m, lower m = lower "franc"
                          \/ lower m = lower ("franc" ++ "s") ->
                          token (lower m) = true
                          /\ (lower m = "franc" \/ lower m = "francs")).
  { intros m [E|E]; rewrite E; split; try reflexivity; [now left|now right]. }
  intros Hin H.
  destruct Hin as [[= <- <-]|[[= <- <-]|[[= <- <-]|[]]]];
    apply matches_cat in H as [c1 [H Hb]]; apply matches_bnd in Hb as ->.
  - apply matches_grp in H as [c2 [H ->]]. cbn [with_groups rest groups].
    apply matches_alt in H as [H|H].
    + cbn [Seq] in H. apply matches_cat in H as [ca [H1 H]].
      apply matches_cat in H as [cb [H2 H3]].
      apply (matches_optional_s "franc") in H1 as [m [[R1 _] [G1 Hm]]].
      apply matches_plus in H2 as [s [Ns [Hs [[R2 _] G2]]]].
      apply (matches_lit_icase "cfa") in H3 as [m3 [[R3 _] [G3 H3]]].
      exists (m ++ s ++ m3).
      split; [now rewrite R1, R2, R3, !append_assoc|].
      split; [|right; unfold same_groups in *; rewrite G3, G2, G1; eauto].
      destruct (Hfr m Hm) as [Htok Hm'].
      rewrite !lower_app, squeeze_two, H3; trivial;
        [|destruct s; [contradiction|discriminate]
         |now rewrite lower_spaces|rewrite H3; reflexivity].
      destruct Hm' as [-> | ->]; cbn; tauto.
    + apply (matches_lit_icase "fcfa") in H as [m [[R _] [G Hm]]].
      exists m. split; [exact R|].
      split; [|right; unfold same_groups in *; rewrite G; eauto].
      rewrite Hm. cbn. tauto.
  - apply (matches_optional_s "franc") in H as [m [[R _] [G Hm]]].
    exists m. split; [exact R|]. split; [|now left].
    destruct (Hfr m Hm) as [Htok Hm'].
    rewrite squeeze_word by exact Htok.
    destruct Hm' as [-> | ->]; cbn; tauto.
  - apply (matches_lit_icase "f") in H as [m [[R _] [G Hm]]].
    exists m. split; [exact R|]. split; [|now left].
    rewrite Hm. cbn. tauto.
Qed.

(** X11. Whatever a pattern of [normalize_currency] finds is an amount,
    whitespace and a marker of the pattern's currency (francs cfa, franc
    cfa or fcfa for FCFA, then francs or franc, then f, for F; in any
    case, with any whitespace inside); it is replaced by the converted
    amount, grouped by three when it is a digit string of four digits or
    more, a space and the currency. *)
Theorem currency_span_is_amount_and_marker pattern currency text sk c e :
  In (pattern, currency) patterns_currency ->
  search true pattern false (start_of text) = Some (sk, c, e) ->
  exists q s mk,
    text = sk ++ q ++ s ++ mk ++ rest e
    /\ s <> EmptyString /\ all_c isspace_c s = true
    /\ In (squeeze (lower mk), currency) currency_table
    /\ replace_currency currency (group text c e)
       = (normalized <- convert_amount (strip q) ;;
          Ok (format_amount normalized currency)).
Proof.
  intros Hin H. apply first_match in H as [Ht [Hp [_ Hm]]].
  assert (exists r,
             pattern
             = Cat Bnd (Cat (Grp 1 (Many false ADot)) (Cat (Plus ASpace) r))
             /\ In (r, currency)
                  [(Cat (Grp 2 (Alt (Seq [optional_s "franc"; Plus ASpace;
                                          Lit "cfa"])
                                    (Lit "fcfa"))) Bnd, "FCFA");
                   (Cat (optional_s "franc") Bnd, "F");
                   (Cat (Lit "f") Bnd, "F")]) as [r [-> Hr]].
  { destruct Hin as [[= <- <-]|[[= <- <-]|[[= <- <-]|[]]]];
      eexists; (split; [reflexivity|]); cbn [In]; tauto. }
  apply amount_prefix in Hm as [q [s [c2 [[R1 P1] [Ns [Hs [G2 Hm]]]]]]].
  destruct (currency_marker_span r currency c2 e Hr Hm)
    as [mk [R2 [Hmk Hg]]].
  exists q, s, mk.
  assert (Hrest : rest c = q ++ s ++ mk ++ rest e)
    by now rewrite R1, R2, append_assoc.
  split; [now rewrite <- Hrest|]. repeat (split; [assumption|]).
  unfold replace_currency, group.
  assert (Hfind : find (fun g => Nat.eqb (fst g) 1) (groups e)
                  = Some (1, (pos c, pos c + String.length q))).
  { destruct Hg as [-> |[a [b ->]]]; rewrite G2; reflexivity. }
  rewrite Hfind, Ht, Hrest. now rewrite (slice_middle sk q) by lia.
Qed.

Lemma currency_span_is_amount_and_marker_witness :
  exists q s mk,
    "vingt mille Francs  CFA" = q ++ s ++ mk
    /\ s <> EmptyString /\ all_c isspace_c s = true
    /\ In (squeeze (lower mk), "FCFA") currency_table.
Proof.
  destruct (search true
              (Seq [Bnd; Grp 1 (Many false ADot); Plus ASpace;
                    Grp 2 (Alt (Seq [optional_s "franc"; Plus ASpace;
                                     Lit "cfa"])
                               (Lit "fcfa"));
                    Bnd])
              false (start_of "vingt mille Francs  CFA"))
    as [[[sk c] e]|] eqn:E; [|vm_compute in E; discriminate E].
  destruct (currency_span_is_amount_and_marker _ "FCFA" _ sk c e
              (or_introl eq_refl) E)
    as [q [s [mk [Ht [Ns [Hs [Hmk _]]]]]]].
  exists q, s, mk. vm_compute in E. injection E as E1 E2 E3.
  subst sk c e. cbn [append rest] in Ht.
  rewrite append_nil_r in Ht. now repeat split.
Defined.

End Spans.

Section Respaced.

Local Open Scope nat_scope.

(** ** Texts the pipeline only respaces *)

(** *** No match *)

Lemma sub_no_match icase r repl text :
  search icase r false (start_of text) = None ->
  sub icase r repl text = Ok text.
Proof. intros H. unfold sub. cbn [Nat.add sub_from]. now rewrite H. Qed.

Lemma prefix_app w b : String.prefix w (w ++ b) = true.
Proof.
  induction w as [|c w IH]; [now destruct b|]. cbn.
  destruct (ascii_dec c c); [exact IH|contradiction].
Qed.

Lemma contains_app w : forall a b, contains w (a ++ w ++ b) = true.
Proof.
  induction a as [|c a IH]; intros b.
  - cbn [append]. destruct (w ++ b) eqn:E; cbn [contains];
      rewrite <- E, prefix_app; reflexivity.
  - cbn [append contains]. rewrite IH. apply orb_true_r.
Qed.

(** A piece of the text that reads as a marker word makes the text hold
    a marker. *)
Lemma marker_in_text ws a m b :
  incl ws marker_words -> is_word_of ws m = true ->
  has_marker (a ++ m ++ b) = true.
Proof.
  intros Hws Hm. unfold is_word_of in Hm. apply mem_In in Hm.
  apply in_map_iff in Hm as [mk [Hmk Hin]].
  unfold has_marker. apply existsb_exists. exists mk.
  split; [now apply Hws|].
  assert (E : lower mk = mk).
  { apply Hws in Hin. cbn in Hin.
    repeat (destruct Hin as [<-|Hin]; [reflexivity|]). contradiction. }
  rewrite !lower_app, <- Hmk, E. apply contains_app.
Qed.

Lemma strip_service_no_marker order text :
  has_marker text = false -> strip_service_words order text = Ok text.
Proof.
  intros H. apply for_each_fixed. intros w _. apply sub_no_match.
  destruct (search true (service_pattern w) false (start_of text))
    as [[[sk c] e]|] eqn:E; [|reflexivity].
  apply first_match in E as [Ht [_ [_ Hm]]].
  apply service_span in Hm as [m [s [mk [tail [Hr [_ [_ [_ [He Hmk]]]]]]]]].
  rewrite Ht, Hr, He in H.
  replace (sk ++ m ++ s ++ mk ++ tail) with ((sk ++ m ++ s) ++ mk ++ tail)
    in H by now rewrite !append_assoc.
  rewrite (marker_in_text marker_words) in H;
    [discriminate|apply incl_refl|exact Hmk].
Qed.

Lemma rewrite_codes_no_marker text :
  has_marker text = false -> rewrite_codes text = Ok text.
Proof.
  intros H. unfold rewrite_codes. apply for_each_fixed.
  intros [pattern symbol] Hin. apply sub_no_match.
  destruct (search true pattern false (start_of text))
    as [[[sk c] e]|] eqn:E; [|reflexivity].
  apply first_match in E as [Ht [Hp [_ Hm]]].
  assert (exists ws, pattern = code_pattern (Alts (map Lit ws))
                     /\ ws <> [] /\ incl ws marker_words)
    as [ws [-> [Hne Hws]]].
  { destruct Hin as [[= <- _]|[[= <- _]|[]]].
    - exists ["dièse"; "diese"; "hash"]. split; [reflexivity|].
      split; [discriminate|]. intros x Hx. cbn in *. tauto.
    - exists ["étoile"; "star"]. split; [reflexivity|].
      split; [discriminate|]. intros x Hx. cbn in *. tauto. }
  destruct (code_span ws symbol text sk c e Hne Ht Hp Hm)
    as [m1 [s1 [content [s2 [m2 [Hr [W1 _]]]]]]].
  rewrite Ht, Hr in H.
  rewrite (marker_in_text ws) in H; [discriminate|exact Hws|exact W1].
Qed.

(** *** Words of a text *)

Lemma split_from_space x : forall a cur b,
  isspace_c x = true ->
  split_from cur (a ++ String x b) = (split_from cur a ++ split b)%list.
Proof.
  induction a as [|c a IH]; intros cur b Hx.
  - cbn [append split_from]. rewrite Hx. now destruct (nonempty cur).
  - cbn [append split_from]. destruct (isspace_c c).
    + destruct (nonempty cur); cbn [app]; now rewrite IH.
    + now apply IH.
Qed.

Lemma split_from_spaces s : forall b,
  all_c isspace_c s = true ->
  split_from EmptyString (s ++ b) = split b.
Proof.
  induction s as [|c s IH]; intros b Hs; [reflexivity|].
  cbn in *. apply andb_true_iff in Hs as [-> Hs]. now apply IH.
Qed.

(** The word a text begins with. *)
Lemma word_prefix r :
  exists r1 r2,
    r = r1 ++ r2 /\ token r1 = true /\ starts_word r2 = false
    \/ r = r1 /\ r2 = EmptyString /\ token r1 = true.
Proof.
  induction r as [|c r [r1 [r2 IH]]].
  - exists EmptyString, EmptyString. now right.
  - destruct (isspace_c c) eqn:Hc.
    + exists EmptyString, (String c r). left. cbn. now rewrite Hc.
    + exists (String c r1), r2.
      assert (Ht : forall x, token x = true -> token (String c x) = true).
      { intros x Hx. unfold token, free in *. cbn. now rewrite Hc. }
      destruct IH as [[-> [H1 H2]]|[-> [-> H1]]]; [left|right];
        repeat split; auto.
Qed.

Lemma starts_word_false r :
  starts_word r = false ->
  exists x r', r = String x r' /\ isspace_c x = true.
Proof.
  destruct r as [|x r]; [discriminate|]. cbn. intros H.
  apply negb_false_iff in H. eauto.
Qed.

(** A piece that begins right after whitespace and runs to the next
    whitespace, or to the end, is a word of the text. *)
Lemma word_after_space a s w r :
  s <> EmptyString -> all_c isspace_c s = true ->
  nonblank w = true -> starts_word r = false \/ r = EmptyString ->
  In w (split (a ++ s ++ w ++ r)).
Proof.
  intros Ns Hs Hw Hr. destruct s as [|x s]; [contradiction|].
  cbn in Hs. apply andb_true_iff in Hs as [Hx Hs].
  cbn [append]. unfold split at 1. rewrite split_from_space by exact Hx.
  apply in_or_app. right. unfold split. rewrite split_from_spaces by exact Hs.
  unfold split.
  unfold nonblank in Hw. apply andb_true_iff in Hw as [Hn Ht].
  rewrite split_from_app by exact Ht. cbn [append].
  destruct Hr as [Hr| ->].
  - apply starts_word_false in Hr as [y [r' [-> Hy]]].
    cbn [split_from]. rewrite Hy, Hn. now left.
  - cbn [split_from]. rewrite Hn. now left.
Qed.

Lemma token_lower s : token (lower s) = token s.
Proof.
  unfold token, free. induction s as [|c s IH]; [reflexivity|]. cbn.
  now rewrite lower_c_space, IH.
Qed.

Lemma unit_is_nonblank u :
  mem (lower u) unit_words = true -> nonblank u = true.
Proof.
  intros H. unfold nonblank. rewrite <- token_lower.
  apply mem_In in H. cbn in H.
  assert (Hn : lower u <> EmptyString -> nonempty u = true)
    by (destruct u; [contradiction|reflexivity]).
  repeat (destruct H as [H|H];
          [rewrite <- H in *; rewrite Hn by discriminate; reflexivity|]).
  contradiction.
Qed.

(** *** The data stage *)

Lemma data_no_unit text :
  forallb (fun w => negb (unit_word w)) (split text) = true ->
  sub true data_pattern replace_data text = Ok text.
Proof.
  intros H. apply sub_no_match.
  destruct (search true data_pattern false (start_of text))
    as [[[sk c] e]|] eqn:E; [|reflexivity].
  exfalso. apply first_match in E as [Ht [Hp [_ Hm]]].
  destruct (data_span text sk c e Ht Hp Hm)
    as [q [s [u [Hr [Ns [Hs [Hu [Hb [Hw _]]]]]]]]].
  unfold at_boundary in Hb. rewrite Hw in Hb. cbn [xorb] in Hb.
  apply negb_true_iff in Hb.
  destruct (word_prefix (rest e)) as [r1 [r2 Hrest]].
  assert (Hword : exists r2',
             rest e = r1 ++ r2' /\ token r1 = true
             /\ (starts_word r2' = false \/ r2' = EmptyString)).
  { destruct Hrest as [[E1 [E2 E3]]|[E1 [E2 E3]]].
    - exists r2. auto.
    - exists EmptyString. rewrite append_nil_r. auto. }
  destruct Hword as [r2' [Hre [Ht1 Hr2]]].
  assert (Hin : In (u ++ r1) (split text)).
  { rewrite Ht, Hr, Hre.
    replace (sk ++ q ++ s ++ u ++ r1 ++ r2')
      with ((sk ++ q) ++ s ++ (u ++ r1) ++ r2')
      by now rewrite !append_assoc.
    apply word_after_space; trivial.
    pose proof (unit_is_nonblank u Hu) as Hnb. unfold nonblank in *.
    apply andb_true_iff in Hnb as [Hn Htu].
    rewrite token_app, Htu, Ht1. now destruct u. }
  apply (proj1 (forallb_forall _ _) H) in Hin.
  apply negb_true_iff in Hin.
  assert (Hunit : unit_word (u ++ r1) = true); [|congruence].
  unfold unit_word. apply existsb_exists. exists (lower u).
  split; [now apply mem_In|].
  rewrite lower_app, prefix_app. cbn [andb].
  assert (Hlen : String.length (lower u) = String.length u).
  { clear. induction u as [|c u IH]; [reflexivity|]. cbn. now rewrite IH. }
  rewrite Hlen.
  replace (slice (String.length u) (String.length (u ++ r1)) (u ++ r1))
    with r1.
  - destruct r1 as [|y r1]; [reflexivity|].
    rewrite Hre in Hb. cbn [append next_char] in *. now rewrite Hb.
  - symmetry. rewrite <- (append_nil_r (u ++ r1)) at 2.
    rewrite append_assoc. apply slice_middle; [reflexivity|].
    rewrite length_append. lia.
Qed.

(** *** The per-month patterns *)

Lemma digit_then_here u d : forall tl,
  d <> EmptyString -> all_c isdecimal_c d = true ->
  digit_then u (d ++ u ++ tl) = true.
Proof.
  induction d as [|x d IH]; intros tl Hne Hd; [contradiction|].
  cbn in Hd. apply andb_true_iff in Hd as [Hx Hd].
  cbn [append digit_then]. destruct d as [|y d].
  - cbn [append]. now rewrite Hx, prefix_app.
  - rewrite IH; [apply orb_true_r|discriminate|exact Hd].
Qed.

Lemma digit_then_later u : forall pre s,
  digit_then u s = true -> digit_then u (pre ++ s) = true.
Proof.
  induction pre as [|c pre IH]; intros s H; [exact H|].
  cbn [append digit_then]. rewrite IH by exact H. apply orb_true_r.
Qed.

(** A match of a per-month pattern begins with digits directly followed
    by Go or Mo. *)
Lemma month_span r c e :
  matches false
    (Cat (Grp 1 (Plus ADigit)) (Cat (Grp 2 (Alt (Lit "Go") (Lit "Mo"))) r))
    c e ->
  exists d u tl,
    rest c = d ++ u ++ tl
    /\ d <> EmptyString /\ all_c isdecimal_c d = true
    /\ (u = "Go" \/ u = "Mo").
Proof.
  intros H. apply matches_cat in H as [c1 [H1 H]].
  apply matches_cat in H as [c2 [H2 _]].
  apply matches_grp in H1 as [ca [H1 ->]].
  apply matches_plus in H1 as [d [Nd [Hd [[R1 _] _]]]].
  apply matches_grp in H2 as [cb [H2 ->]].
  cbn [with_groups rest] in *.
  apply matches_alt in H2 as [H2|H2]; apply matches_lit in H2 as [[R2 _] _];
    cbn [with_groups rest] in R2;
    eexists d, _, (rest cb); (split; [now rewrite R1, R2|]);
    (split; [exact Nd|]); (split; [exact Hd|]); [now left|now right].
Qed.

Lemma month_no_digit r text repl :
  digit_then "Go" text = false -> digit_then "Mo" text = false ->
  sub false
    (Cat (Grp 1 (Plus ADigit)) (Cat (Grp 2 (Alt (Lit "Go") (Lit "Mo"))) r))
    repl text
  = Ok text.
Proof.
  intros Hg Hm. apply sub_no_match.
  destruct (search false _ false (start_of text)) as [[[sk c] e]|] eqn:E;
    [|reflexivity].
  exfalso. apply first_match in E as [Ht [_ [_ H]]].
  apply month_span in H as [d [u [tl [Hr [Nd [Hd Hu]]]]]].
  assert (Hocc : digit_then u text = true).
  { rewrite Ht, Hr. now apply digit_then_later, digit_then_here. }
  destruct Hu as [-> | ->]; congruence.
Qed.

Lemma prefix_app_space u : forall a b,
  token u = true ->
  String.prefix u (a ++ String " " b) = String.prefix u a.
Proof.
  induction u as [|c u IH]; intros a b Hu; [now destruct a|].
  apply free_cons in Hu as [Hc Hu].
  destruct a as [|x a]; cbn [append String.prefix].
  - destruct (ascii_dec c " ") as [->|]; [discriminate Hc|reflexivity].
  - destruct (ascii_dec c x); [now apply IH|reflexivity].
Qed.

Lemma digit_then_app_space u : forall a b,
  token u = true ->
  digit_then u (a ++ String " " b) = digit_then u a || digit_then u b.
Proof.
  induction a as [|x a IH]; intros b Hu; [reflexivity|].
  cbn [append digit_then].
  rewrite prefix_app_space, IH by exact Hu. now rewrite orb_assoc.
Qed.

Lemma digit_then_join u ws :
  token u = true ->
  digit_then u (join " " ws) = existsb (digit_then u) ws.
Proof.
  intros Hu. unfold join. induction ws as [|w ws IH]; [reflexivity|].
  destruct ws as [|w' ws].
  - cbn. now rewrite orb_false_r.
  - rewrite concat_cons2. cbn [append].
    rewrite digit_then_app_space, IH by exact Hu. reflexivity.
Qed.

(** *** The currency scan *)

Lemma first_marker_none words js :
  (forall w, In w words -> marker_of w = None) ->
  first_marker words js = None.
Proof.
  intros H. induction js as [|j js IH]; [reflexivity|].
  cbn [first_marker].
  destruct (Nat.lt_ge_cases j (length words)) as [Hj|Hj].
  - now rewrite (H (nth j words EmptyString)) by now apply nth_In.
  - now rewrite nth_overflow by lia.
Qed.

Lemma currency_loop_none fuel : forall words i result,
  (forall w, In w words -> marker_of w = None) ->
  length words - i <= fuel ->
  currency_loop fuel words i result = Ok (result ++ skipn i words)%list.
Proof.
  induction fuel as [|fuel IH]; intros words i result Hw Hfuel;
    cbn [currency_loop].
  - replace (i <? length words) with false
      by (symmetry; apply Nat.ltb_ge; lia).
    rewrite skipn_all2 by lia. now rewrite app_nil_r.
  - destruct (i <? length words) eqn:Hi.
    + apply Nat.ltb_lt in Hi.
      rewrite currency_step_first, first_marker_none by assumption.
      cbn [bind]. rewrite IH by (trivial; lia).
      rewrite <- app_assoc. cbn [app]. f_equal. f_equal.
      rewrite (skipn_nth words i (nth i words EmptyString))
        by now apply nth_error_nth'.
      now rewrite Nat.add_1_r.
    + apply Nat.ltb_ge in Hi. rewrite skipn_all2 by lia.
      now rewrite app_nil_r.
Qed.

(** *** The pipeline *)

Lemma no_trigger ws :
  forallb (fun w => negb (trigger w)) ws = true ->
  forallb (fun w => negb (unit_word w)) ws = true
  /\ existsb (digit_then "Go") ws = false
  /\ existsb (digit_then "Mo") ws = false
  /\ (forall w, In w ws -> marker_of w = None).
Proof.
  induction ws as [|w ws IH]; intros H; [now repeat split|].
  cbn [forallb] in H. apply andb_true_iff in H as [Hw H].
  destruct (IH H) as [H1 [H2 [H3 H4]]].
  unfold trigger in Hw. apply negb_true_iff in Hw.
  apply orb_false_iff in Hw as [Hw Hm].
  apply orb_false_iff in Hw as [Hw Hmo].
  apply orb_false_iff in Hw as [Hu Hgo].
  cbn [forallb existsb]. rewrite Hu, Hgo, Hmo, H1, H2, H3.
  repeat split. intros w' [<-|Hin]; [|now apply H4].
  now destruct (marker_of w).
Qed.

(** X12. A text is returned with nothing but its whitespace changed (its
    words joined by single spaces) when it holds no marker word of a
    code, fewer than six words that give a phone part, and no word that
    begins with a unit word, holds a digit directly followed by Go or Mo,
    or is a currency word: number words alone are not converted. *)
Theorem text_without_trigger_is_only_respaced order text :
  has_marker text = false ->
  length (filter is_part (split text)) < 6 ->
  forallb (fun w => negb (trigger w)) (split text) = true ->
  normalize order text = Ok (join " " (split text)).
Proof.
  intros Hmark Hphone Htrig.
  destruct (no_trigger _ Htrig) as [Hunit [Hgo [Hmo Hcur]]].
  pose proof (split_join (split text) (split_words text)) as Hsplit.
  unfold normalize, __call__, normalize_codes.
  rewrite strip_service_no_marker by exact Hmark. cbn [bind].
  rewrite rewrite_codes_no_marker by exact Hmark. cbn [bind].
  unfold after_codes.
  rewrite normalize_phone_few by exact Hphone. cbn [bind].
  unfold normalize_data.
  rewrite data_no_unit by now rewrite Hsplit. cbn [bind].
  unfold slash_month_pattern, par_month_pattern. cbn [Seq].
  rewrite month_no_digit
    by (rewrite digit_then_join by reflexivity; assumption).
  cbn [bind].
  rewrite month_no_digit
    by (rewrite digit_then_join by reflexivity; assumption).
  cbn [bind]. rewrite Hsplit.
  rewrite currency_loop_none by (trivial; lia). cbn [bind app skipn].
  rewrite sub_spaces. cbn [bind].
  now rewrite strip_squeeze, Hsplit.
Qed.

Lemma text_without_trigger_is_only_respaced_witness :
  normalize service_words "  fukk ak   juróom benn " =
  Ok "fukk ak juróom benn".
Proof.
  apply (text_without_trigger_is_only_respaced service_words
           "  fukk ak   juróom benn ").
  - vm_compute. reflexivity.
  - vm_compute. lia.
  - vm_compute. reflexivity.
Defined.

End Respaced.

Section WordRules.

Local Open Scope Z_scope.

(** ** Hyphenated words *)

Lemma no_hyphen_cons c s :
  contains "-" (String c s) = false ->
  Ascii.eqb c "-" = false /\ contains "-" s = false.
Proof.
  cbn [contains]. intros H. apply orb_false_iff in H as [Hp Hs].
  split; [|exact Hs]. unfold String.prefix in Hp.
  destruct (ascii_dec "-" c) as [<-|Hne].
  - now destruct s.
  - destruct (Ascii.eqb c "-") eqn:E; [|reflexivity].
    apply Ascii.eqb_eq in E. now subst.
Qed.

Lemma contains_hyphen a b : contains "-" (a ++ String "-" b) = true.
Proof.
  change (a ++ String "-" b) with (a ++ "-" ++ b). apply contains_app.
Qed.

Lemma split_on_hyphen_none s : forall cur,
  contains "-" s = false -> split_on_from "-" cur s = [cur ++ s].
Proof.
  induction s as [|c s IH]; intros cur H; cbn [split_on_from].
  - now rewrite append_nil_r.
  - apply no_hyphen_cons in H as [Hc Hs]. rewrite Hc, IH by exact Hs.
    now rewrite append_assoc.
Qed.

Lemma split_on_hyphen a : forall cur b,
  contains "-" a = false ->
  split_on_from "-" cur (a ++ String "-" b)
  = (cur ++ a) :: split_on_from "-" EmptyString b.
Proof.
  induction a as [|c a IH]; intros cur b H; cbn [append split_on_from].
  - now rewrite append_nil_r.
  - apply no_hyphen_cons in H as [Hc Hs]. rewrite Hc, IH by exact Hs.
    now rewrite append_assoc.
Qed.

(** A word of two parts that is in neither table: the values of its parts
    are added. *)
Lemma two_parts_step words i result a b :
  nth_error words i = Some (a ++ "-" ++ b) ->
  contains "-" a = false -> contains "-" b = false ->
  lookup french_tens (a ++ "-" ++ b) = None ->
  lookup french_ones (a ++ "-" ++ b) = None ->
  0 < part_value a + part_value b ->
  convert_step words i result
  = Ok ((i + 1)%nat, (result ++ [str (part_value a + part_value b)])%list).
Proof.
  intros Hw Ha Hb Ht Ho Hpos.
  pose proof (index_some _ _ _ Hw) as Iw.
  unfold convert_step, or_fall, hyphenated. rewrite Iw. cbn [bind].
  cbn [append]. rewrite contains_hyphen.
  cbn [append] in Ht, Ho. rewrite Ht, Ho.
  unfold split_on. rewrite split_on_hyphen by exact Ha.
  rewrite split_on_hyphen_none by exact Hb.
  cbn [append length Nat.eqb and_then bind].
  match goal with
  | |- context [fold_left ?f [a; b] 0] =>
      replace (fold_left f [a; b] 0) with (part_value a + part_value b)
        by (cbn [fold_left]; unfold part_value;
            destruct (lookup french_ones a), (lookup french_tens a),
              (lookup french_ones b), (lookup french_tens b); lia)
  end.
  replace (0 <? part_value a + part_value b) with true
    by (symmetry; apply Z.ltb_lt; lia).
  reflexivity.
Qed.

(** [quatre-vingt-X]: eighty, plus [X] when it is in [french_ones]. *)
Lemma quatre_vingt_step words i result x :
  nth_error words i = Some ("quatre-vingt-" ++ x) ->
  contains "-" x = false -> x <> "dix" ->
  convert_step words i result
  = Ok ((i + 1)%nat,
        (result
         ++ [str (80 + match lookup french_ones x with
                        | Some v => v
                        | None => 0
                        end)])%list).
Proof.
  intros Hw Hx Hdix.
  pose proof (index_some _ _ _ Hw) as Iw.
  assert (Hd : String.eqb x "dix" = false).
  { destruct (String.eqb x "dix") eqn:E; [|reflexivity].
    now apply String.eqb_eq in E. }
  unfold convert_step, or_fall, hyphenated. rewrite Iw. cbn [bind].
  replace (contains "-" ("quatre-vingt-" ++ x)) with true
    by (symmetry; apply (contains_hyphen "quatre" ("vingt-" ++ x))).
  replace (lookup french_tens ("quatre-vingt-" ++ x)) with (@None Z)
    by (cbn; now rewrite Hd).
  replace (lookup french_ones ("quatre-vingt-" ++ x)) with (@None Z)
    by reflexivity.
  unfold split_on.
  change ("quatre-vingt-" ++ x)
    with ("quatre" ++ String "-" ("vingt" ++ String "-" x)).
  rewrite (split_on_hyphen "quatre") by reflexivity.
  rewrite (split_on_hyphen "vingt") by reflexivity.
  rewrite split_on_hyphen_none by exact Hx.
  cbn [append length Nat.eqb and_then bind index nth_error].
  change (String.eqb "quatre" "quatre") with true.
  cbn [and_then bind index nth_error].
  change (String.eqb "vingt" "vingt") with true. cbn [bind].
  destruct (lookup french_ones x); cbn [bind]; do 4 f_equal; lia.
Qed.

(** X14. A hyphenated word that is in neither French table is read part
    by part.  [quatre-vingt-X] is 80 plus [X] when [X] is in
    [french_ones], and 80 otherwise.  A word of two parts is the sum of
    what its parts count for, when that is positive: a part in neither
    table counts for nothing, so "cent-vingt" is 20.  Any other hyphenated
    word is left to the single-word rules: "vingt-et-un" stays as it
    is. *)
Theorem hyphenated_word_is_read_by_parts :
  (forall words i result x,
      nth_error words i = Some ("quatre-vingt-" ++ x) ->
      contains "-" x = false -> x <> "dix" ->
      convert_step words i result
      = Ok ((i + 1)%nat,
            (result
             ++ [str (80 + match lookup french_ones x with
                            | Some v => v
                            | None => 0
                            end)])%list))
  /\ (forall words i result a b,
      nth_error words i = Some (a ++ "-" ++ b) ->
      contains "-" a = false -> contains "-" b = false ->
      lookup french_tens (a ++ "-" ++ b) = None ->
      lookup french_ones (a ++ "-" ++ b) = None ->
      0 < part_value a + part_value b ->
      convert_step words i result
      = Ok ((i + 1)%nat,
            (result ++ [str (part_value a + part_value b)])%list))
  /\ convert_to_number "quatre-vingt-onze" = Ok "91"
  /\ convert_to_number "soixante-douze" = Ok "72"
  /\ convert_to_number "cent-vingt" = Ok "20"
  /\ convert_to_number "vingt-et-un" = Ok "vingt-et-un".
Proof.
  split; [exact quatre_vingt_step|]. split; [exact two_parts_step|].
  repeat split; vm_compute; reflexivity.
Qed.

(** ** [X fukk] and [X téeméer] *)

(** X15. A Wolof unit word directly followed by [fukk] is read as ten
    times the unit, and directly followed by [téeméer] as a hundred times
    the unit; the scan moves past both words. *)
Theorem unit_before_fukk_or_teemeer words i result x v word factor :
  nth_error words i = Some x ->
  lookup wolof_basic x = Some v ->
  nth_error words (i + 1) = Some word ->
  In (word, factor) [("fukk", 10); ("téeméer", 100)] ->
  convert_step words i result
  = Ok ((i + 2)%nat, (result ++ [str (v * factor)])%list).
Proof.
  intros Hx Hv Hw Hin.
  pose proof (index_some _ _ _ Hx) as Ix.
  pose proof (index_some _ _ _ Hw) as Iw.
  pose proof (nth_error_lt _ _ _ Hw) as Lw.
  apply lookup_In in Hv. cbn [wolof_basic In] in Hv.
  unfold convert_step, or_fall, hyphenated, juroom_unit, unit_times,
    word_is.
  destruct Hin as [[= <- <-]|[[= <- <-]|[]]];
    repeat (destruct Hv as [Hv|Hv];
            [injection Hv as <- <-;
             repeat (progress (rewrite ?Ix, ?Iw, ?Lw; simpl)); reflexivity|]);
    contradiction.
Qed.

Lemma unit_before_fukk_or_teemeer_witness :
  convert_step ["ñett"; "téeméer"; "ak"; "ñaar"; "fukk"] 3 ["300"; "ak"]
  = Ok (5%nat, ["300"; "ak"; "20"]).
Proof.
  apply (unit_before_fukk_or_teemeer
           ["ñett"; "téeméer"; "ak"; "ñaar"; "fukk"] 3 ["300"; "ak"]
           "ñaar" 2 "fukk" 10); try reflexivity.
  now left.
Defined.

(** ** One word *)

Lemma lower_c_facts c :
  Ascii.eqb (lower_c c) "-" = Ascii.eqb c "-"
  /\ isdigit_c (lower_c c) = isdigit_c c.
Proof. destruct c as [[] [] [] [] [] [] [] []]; split; reflexivity. Qed.

Lemma contains_hyphen_spec s :
  contains "-" s = negb (all_c (fun c => negb (Ascii.eqb c "-")) s).
Proof.
  induction s as [|c s IH]; [reflexivity|]. cbn [contains all_c].
  rewrite IH. unfold String.prefix.
  destruct (ascii_dec "-" c) as [<-|Hne].
  - cbn. now destruct s.
  - replace (Ascii.eqb c "-") with false; [reflexivity|].
    symmetry. apply Ascii.eqb_neq. congruence.
Qed.

Lemma lower_hyphen s : contains "-" (lower s) = contains "-" s.
Proof.
  rewrite !contains_hyphen_spec. f_equal.
  induction s as [|c s IH]; [reflexivity|]. cbn.
  now rewrite (proj1 (lower_c_facts c)), IH.
Qed.

Lemma lower_isdigit s : isdigit (lower s) = isdigit s.
Proof.
  unfold isdigit. f_equal; [now destruct s|].
  induction s as [|c s IH]; [reflexivity|]. cbn.
  now rewrite (proj2 (lower_c_facts c)), IH.
Qed.

Lemma lexicon_nonneg w v : lookup lexicon w = Some v -> 0 <= v.
Proof.
  intros H. apply lookup_In in H.
  assert (Hall : Forall (fun p => 0 <= snd p) lexicon)
    by (repeat constructor; cbn; lia).
  now apply (proj1 (Forall_forall _ _) Hall) in H.
Qed.

(** The converter on a text of one word [w], given in lower case. *)
Lemma convert_one_word w :
  nonblank w = true -> lower w = w ->
  contains "-" w = false -> isdigit w = false -> w <> "ak" ->
  convert_to_number w
  = Ok (match lookup lexicon w with Some v => str v | None => w end).
Proof.
  intros Hnb Hl Hh Hd Hak. unfold nonblank in Hnb.
  apply andb_true_iff in Hnb as [Hn Ht].
  assert (Eak : String.eqb "ak" w = false).
  { destruct (String.eqb "ak" w) eqn:E; [|reflexivity].
    apply String.eqb_eq in E. now subst. }
  unfold convert_to_number, convert_words.
  rewrite Hl, (split_token w Ht), Hn.
  cbn [length convert_loop Nat.ltb Nat.leb].
  unfold convert_step, or_fall, hyphenated, juroom_unit, unit_times,
    unit_junni, word_is.
  cbn [index nth_error bind]. rewrite Hh. cbn [bind index nth_error].
  rewrite Hd.
  repeat (progress
            (cbn [bind Nat.add length Nat.ltb Nat.leb andb and_then index
                  nth_error app convert_loop];
             rewrite ?andb_false_r)).
  rewrite single_word_lexicon. unfold calculate_from_parts.
  destruct (lookup lexicon w) as [v|] eqn:Ev.
  - pose proof (lexicon_nonneg w v Ev) as Hv.
    change [str v] with (map str [v]).
    rewrite ak_loop_none by (apply mem_ak_numbers; now repeat constructor).
    cbn [bind]. rewrite classify_all_numbers by now repeat constructor.
    cbn [bind app length Nat.eqb]. rewrite combine_loop_spec by (cbn; lia).
    cbn [bind app skipn combined length Nat.eqb negb sum fold_left].
    reflexivity.
  - cbn [length ak_loop mem existsb]. rewrite Eak. cbn [orb bind].
    cbn [classify_all classify]. rewrite Hd.
    cbn [length Nat.eqb negb]. rewrite andb_false_r.
    cbn [bind app length Nat.eqb join String.concat]. reflexivity.
Qed.

(** X16. A text of one word without hyphen, not a digit string and not
    [ak], is converted by looking the word up, in lower case, in the
    tables of the single-word rules: the value when it is there, the word
    in lower case when it is not.  The table [wolof_large] is not among
    them. *)
Theorem one_word_is_looked_up w :
  nonblank w = true ->
  contains "-" w = false -> isdigit w = false -> lower w <> "ak" ->
  convert_to_number w
  = Ok (match lookup lexicon (lower w) with
        | Some v => str v
        | None => lower w
        end).
Proof.
  intros Hnb Hh Hd Hak.
  assert (Hlow : lower (lower w) = lower w).
  { clear. induction w as [|c w IH]; [reflexivity|]. cbn. rewrite IH.
    f_equal. destruct c as [[] [] [] [] [] [] [] []]; reflexivity. }
  assert (E : convert_to_number w = convert_to_number (lower w)).
  { unfold convert_to_number, convert_words. now rewrite Hlow. }
  rewrite E. apply convert_one_word; trivial.
  - unfold nonblank in *. apply andb_true_iff in Hnb as [Hn Ht].
    rewrite token_lower, Ht. now destruct w.
  - now rewrite lower_hyphen.
  - now rewrite lower_isdigit.
Qed.

Lemma one_word_is_looked_up_witness :
  convert_to_number "MILLE" = Ok "1000"
  /\ convert_to_number "Tamndareet" = Ok "tamndareet".
Proof.
  split.
  - apply (one_word_is_looked_up "MILLE"); try reflexivity. discriminate.
  - apply (one_word_is_looked_up "Tamndareet"); try reflexivity.
    discriminate.
Defined.

(** ** The order of the service words *)

(** X13. The result of the pipeline depends on the order in which the loop
    of [normalize_codes] meets the elements of the set [service_words]:
    when [sur] is tried after [appuyez], "appuyez sur dièse 1 dièse" keeps
    its first word; when it is tried before, both words go. *)
Theorem service_word_order_matters :
  Permutation ["tapez"; "composer"; "appuyez"; "sur"] service_words
  /\ Permutation ["tapez"; "composer"; "sur"; "appuyez"] service_words
  /\ normalize ["tapez"; "composer"; "appuyez"; "sur"]
       "appuyez sur dièse 1 dièse"
     = Ok "appuyez #1#"
  /\ normalize ["tapez"; "composer"; "sur"; "appuyez"]
       "appuyez sur dièse 1 dièse"
     = Ok "#1#".
Proof.
  split; [apply Permutation_refl|].
  split; [do 2 apply perm_skip; apply perm_swap|].
  split; vm_compute; reflexivity.
Qed.

End WordRules.

Section PerMonth.

Local Open Scope nat_scope.

(** ** The per-month patterns of [normalize_data] *)

(** The common beginning [(\d+)(Go|Mo)] of the per-month patterns, with
    what the template makes of its groups. *)
Lemma month_head r text pre c e :
  text = pre ++ rest c -> String.length pre = pos c ->
  matches false
    (Cat (Grp 1 (Plus ADigit)) (Cat (Grp 2 (Alt (Lit "Go") (Lit "Mo"))) r))
    c e ->
  exists d u c2,
    d <> EmptyString /\ all_c isdecimal_c d = true
    /\ (u = "Go" \/ u = "Mo")
    /\ rest c = d ++ u ++ rest c2
    /\ matches false r c2 e
    /\ (same_groups c2 e ->
        per_month (group text c e) = Ok (d ++ u ++ "/mois")).
Proof.
  intros Ht Hp H. apply matches_cat in H as [c1 [H1 H]].
  apply matches_cat in H as [c2 [H2 Hr]].
  apply matches_grp in H1 as [ca [H1 ->]].
  apply matches_plus in H1 as [d [Nd [Hd [[R1 P1] G1]]]].
  apply matches_grp in H2 as [cb [H2 ->]].
  assert (exists u,
             (u = "Go" \/ u = "Mo")
             /\ reads (with_groups ca ((1, (pos c, pos ca)) :: groups ca))
                      cb u
             /\ same_groups
                  (with_groups ca ((1, (pos c, pos ca)) :: groups ca)) cb)
    as [u [Hu [[R2 P2] G2]]].
  { apply matches_alt in H2 as [H2|H2]; apply matches_lit in H2 as [R G];
      eexists; (split; [|split; eassumption]); [now left|now right]. }
  unfold same_groups in *. cbn [with_groups rest pos groups] in *.
  exists d, u, (with_groups cb ((2, (pos ca, pos cb)) :: groups cb)).
  cbn [with_groups rest pos groups].
  assert (Hrest : rest c = d ++ u ++ rest cb)
    by now rewrite R1, R2.
  split; [exact Nd|]. split; [exact Hd|]. split; [exact Hu|].
  split; [exact Hrest|]. split; [exact Hr|].
  intros Ge. unfold per_month, group. rewrite Ge, G2.
  cbn [find fst Nat.eqb]. rewrite Ht, Hrest.
  rewrite (slice_middle pre d) by lia.
  replace (pre ++ d ++ u ++ rest cb) with ((pre ++ d) ++ u ++ rest cb)
    by now rewrite !append_assoc.
  rewrite (slice_middle (pre ++ d) u)
    by (rewrite ?length_append; lia).
  reflexivity.
Qed.

(** The ends of the two patterns. *)
Lemma slash_tail c e :
  matches false
    (Cat (Many true ASpace)
       (Cat (One (AChar "/")) (Cat (Many true ASpace) (Lit "mois")))) c e ->
  exists sep, month_link "/" false sep
              /\ rest c = sep ++ "mois" ++ rest e /\ same_groups c e.
Proof.
  intros H. apply matches_cat in H as [c3 [H3 H]].
  apply matches_cat in H as [c4 [H4 H]].
  apply matches_cat in H as [c5 [H5 H6]].
  apply matches_many in H3 as [s1 [Hs1 [[R3 _] G3]]].
  apply matches_one in H4 as [y [Hy [[R4 _] G4]]].
  simpl in Hy. apply Ascii.eqb_eq in Hy. subst y.
  apply matches_many in H5 as [s2 [Hs2 [[R5 _] G5]]].
  apply matches_lit in H6 as [[R6 _] G6].
  unfold same_groups in *.
  exists (s1 ++ "/" ++ s2). split.
  - exists s1, s2. repeat split; try assumption; discriminate.
  - split; [|congruence].
    rewrite R3, R4, R5, R6, !append_assoc. reflexivity.
Qed.

Lemma par_tail c e :
  matches false
    (Cat (Plus ASpace) (Cat (Lit "par") (Cat (Plus ASpace) (Lit "mois"))))
    c e ->
  exists sep, month_link "par" true sep
              /\ rest c = sep ++ "mois" ++ rest e /\ same_groups c e.
Proof.
  intros H. apply matches_cat in H as [c3 [H3 H]].
  apply matches_cat in H as [c4 [H4 H]].
  apply matches_cat in H as [c5 [H5 H6]].
  apply matches_plus in H3 as [s1 [N1 [Hs1 [[R3 _] G3]]]].
  apply matches_lit in H4 as [[R4 _] G4].
  apply matches_plus in H5 as [s2 [N2 [Hs2 [[R5 _] G5]]]].
  apply matches_lit in H6 as [[R6 _] G6].
  unfold same_groups in *.
  exists (s1 ++ "par" ++ s2). split.
  - exists s1, s2. repeat split; assumption.
  - split; [|congruence].
    rewrite R3, R4, R5, R6, !append_assoc. reflexivity.
Qed.

(** X17. Whatever a per-month pattern finds is a digit string, Go or Mo
    (in this case only), the link of the pattern (a slash with any
    whitespace around it, or [par] between whitespace) and [mois]; it is
    replaced by the digits, the unit and [/mois], with no whitespace
    left. *)
Theorem per_month_span_is_contracted pattern link must_space text sk c e :
  In (pattern, (link, must_space)) month_patterns ->
  search false pattern false (start_of text) = Some (sk, c, e) ->
  exists d u sep,
    text = sk ++ d ++ u ++ sep ++ "mois" ++ rest e
    /\ d <> EmptyString /\ all_c isdecimal_c d = true
    /\ (u = "Go" \/ u = "Mo")
    /\ month_link link must_space sep
    /\ per_month (group text c e) = Ok (d ++ u ++ "/mois").
Proof.
  intros Hin H. apply first_match in H as [Ht [Hp [_ Hm]]].
  destruct Hin as [E|[E|[]]]; injection E as <- <- <-;
    [unfold slash_month_pattern in Hm|unfold par_month_pattern in Hm];
    cbn [Seq] in Hm;
    destruct (month_head _ text sk c e Ht Hp Hm)
      as [d [u [c2 [Nd [Hd [Hu [Hr [Htl Hrep]]]]]]]];
    [apply slash_tail in Htl as [sep [Hl [Hr2 Hg]]]
    |apply par_tail in Htl as [sep [Hl [Hr2 Hg]]]];
    exists d, u, sep;
    (split; [now rewrite Ht, Hr, Hr2|]);
    repeat (split; [assumption|]); now apply Hrep.
Qed.

Lemma per_month_span_is_contracted_witness :
  exists d u sep,
    "forfait 150Go  par mois svp" = "forfait " ++ d ++ u ++ sep ++ "mois svp"
    /\ month_link "par" true sep
    /\ sub false par_month_pattern per_month "forfait 150Go  par mois svp"
       = Ok "forfait 150Go/mois svp".
Proof.
  destruct (search false par_month_pattern false
              (start_of "forfait 150Go  par mois svp"))
    as [[[sk c] e]|] eqn:E; [|vm_compute in E; discriminate E].
  destruct (per_month_span_is_contracted par_month_pattern "par" true
              "forfait 150Go  par mois svp" sk c e)
    as [d [u [sep [Ht [_ [_ [_ [Hl _]]]]]]]];
    [right; left; reflexivity|exact E|].
  exists d, u, sep. vm_compute in E. injection E as E1 E2 E3.
  subst sk c e. cbn [rest] in Ht.
  split; [exact Ht|]. split; [exact Hl|]. vm_compute. reflexivity.
Defined.

End PerMonth.
